(** * a2a-go: task store, SSE event fan-out and push-notification auth

    A shallow embedding of the parts of co-browser/a2a-go that the
    specification talks about:

    - [Types]: the structs of package [types] that the task manager uses;
    - [TaskStore]: [InMemoryTaskManager]'s task map and the operations
      [upsertTask], [updateStore], [appendTaskHistory], [OnGetTask],
      [OnCancelTask] (package [server]);
    - [SSE]: the subscriber registry, [setupSSEConsumer],
      [enqueueEventsForSSE] and the goroutine of [dequeueEventsForSSE],
      as an interleaving step machine over Go slices with shared backing
      arrays;
    - [PushAuth]: [PushNotificationSenderAuth], [PushNotificationReceiverAuth]
      (package [utils]) and the handlers of [PushNotificationListener]
      (package [cli]), over an interface for the external libraries
      (encoding/json, crypto/sha256, golang-jwt);
    - [Scenario]: a small instance of that interface, to run the code on
      concrete requests;
    - [Manager]: the task map together with the push-notification table
      of [InMemoryTaskManager], and the handlers over both;
    - [Cache]: [InMemoryCache] (package [utils]);
    - [Modalities]: [AreModalitiesCompatible] (package [server]);
    - [Server]: [A2AServer.processRequest], [handleError] and
      [createResponse] over the [TaskManager] interface;
    - [Sender]: [PushNotificationSenderAuth.SendPushNotification];
    - [Publication]: schedules of one publication on the SSE machine;
    - [Hosts]: [mergeMetadata] and its use in
      [RemoteAgentConnections.SendTask] (package [hosts]).

    The definitions come first; the modules whose names end in [Facts]
    hold what is proved about them. *)

From Stdlib Require Import ZArith.
From stdpp Require Import gmap strings list fin_maps pretty.

Local Open Scope string_scope.
Local Open Scope list_scope.
Local Open Scope nat_scope.

(** ** Package [types] *)
Module Types.

(** [type TaskState string] with its seven constants. *)
Inductive TaskState :=
  | TaskSubmitted | TaskWorking | TaskInputNeeded
  | TaskCompleted | TaskCanceled | TaskFailed | TaskUnknown.

#[global] Instance TaskState_eq_dec : EqDecision TaskState.
Proof. solve_decision. Defined.

(** The three states the specification calls terminal. *)
Definition is_terminal (s : TaskState) : bool :=
  match s with
  | TaskCompleted | TaskCanceled | TaskFailed => true
  | _ => false
  end.

(** [Parts []any] is a "simplified union of TextPart/FilePart/DataPart";
    the metadata maps play no role in the operations modelled here. *)
Inductive Part :=
  | TextPart (text : string)
  | FilePart (name uri : option string)
  | DataPart (data : list (string * string)).

Record Message := { Role : string; Parts : list Part }.

Record TaskStatus := {
  State : TaskState;
  StatusMessage : option Message;   (* Message *Message, nil = None *)
  Timestamp : string
}.

Record Artifact := {
  Name : option string;
  ArtifactParts : list Part;
  Index : Z;
  Append : option bool;
  LastChunk : option bool
}.

(** [Artifacts] is a slice that the code tests against nil, so nil (None)
    and the empty non-nil slice (Some []) are kept apart.  [History] is
    only measured, re-sliced and appended to; a nil slice behaves as the
    empty list there. *)
Record Task := {
  ID : string;
  SessionID : option string;
  Status : TaskStatus;
  Artifacts : option (list Artifact);
  History : list Message
}.

Record TaskStatusUpdateEvent := {
  EventID : string;
  EventStatus : TaskStatus;
  Final : bool
}.

Record TaskArtifactUpdateEvent := {
  ArtifactEventID : string;
  EventArtifact : Artifact
}.

Record JSONRPCError := { Code : Z; ErrMessage : string }.

Record TaskSendParams := {
  SendID : string;
  SendSessionID : string;
  SendMessage : Message
}.

Record TaskQueryParams := {
  QueryID : string;
  HistoryLength : option Z         (* *int, nil = None *)
}.

Record GetTaskResponse := { GetResult : option Task }.
Record CancelTaskResponse := { CancelResult : option Task }.

End Types.

(** ** Package [server]: the task map of [InMemoryTaskManager] *)
Module TaskStore.
Import Types.

(** [tm.tasks map[string]*types.Task]: a missing key reads as nil, and no
    operation ever stores nil, so [tasks !! id = None] is [task == nil]. *)
Record InMemoryTaskManager := {
  tasks : gmap string Task
}.

Definition NewInMemoryTaskManager : InMemoryTaskManager := {| tasks := ∅ |}.

Definition with_history (t : Task) (h : list Message) : Task :=
  {| ID := ID t; SessionID := SessionID t; Status := Status t;
     Artifacts := Artifacts t; History := h |}.

Definition with_status (t : Task) (s : TaskStatus) : Task :=
  {| ID := ID t; SessionID := SessionID t; Status := s;
     Artifacts := Artifacts t; History := History t |}.

Definition with_artifacts (t : Task) (a : option (list Artifact)) : Task :=
  {| ID := ID t; SessionID := SessionID t; Status := Status t;
     Artifacts := a; History := History t |}.

(** [upsertTask]; [now] is [time.Now().Format(time.RFC3339)].  The
    returned pointer is the stored task, so the task returned is the one
    in the new map. *)
Definition upsertTask (tm : InMemoryTaskManager) (p : TaskSendParams)
    (now : string) : InMemoryTaskManager * Task :=
  match tasks tm !! SendID p with
  | None =>
      let task := {| ID := SendID p;
                     SessionID := Some (SendSessionID p);
                     Status := {| State := TaskSubmitted;
                                  StatusMessage := None;
                                  Timestamp := now |};
                     Artifacts := None;
                     History := [SendMessage p] |} in
      ({| tasks := <[SendID p := task]> (tasks tm) |}, task)
  | Some task =>
      let task' := with_history task (History task ++ [SendMessage p]) in
      ({| tasks := <[SendID p := task']> (tasks tm) |}, task')
  end.

(** Go's [error] values built by [errors.New] are modelled by their text. *)
Definition error := string.

(** [updateStore]. *)
Definition updateStore (tm : InMemoryTaskManager) (taskID : string)
    (status : TaskStatus) (artifacts : option (list Artifact))
    : InMemoryTaskManager * (error + Task) :=
  match tasks tm !! taskID with
  | None => (tm, inl "task not found")
  | Some task =>
      let task1 := with_status task status in
      let task2 :=
        match StatusMessage status with
        | Some m => with_history task1 (History task1 ++ [m])
        | None => task1
        end in
      let task3 :=
        match artifacts with
        | Some new =>
            let old := match Artifacts task2 with
                       | None => []
                       | Some a => a
                       end in
            with_artifacts task2 (Some (old ++ new))
        | None => task2
        end in
      ({| tasks := <[taskID := task3]> (tasks tm) |}, inr task3)
  end.

(** [appendTaskHistory]: works on a copy [newTask := *task]. *)
Definition appendTaskHistory (task : Task) (historyLength : option Z) : Task :=
  match historyLength with
  | Some n =>
      if (0 <? n)%Z then
        if (n <? Z.of_nat (length (History task)))%Z then
          with_history task
            (drop (Z.to_nat (Z.of_nat (length (History task)) - n)) (History task))
        else task
      else with_history task []
  | None => with_history task []
  end.

(** [OnGetTask]: reads the map under the lock and writes nothing. *)
Definition OnGetTask (tm : InMemoryTaskManager) (q : TaskQueryParams)
    : InMemoryTaskManager * GetTaskResponse :=
  match tasks tm !! QueryID q with
  | None => (tm, {| GetResult := None |})
  | Some task =>
      (tm, {| GetResult := Some (appendTaskHistory task (HistoryLength q)) |})
  end.

(** [OnCancelTask]: both branches return a response with a nil result. *)
Definition OnCancelTask (tm : InMemoryTaskManager) (taskID : string)
    : InMemoryTaskManager * CancelTaskResponse :=
  match tasks tm !! taskID with
  | None => (tm, {| CancelResult := None |})
  | Some _ => (tm, {| CancelResult := None |})
  end.

(** The one message a status update adds to the history, if any. *)
Definition status_entry (status : TaskStatus) : list Message :=
  match StatusMessage status with
  | Some m => [m]
  | None => []
  end.

(** A nil-able slice read as a list. *)
Definition elems {A} (s : option (list A)) : list A := default [] s.

(** *** Sample data *)

Definition m1 : Message := {| Role := "user"; Parts := [TextPart "hello"] |}.
Definition m2 : Message := {| Role := "user"; Parts := [TextPart "more"] |}.
Definition m3 : Message := {| Role := "agent"; Parts := [TextPart "done"] |}.

Definition send (m : Message) : TaskSendParams :=
  {| SendID := "t1"; SendSessionID := "s1"; SendMessage := m |}.

Definition status_of (s : TaskState) (m : option Message) : TaskStatus :=
  {| State := s; StatusMessage := m; Timestamp := "2025-04-10T12:00:01Z" |}.

(** A store holding task t1, just created. *)
Definition store1 : InMemoryTaskManager :=
  (upsertTask NewInMemoryTaskManager (send m1) "2025-04-10T12:00:00Z").1.

(** The same store after t1 was reported completed. *)
Definition store_completed : InMemoryTaskManager :=
  (updateStore store1 "t1" (status_of TaskCompleted (Some m3)) None).1.

Definition artifact (i : Z) : Artifact :=
  {| Name := None; ArtifactParts := [TextPart "chunk"]; Index := i;
     Append := None; LastChunk := None |}.

End TaskStore.

(** ** Package [server]: the SSE subscriber registry

    [taskSSESubscribers map[string][]chan interface{}] holds Go slices.  A
    slice is a window (pointer, len, cap) on a backing array, and both
    [append] below capacity and the removal idiom
    [append(s[:i], s[i+1:]...)] write into that array in place, so the
    arrays are modelled as a store and slices as headers into it.
    Goroutines (callers of [enqueueEventsForSSE], the goroutine started by
    [dequeueEventsForSSE]) are threads of an interleaving step machine:
    one [action] is one atomic piece of a thread (a critical section under
    [subscriberLock], one loop test, one channel hand-off).  Both kinds
    of channel are unbuffered: a send completes only together with a
    receive, so the goroutine of [dequeueEventsForSSE] stays blocked in
    [responseChan <- ...] until the reader of [responseChan] takes the
    response. *)
Module SSE.
Import Types.

(** [taskUpdateEvent interface{}]: the dynamic types the code tells apart. *)
Inductive Event :=
  | StatusUpdate (e : TaskStatusUpdateEvent)
  | ArtifactUpdate (e : TaskArtifactUpdateEvent)
  | RPCError (e : JSONRPCError).

Record SendTaskStreamingResponse := {
  Result : option Event;
  Error : option JSONRPCError;
  RespID : string
}.

(** A channel value is the identity of the channel [make] created; 0 is
    the nil channel (the zero value of unused array cells). *)
Definition chan := nat.
Definition nil_chan : chan := 0.

Record slice := { arr : nat; len : nat; cap : nat }.

(** The event is a [TaskStatusUpdateEvent] (by type assertion) and its
    [Final] flag is set. *)
Definition is_final (ev : Event) : bool :=
  match ev with
  | StatusUpdate e => Final e
  | _ => false
  end.

(** One pass of the [for] loop of [dequeueEventsForSSE] on a received
    event: the response sent on [responseChan], and whether the loop
    breaks. *)
Definition dequeueEventsForSSE_iteration (requestID : string) (ev : Event)
    : SendTaskStreamingResponse * bool :=
  match ev with
  | RPCError err =>
      ({| Result := None; Error := Some err; RespID := requestID |}, true)
  | _ =>
      ({| Result := Some ev; Error := None; RespID := requestID |}, is_final ev)
  end.

Inductive pub_pc :=
  | PubLock                                   (* before the critical section *)
  | PubRange (subscribers : slice) (i : nat)  (* at the loop test, index i *)
  | PubSend (subscribers : slice) (i : nat) (subscriber : chan)
                                              (* blocked in [subscriber <- ev] *)
  | PubReturned.

(** A call of [enqueueEventsForSSE(taskID, taskUpdateEvent)] in progress. *)
Record publisher := {
  pub_task : string;
  pub_event : Event;
  pub_at : pub_pc
}.

Inductive go_pc :=
  | Receiving      (* blocked in [<-sseEventQueue] *)
  | Sending (resp : SendTaskStreamingResponse) (brk : bool)
                   (* blocked in [responseChan <- resp]; the loop breaks
                      after the send when [brk] is set *)
  | Deferred       (* left the loop, deferred functions not yet run *)
  | Returned.

(** The goroutine of [dequeueEventsForSSE(requestID, taskID, sseEventQueue)];
    [responses] is what the reader of [responseChan] has received from it
    so far and [closed] whether [responseChan] is closed.  Nothing in the
    package closes an event queue, so a receive always yields an event. *)
Record goroutine := {
  g_requestID : string;
  g_taskID : string;
  g_queue : chan;
  g_at : go_pc;
  responses : list SendTaskStreamingResponse;
  closed : bool
}.

Record state := {
  taskSSESubscribers : gmap string slice;
  arrays : gmap nat (list chan);
  next_array : nat;
  next_chan : chan;
  goroutines : list goroutine;
  publishers : list publisher
}.

Definition init : state :=
  {| taskSSESubscribers := ∅; arrays := ∅; next_array := 0; next_chan := 1;
     goroutines := []; publishers := [] |}.

(** What a slice shows: its first [len] cells. *)
Definition view (h : gmap nat (list chan)) (s : slice) : list chan :=
  take (len s) (default [] (h !! arr s)).

(** The subscribers registered for a task, as the registry shows them. *)
Definition subscribers_of (st : state) (taskID : string) : option (list chan) :=
  view (arrays st) <$> taskSSESubscribers st !! taskID.

Section Machine.

(** The capacity [append] picks when it has to reallocate, from the old
    capacity and the length needed.  The language leaves it to the
    runtime; it only has to be large enough. *)
Variable growcap : nat → nat → nat.

(** [append(s, xs...)]: in place when the capacity suffices, else into a
    fresh array. *)
Definition go_append (h : gmap nat (list chan)) (next : nat) (s : slice)
    (xs : list chan) : gmap nat (list chan) * nat * slice :=
  let a := default [] (h !! arr s) in
  let n := len s + length xs in
  if decide (n ≤ cap s) then
    (<[arr s := take (len s) a ++ xs ++ drop n a]> h, next,
     {| arr := arr s; len := n; cap := cap s |})
  else
    let c := growcap (cap s) n in
    (<[next := take (len s) a ++ xs ++ replicate (c - n) nil_chan]> h, S next,
     {| arr := next; len := n; cap := c |}).

(** The nil slice, and [tm.taskSSESubscribers[taskID] = []chan interface{}{}]
    (an empty slice of capacity 0; it gets an array of its own here). *)
Definition nil_slice : slice := {| arr := 0; len := 0; cap := 0 |}.

Definition new_subscriber_list (st : state) (taskID : string) : state :=
  {| taskSSESubscribers :=
       <[taskID := {| arr := next_array st; len := 0; cap := 0 |}]>
         (taskSSESubscribers st);
     arrays := <[next_array st := []]> (arrays st);
     next_array := S (next_array st);
     next_chan := next_chan st;
     goroutines := goroutines st; publishers := publishers st |}.

(** [sseEventQueue := make(chan interface{})] and
    [tm.taskSSESubscribers[taskID] = append(tm.taskSSESubscribers[taskID],
    sseEventQueue)]. *)
Definition append_queue (st : state) (taskID : string) : state * chan :=
  let sseEventQueue := next_chan st in
  let '(h', next', s') :=
    go_append (arrays st) (next_array st)
      (default nil_slice (taskSSESubscribers st !! taskID)) [sseEventQueue] in
  ({| taskSSESubscribers := <[taskID := s']> (taskSSESubscribers st);
      arrays := h'; next_array := next';
      next_chan := S (next_chan st);
      goroutines := goroutines st; publishers := publishers st |},
   sseEventQueue).

(** [setupSSEConsumer], the whole body under [subscriberLock]. *)
Definition setupSSEConsumer (st : state) (taskID : string) (isResubscribe : bool)
    : state * (string + chan) :=
  match taskSSESubscribers st !! taskID with
  | None =>
      if isResubscribe then (st, inl "task not found for resubscription")
      else
        let '(st', sseEventQueue) :=
          append_queue (new_subscriber_list st taskID) taskID in
        (st', inr sseEventQueue)
  | Some _ =>
      let '(st', sseEventQueue) := append_queue st taskID in
      (st', inr sseEventQueue)
  end.

(** The deferred removal of [dequeueEventsForSSE], under [subscriberLock]:
    the first cell equal to the queue is cut out with
    [append(subscribers[:i], subscribers[i+1:]...)]. *)
Definition remove_subscriber (st : state) (taskID : string) (sseEventQueue : chan)
    : gmap string slice * gmap nat (list chan) * nat :=
  match taskSSESubscribers st !! taskID with
  | None => (taskSSESubscribers st, arrays st, next_array st)
  | Some subscribers =>
      match list_find (λ sub, sub = sseEventQueue) (view (arrays st) subscribers) with
      | None => (taskSSESubscribers st, arrays st, next_array st)
      | Some (i, _) =>
          let '(h', next', s') :=
            go_append (arrays st) (next_array st)
              {| arr := arr subscribers; len := i; cap := cap subscribers |}
              (drop (S i) (view (arrays st) subscribers)) in
          (<[taskID := s']> (taskSSESubscribers st), h', next')
      end
  end.

(** The actions of the machine: a call of [setupSSEConsumer]; a call of
    [dequeueEventsForSSE], which starts its goroutine (on a channel that
    exists, nil included); a call of [enqueueEventsForSSE], which starts
    a publisher; one step of a publisher; a hand-off of an event from a
    publisher to a goroutine; the reader of a goroutine's [responseChan]
    (the caller of [dequeueEventsForSSE], or whoever it passes the
    channel to) taking the response the goroutine is blocked sending; the
    deferred functions of a goroutine. *)
Inductive action :=
  | Subscribe (taskID : string) (isResubscribe : bool)
  | Spawn (requestID taskID : string) (sseEventQueue : chan)
  | Publish (taskID : string) (ev : Event)
  | PubStep (p : nat)
  | Handoff (p g : nat)
  | Read (g : nat)
  | RunDeferred (g : nat).

Definition set_publisher (st : state) (p : nat) (pub : publisher) : state :=
  {| taskSSESubscribers := taskSSESubscribers st; arrays := arrays st;
     next_array := next_array st; next_chan := next_chan st;
     goroutines := goroutines st;
     publishers := <[p := pub]> (publishers st) |}.

Definition at_pc (pub : publisher) (pc : pub_pc) : publisher :=
  {| pub_task := pub_task pub; pub_event := pub_event pub; pub_at := pc |}.

(** One atomic piece of [enqueueEventsForSSE]: the critical section that
    copies the slice header out of the map, or one loop test together
    with the read of [subscribers[i]] from the backing array. *)
Definition enqueueEventsForSSE_step (st : state) (p : nat) : option state :=
  pub ← publishers st !! p;
  match pub_at pub with
  | PubLock =>
      match taskSSESubscribers st !! pub_task pub with
      | None => Some (set_publisher st p (at_pc pub PubReturned))
      | Some subscribers =>
          Some (set_publisher st p (at_pc pub (PubRange subscribers 0)))
      end
  | PubRange subscribers i =>
      if decide (i < len subscribers) then
        a ← arrays st !! arr subscribers;
        subscriber ← a !! i;
        Some (set_publisher st p (at_pc pub (PubSend subscribers i subscriber)))
      else Some (set_publisher st p (at_pc pub PubReturned))
  | PubSend _ _ _ => None
  | PubReturned => None
  end.

(** The hand-off on an unbuffered event queue: publisher [p] is blocked
    sending on the queue on which goroutine [g] is blocked receiving.  The
    publisher goes on with its loop; the goroutine builds the response
    and blocks sending it on [responseChan]. *)
Definition handoff (st : state) (p g : nat) : option state :=
  pub ← publishers st !! p;
  gr ← goroutines st !! g;
  match pub_at pub, g_at gr with
  | PubSend subscribers i subscriber, Receiving =>
      if decide (subscriber = g_queue gr ∧ subscriber ≠ nil_chan) then
        let '(resp, brk) := dequeueEventsForSSE_iteration (g_requestID gr) (pub_event pub) in
        let gr' := {| g_requestID := g_requestID gr; g_taskID := g_taskID gr;
                      g_queue := g_queue gr;
                      g_at := Sending resp brk;
                      responses := responses gr;
                      closed := closed gr |} in
        Some {| taskSSESubscribers := taskSSESubscribers st; arrays := arrays st;
                next_array := next_array st; next_chan := next_chan st;
                goroutines := <[g := gr']> (goroutines st);
                publishers :=
                  <[p := at_pc pub (PubRange subscribers (S i))]> (publishers st) |}
      else None
  | _, _ => None
  end.

(** The reader of [responseChan] receives: the send of goroutine [g]
    completes, and the goroutine breaks out of its loop or goes back to
    receiving from its event queue. *)
Definition responseChan_receive (st : state) (g : nat) : option state :=
  gr ← goroutines st !! g;
  match g_at gr with
  | Sending resp brk =>
      let gr' := {| g_requestID := g_requestID gr; g_taskID := g_taskID gr;
                    g_queue := g_queue gr;
                    g_at := if brk then Deferred else Receiving;
                    responses := responses gr ++ [resp];
                    closed := closed gr |} in
      Some {| taskSSESubscribers := taskSSESubscribers st; arrays := arrays st;
              next_array := next_array st; next_chan := next_chan st;
              goroutines := <[g := gr']> (goroutines st);
              publishers := publishers st |}
  | _ => None
  end.

(** The deferred functions of the goroutine, last registered first: the
    removal from the registry, then [close(responseChan)]. *)
Definition dequeueEventsForSSE_deferred (st : state) (g : nat) : option state :=
  gr ← goroutines st !! g;
  match g_at gr with
  | Deferred =>
      let '(reg', h', next') := remove_subscriber st (g_taskID gr) (g_queue gr) in
      let gr' := {| g_requestID := g_requestID gr; g_taskID := g_taskID gr;
                    g_queue := g_queue gr; g_at := Returned;
                    responses := responses gr; closed := true |} in
      Some {| taskSSESubscribers := reg'; arrays := h'; next_array := next';
              next_chan := next_chan st;
              goroutines := <[g := gr']> (goroutines st);
              publishers := publishers st |}
  | _ => None
  end.

Definition step (a : action) (st : state) : option state :=
  match a with
  | Subscribe taskID isResubscribe =>
      Some (setupSSEConsumer st taskID isResubscribe).1
  | Spawn requestID taskID sseEventQueue =>
      if decide (sseEventQueue < next_chan st) then
        Some {| taskSSESubscribers := taskSSESubscribers st; arrays := arrays st;
                next_array := next_array st; next_chan := next_chan st;
                goroutines := goroutines st ++
                  [{| g_requestID := requestID; g_taskID := taskID;
                      g_queue := sseEventQueue; g_at := Receiving;
                      responses := []; closed := false |}];
                publishers := publishers st |}
      else None
  | Publish taskID ev =>
      Some {| taskSSESubscribers := taskSSESubscribers st; arrays := arrays st;
              next_array := next_array st; next_chan := next_chan st;
              goroutines := goroutines st;
              publishers := publishers st ++
                [{| pub_task := taskID; pub_event := ev; pub_at := PubLock |}] |}
  | PubStep p => enqueueEventsForSSE_step st p
  | Handoff p g => handoff st p g
  | Read g => responseChan_receive st g
  | RunDeferred g => dequeueEventsForSSE_deferred st g
  end.

(** A schedule is a list of actions; it runs if each is enabled in turn. *)
Fixpoint run (sched : list action) (st : state) : option state :=
  match sched with
  | [] => Some st
  | a :: sched' => st' ← step a st; run sched' st'
  end.

Definition reachable (st : state) : Prop := ∃ sched, run sched init = Some st.

End Machine.

(** A list of channels without the first occurrence of one of them. *)
Fixpoint remove_first (q : chan) (l : list chan) : list chan :=
  match l with
  | [] => []
  | c :: l' => if decide (c = q) then l' else c :: remove_first q l'
  end.

(** The queue is among the subscribers the registry shows for the task. *)
Definition registered (st : state) (taskID : string) (q : chan) : Prop :=
  ∃ v, subscribers_of st taskID = Some v ∧ q ∈ v.

(** *** A goroutine that has left its loop

    [finished g q taskID rs st]: in [st] goroutine [g], started on queue
    [q] for task [taskID], has left its loop and the reader of its
    [responseChan] has received exactly the responses [rs]; either its
    deferred functions are still to run, or they have run, [responseChan]
    is closed and the registry does not show [q] for the task. *)
Definition finished (g : nat) (q : chan) (taskID : string)
    (rs : list SendTaskStreamingResponse) (st : state) : Prop :=
  ∃ gr, goroutines st !! g = Some gr
    ∧ g_queue gr = q ∧ g_taskID gr = taskID ∧ responses gr = rs
    ∧ (g_at gr = Deferred
       ∨ (g_at gr = Returned ∧ closed gr = true ∧ ¬ registered st taskID q)).

(** *** A goroutine that has received its last event

    [ending g q taskID rs resp st]: goroutine [g] has received an event
    after which its loop breaks.  Either it is blocked sending the
    response [resp], the reader of [responseChan] has received [rs] so
    far and the channel is not closed; or the reader has taken [resp] as
    well and the goroutine has left its loop. *)
Definition blocked_sending (g : nat) (q : chan) (taskID : string)
    (rs : list SendTaskStreamingResponse) (resp : SendTaskStreamingResponse)
    (st : state) : Prop :=
  ∃ gr, goroutines st !! g = Some gr
    ∧ g_queue gr = q ∧ g_taskID gr = taskID
    ∧ g_at gr = Sending resp true ∧ responses gr = rs ∧ closed gr = false.

Definition ending (g : nat) (q : chan) (taskID : string)
    (rs : list SendTaskStreamingResponse) (resp : SendTaskStreamingResponse)
    (st : state) : Prop :=
  blocked_sending g q taskID rs resp st ∨ finished g q taskID (rs ++ [resp]) st.

(** [responseChan] is closed only by the deferred functions. *)
Definition closed_only_returned (st : state) : Prop :=
  ∀ g gr, goroutines st !! g = Some gr → closed gr = true → g_at gr = Returned.

(** What holds of every state the machine reaches: each registered slice
    lies on an allocated array that is long enough for it; slices of
    different tasks lie on different arrays; no channel is registered
    twice for a task; registered channels and the queues of goroutines
    are channels that exist. *)
Record Inv (st : state) : Prop := {
  inv_arr : ∀ task s, taskSSESubscribers st !! task = Some s →
    arr s < next_array st ∧ len s ≤ length (default [] (arrays st !! arr s));
  inv_sep : ∀ t1 t2 s1 s2, t1 ≠ t2 →
    taskSSESubscribers st !! t1 = Some s1 →
    taskSSESubscribers st !! t2 = Some s2 → arr s1 ≠ arr s2;
  inv_view : ∀ task s, taskSSESubscribers st !! task = Some s →
    NoDup (view (arrays st) s)
    ∧ ∀ c, c ∈ view (arrays st) s → c < next_chan st;
  inv_queue : ∀ g gr, goroutines st !! g = Some gr → g_queue gr < next_chan st
}.

(** The growth rule of the gc runtime for capacities below 256 (slices of
    pointer-sized elements): the needed length if it exceeds twice the old
    capacity, else twice the old capacity. *)
Definition growslice (oldcap needed : nat) : nat :=
  if decide (2 * oldcap < needed) then needed else 2 * oldcap.

(** *** Sample data: task t1 with one or three subscribers *)

Definition status_event (s : TaskState) (final : bool) : TaskStatusUpdateEvent :=
  {| EventID := "t1";
     EventStatus := {| State := s; StatusMessage := None;
                       Timestamp := "2025-04-10T12:00:01Z" |};
     Final := final |}.

Definition final_event : Event := StatusUpdate (status_event TaskCompleted true).

Definition response_to (requestID : string) (ev : Event) : SendTaskStreamingResponse :=
  {| Result := Some ev; Error := None; RespID := requestID |}.

(** One subscriber; the publisher of the final event has read its queue
    from the array and is about to hand the event over. *)
Definition one_subscriber_schedule : list action :=
  [Subscribe "t1" false; Spawn "r1" "t1" 1;
   Publish "t1" final_event; PubStep 0; PubStep 0].

Definition sending_publisher : publisher :=
  {| pub_task := "t1"; pub_event := final_event;
     pub_at := PubSend {| arr := 1; len := 1; cap := 1 |} 0 1 |}.

Definition receiving_goroutine : goroutine :=
  {| g_requestID := "r1"; g_taskID := "t1"; g_queue := 1; g_at := Receiving;
     responses := []; closed := false |}.

Definition one_subscriber_state : state :=
  {| taskSSESubscribers := {[ "t1" := {| arr := 1; len := 1; cap := 1 |} ]};
     arrays := {[ 0 := []; 1 := [1] ]};
     next_array := 2; next_chan := 2;
     goroutines := [receiving_goroutine];
     publishers := [sending_publisher] |}.

(** Three subscribers (channels 1, 2, 3; goroutines 0, 1, 2) and one
    publisher of the final event, which has taken its copy of the slice
    header and handed the event to the first subscriber, whose reader
    has taken the response. *)
Definition three_subscribers_first_served : list action :=
  [Subscribe "t1" false; Spawn "r1" "t1" 1;
   Subscribe "t1" false; Spawn "r2" "t1" 2;
   Subscribe "t1" false; Spawn "r3" "t1" 3;
   Publish "t1" final_event; PubStep 0; PubStep 0; Handoff 0 0; Read 0].

(** The publisher goes on before any goroutine runs its deferred
    functions. *)
Definition quiet_schedule : list action :=
  three_subscribers_first_served ++
  [PubStep 0; Handoff 0 1; Read 1; PubStep 0; Handoff 0 2; Read 2; PubStep 0;
   RunDeferred 0; RunDeferred 1; RunDeferred 2].

(** The first goroutine runs its deferred removal before the publisher
    reads the second cell. *)
Definition racy_schedule : list action :=
  three_subscribers_first_served ++
  [RunDeferred 0; PubStep 0; Handoff 0 2; Read 2; RunDeferred 2; PubStep 0].

End SSE.

(** ** Packages [utils] and [cli]: push-notification authentication *)
Module PushAuth.

Local Open Scope Z_scope.

Definition error := string.

(** A call either returns or panics (a failed type assertion, a nil
    pointer dereference). *)
Inductive outcome (A : Type) :=
  | Return (a : A)
  | Panic.
Arguments Return {A} a.
Arguments Panic {A}.

(** A float64: the number [m * 2 ^ e], an infinity, or a NaN. *)
Inductive float64 :=
  | Finite (m e : Z)
  | Infinity (negative : bool)
  | NaN.

#[global] Instance float64_eq_dec : EqDecision float64.
Proof. solve_decision. Defined.

(** The float64 nearest to an integer, ties to the even significand: what
    encoding/json stores when it reads an integer literal into an
    [interface{}].  Integers below 2^53 in magnitude are kept as they
    are. *)
Definition nearest_float64 (z : Z) : float64 :=
  let k := Z.log2 (Z.abs z) - 52 in
  if k <=? 0 then Finite z 0
  else
    let q := Z.abs z / 2 ^ k in
    let r := Z.abs z mod 2 ^ k in
    let half := 2 ^ (k - 1) in
    let m := if r <? half then q
             else if half <? r then q + 1
             else if Z.even q then q else q + 1 in
    Finite (Z.sgn z * m) k.

Definition in_int64 (z : Z) : bool := (- 2 ^ 63 <=? z) && (z <? 2 ^ 63).

(** int64 arithmetic wraps around. *)
Definition wrap64 (z : Z) : Z := (z + 2 ^ 63) mod 2 ^ 64 - 2 ^ 63.

(** The conversion [int64(f)] where the language defines it: the fraction
    is discarded (truncation towards zero) and the result has to fit. *)
Definition float64_int64 (f : float64) : option Z :=
  match f with
  | Finite m e =>
      let z := if 0 <=? e then m * 2 ^ e else Z.quot m (2 ^ (- e)) in
      if in_int64 z then Some z else None
  | _ => None
  end.

(** The values of a [jwt.MapClaims] as the code writes and reads them: an
    int64 (what [GenerateJWT] stores), a float64 (what a JSON number is
    after parsing), a string, or anything else. *)
Inductive claim :=
  | CInt (z : Z)
  | CNumber (f : float64)
  | CString (s : string)
  | COther.

#[global] Instance claim_eq_dec : EqDecision claim.
Proof. solve_decision. Defined.

(** A claim after the token has been written and parsed again: the JSON
    text of an int64 is read back as the nearest float64. *)
Definition as_parsed (c : claim) : claim :=
  match c with
  | CInt z => CNumber (nearest_float64 z)
  | _ => c
  end.

(** [token.Method], as the key function inspects it. *)
Inductive SigningMethod :=
  | SigningMethodRSA (alg : string)
  | SigningMethodOther (alg : string).

Definition SigningMethodRS256 : SigningMethod := SigningMethodRSA "RS256".

(** The external libraries the code calls: encoding/json on
    [map[string]interface{}] ([json_unmarshal] is [json.Unmarshal] into a
    nil map, [json_decode] is [Decoder.Decode] into a nil map, each with
    the map it leaves), crypto/sha256 with the [%x] formatting,
    golang-jwt's [SignedString] and [Parse], and net/url as
    [http.NewRequest] uses it ([url_parse_error] is the error of
    [url.Parse], if any).  [jwt_parse keyfunc now s] is
    [jwt.Parse(s, keyfunc)] at time [now]: it returns an error exactly
    when the token it returns is not [Valid].  [unrepresentable] is the
    platform's part: the int64 that [int64(f)] yields for a float64
    outside the int64 range, which the language leaves to the
    implementation. *)
Class Lib := {
  Payload : Type;
  nil_map : Payload;
  json_encode : Payload → error + string;
  json_marshal : Payload → error + string;
  json_unmarshal : string → error + Payload;
  json_decode : string → error + Payload;
  sha256_hex : string → string;
  PrivateKey : Type;
  PublicKey : Type;
  public_of : PrivateKey → PublicKey;
  jwt_signed_string :
    SigningMethod → gmap string string → gmap string claim → PrivateKey → error + string;
  jwt_parse :
    (SigningMethod → error + PublicKey) → Z → string → error + gmap string claim;
  url_parse_error : string → option error;
  unrepresentable : float64 → Z
}.

(** Strings of ASCII characters: JSON writes and reads them back as
    they are. *)
Definition ascii_only (s : string) : bool :=
  forallb (λ c, Nat.ltb (Ascii.nat_of_ascii c) 128) (String.list_ascii_of_string s).

(** A claim whose name and value the token carries unchanged, up to
    [as_parsed]: an int64 or an ASCII string under an ASCII name. *)
Definition carried (name : string) (c : claim) : Prop :=
  ascii_only name = true
  ∧ match c with
    | CInt _ => True
    | CString s => ascii_only s = true
    | _ => False
    end.

(** What is assumed of the libraries: a token signed with RS256, whose
    claims are int64s and ASCII strings and include neither [exp] nor
    [nbf], parses, under a key function that hands out the matching
    public key, to the claims that were signed, as JSON reads them; and
    a digest is written in hexadecimal digits. *)
Class LibLaws (L : Lib) : Prop := {
  jwt_roundtrip : ∀ header claims sk tok keyfunc now,
    jwt_signed_string SigningMethodRS256 header claims sk = inr tok →
    keyfunc SigningMethodRS256 = inr (public_of sk) →
    claims !! "exp" = None → claims !! "nbf" = None →
    map_Forall carried claims →
    jwt_parse keyfunc now tok = inr (as_parsed <$> claims);
  sha256_hex_ascii : ∀ b, ascii_only (sha256_hex b) = true
}.

(** [strings.HasPrefix] and [strings.TrimPrefix]. *)
Fixpoint strip_prefix (s prefix : string) {struct prefix} : option string :=
  match prefix, s with
  | EmptyString, _ => Some s
  | String a prefix', String b s' =>
      if Ascii.eqb a b then strip_prefix s' prefix' else None
  | String _ _, EmptyString => None
  end.

Definition HasPrefix (s prefix : string) : bool :=
  match strip_prefix s prefix with Some _ => true | None => false end.

Definition TrimPrefix (s prefix : string) : string :=
  match strip_prefix s prefix with Some rest => rest | None => s end.

Definition AuthHeaderPrefix : string := "Bearer ".

(** An HTTP request as the handlers read it; [Header] maps canonical
    header names to their first value, and [HeaderGet] is [Header.Get]. *)
Record Request := {
  Method : string;
  URL : string;
  Header : gmap string string;
  Body : string
}.

Definition HeaderGet (h : gmap string string) (key : string) : string :=
  default EmptyString (h !! key).

(** What a handler wrote to its [http.ResponseWriter]. *)
Record Response := {
  StatusCode : Z;
  RespHeader : gmap string string;
  RespBody : string
}.

Definition StatusOK : Z := 200.
Definition StatusBadRequest : Z := 400.
Definition StatusUnauthorized : Z := 401.
Definition StatusMethodNotAllowed : Z := 405.

Definition newline : string := String (Ascii.ascii_of_nat 10) EmptyString.

(** [http.Error(w, msg, code)]. *)
Definition http_Error (msg : string) (code : Z) : Response :=
  {| StatusCode := code;
     RespHeader := {[ "Content-Type" := "text/plain; charset=utf-8";
                      "X-Content-Type-Options" := "nosniff" ]};
     RespBody := (msg ++ newline)%string |}.

(** *** Package time

    An instant of the wall clock is given by its nanoseconds since the
    Unix epoch.  A [Time] without monotonic reading holds int64 seconds
    since January 1 of year 1 and the nanoseconds within the second; a
    [Duration] is an int64 of nanoseconds. *)
Definition Second : Z := 1000000000.
Definition Minute : Z := 60 * Second.
Definition maxDuration : Z := 2 ^ 63 - 1.
Definition minDuration : Z := - 2 ^ 63.
Definition unixToInternal : Z := 62135596800.

Record Time := { sec : Z; nsec : Z }.

(** [time.Now()] at instant [now], as far as its wall-clock reading
    goes, and [Time.Unix()] of it. *)
Definition time_Now (now : Z) : Time :=
  {| sec := wrap64 (now / Second + unixToInternal); nsec := now mod Second |}.

Definition Unix (now : Z) : Z := now / Second.

(** [time.Unix(sec, 0)]: the sum is an int64 sum. *)
Definition time_Unix (s : Z) : Time :=
  {| sec := wrap64 (s + unixToInternal); nsec := 0 |}.

(** [Time.addSec] on a time without monotonic reading. *)
Definition addSec (ext d : Z) : Z :=
  let sum := wrap64 (ext + d) in
  if Bool.eqb (ext <? sum) (0 <? d) then sum
  else if 0 <? d then 2 ^ 63 - 1
  else - (2 ^ 63 - 1).

(** [Time.Add]; the division and the remainder of Go truncate. *)
Definition Add (t : Time) (d : Z) : Time :=
  let dsec := Z.quot d Second in
  let n := nsec t + Z.rem d Second in
  if Second <=? n then {| sec := addSec (sec t) (dsec + 1); nsec := n - Second |}
  else if n <? 0 then {| sec := addSec (sec t) (dsec - 1); nsec := n + Second |}
  else {| sec := addSec (sec t) dsec; nsec := n |}.

Definition Equal (t u : Time) : bool := (sec t =? sec u) && (nsec t =? nsec u).

Definition Before (t u : Time) : bool :=
  (sec t <? sec u) || ((sec t =? sec u) && (nsec t <? nsec u)).

(** [Time.Sub] when not both times carry a monotonic reading: the
    difference in int64 arithmetic, checked by adding it back, and the
    largest or smallest [Duration] when it does not fit. *)
Definition Sub (t u : Time) : Z :=
  let d := wrap64 (wrap64 (wrap64 (sec t - sec u) * Second) + (nsec t - nsec u)) in
  if Equal (Add u d) t then d
  else if Before t u then minDuration
  else maxDuration.

(** [Since now s] is [time.Since(time.Unix(s, 0))] at instant [now]. *)
Definition Since (now s : Z) : Z := Sub (time_Now now) (time_Unix s).

(** The instants [Time.UnixNano] can return, between the years 1678 and
    2262: the readings of the wall clock that the properties below are
    about. *)
Definition wall_clock (now : Z) : Prop := - 2 ^ 63 ≤ now < 2 ^ 63.

Section WithLib.
Context {L : Lib}.

(** [PushNotificationAuth.calculateRequestBodySHA256]. *)
Definition calculateRequestBodySHA256 (data : Payload) : string * option error :=
  match json_encode data with
  | inl err => (EmptyString, Some err)
  | inr buf => (sha256_hex buf, None)
  end.

(** A sender after [GenerateRSAKey], a receiver after [LoadJWKS]. *)
Record PushNotificationSenderAuth := { privateKey : PrivateKey }.
Record PushNotificationReceiverAuth := { publicKey : PublicKey }.

(** [GenerateJWT] at instant [now]. *)
Definition GenerateJWT (s : PushNotificationSenderAuth) (now : Z) (data : Payload)
    : error + string :=
  match calculateRequestBodySHA256 data with
  | (_, Some err) => inl err
  | (shaDigest, None) =>
      let claims : gmap string claim :=
        {[ "iat" := CInt (Unix now);
           "request_body_sha256" := CString shaDigest ]} in
      jwt_signed_string SigningMethodRS256 {[ "kid" := "example-kid" ]} claims
        (privateKey s)
  end.

(** [SendPushNotification] up to the request it hands to the HTTP
    client: the error of [GenerateJWT], or the request.  The error of
    [json.Marshal] is dropped (the body is then empty), and so is the
    error of [http.NewRequest]: when the URL does not parse, [req] is nil
    and [req.Header.Set] panics. *)
Definition SendPushNotification_request (s : PushNotificationSenderAuth) (now : Z) (url : string)
    (data : Payload) : outcome (error + Request) :=
  match GenerateJWT s now data with
  | inl err => Return (inl err)
  | inr token =>
      let body := match json_marshal data with inr b => b | inl _ => EmptyString end in
      match url_parse_error url with
      | Some _ => Panic
      | None =>
          Return (inr {| Method := "POST"; URL := url;
                         Header := {[ "Authorization" := ("Bearer " ++ token)%string;
                                      "Content-Type" := "application/json" ]};
                         Body := body |})
      end
  end.

(** The key function both verifiers pass to [jwt.Parse]. *)
Definition keyfunc (r : PushNotificationReceiverAuth) (m : SigningMethod)
    : error + PublicKey :=
  match m with
  | SigningMethodRSA _ => inr (publicKey r)
  | SigningMethodOther _ => inl "unexpected signing method"
  end.

(** [int64(f)]. *)
Definition int64_of_float64 (f : float64) : Z :=
  match float64_int64 f with
  | Some z => z
  | None => wrap64 (unrepresentable f)
  end.

(** [time.Since(time.Unix(int64(claims["iat"].(float64)), 0)) > 5*time.Minute];
    the type assertion panics unless the claim is a float64. *)
Definition iat_expired (claims : gmap string claim) (now : Z) : outcome bool :=
  match claims !! "iat" with
  | Some (CNumber iat) => Return (5 * Minute <? Since now (int64_of_float64 iat))
  | _ => Panic
  end.

(** The payload is unchanged, as far as its encoding goes, by a trip
    through [json.Marshal] and [json.Unmarshal]: the map the receiver
    rebuilds from the body encodes as the payload does. *)
Definition survives_json (data : Payload) : Prop :=
  ∀ body, json_marshal data = inr body →
    ∃ data', json_unmarshal body = inr data' ∧ json_encode data' = json_encode data.

(** [json.Unmarshal(bodyBytes, &requestBody)] with its error dropped: on
    an error the map stays nil. *)
Definition unmarshal_body (bodyBytes : string) : Payload :=
  match json_unmarshal bodyBytes with
  | inr requestBody => requestBody
  | inl _ => nil_map
  end.

(** [VerifyPushNotification] at instant [now]. *)
Definition VerifyPushNotification (r : PushNotificationReceiverAuth) (now : Z)
    (req : Request) : outcome (bool * option error) :=
  let authHeader := HeaderGet (Header req) "Authorization" in
  if negb (HasPrefix authHeader AuthHeaderPrefix) then
    Return (false, Some "invalid auth header")
  else
    let tokenStr := TrimPrefix authHeader AuthHeaderPrefix in
    match jwt_parse (keyfunc r) now tokenStr with
    | inl err => Return (false, Some err)
    | inr claims =>
        match iat_expired claims now with
        | Panic => Panic
        | Return true => Return (false, Some "token expired")
        | Return false =>
            let requestBody := unmarshal_body (Body req) in
            let actualDigest := (calculateRequestBodySHA256 requestBody).1 in
            if decide (claims !! "request_body_sha256" = Some (CString actualDigest))
            then Return (true, None)
            else Return (false, Some "digest mismatch")
        end
    end.

(** [VerifyToken] at instant [now]. *)
Definition VerifyToken (r : PushNotificationReceiverAuth) (now : Z)
    (tokenStr : string) : outcome (option error) :=
  match jwt_parse (keyfunc r) now tokenStr with
  | inl err => Return (Some err)
  | inr claims =>
      match iat_expired claims now with
      | Panic => Panic
      | Return true => Return (Some "token expired")
      | Return false => Return None
      end
  end.

(** [PushNotificationListener.handleNotification]. *)
Definition handleNotification (auth : PushNotificationReceiverAuth) (now : Z)
    (r : Request) : outcome Response :=
  if negb (String.eqb (Method r) "POST") then
    Return (http_Error "Method not allowed" StatusMethodNotAllowed)
  else
    let authHeader := HeaderGet (Header r) "Authorization" in
    if negb (HasPrefix authHeader "Bearer ") then
      Return (http_Error "Invalid authorization header" StatusUnauthorized)
    else
      let token := TrimPrefix authHeader "Bearer " in
      match VerifyToken auth now token with
      | Panic => Panic
      | Return (Some err) =>
          Return (http_Error ("Invalid token: " ++ err) StatusUnauthorized)
      | Return None =>
          match json_decode (Body r) with
          | inl err =>
              Return (http_Error ("Error decoding notification: " ++ err)
                        StatusBadRequest)
          | inr notification =>
              Return {| StatusCode := StatusOK; RespHeader := ∅; RespBody := EmptyString |}
          end
      end.

End WithLib.

(** [PushNotificationListener.handleValidationCheck]. *)
Definition handleValidationCheck (r : Request) : Response :=
  if negb (String.eqb (Method r) "GET") then
    http_Error "Method not allowed" StatusMethodNotAllowed
  else
    let token := HeaderGet (Header r) "Validation-Token" in
    if String.eqb token EmptyString then
      http_Error "Validation token not found" StatusBadRequest
    else
      {| StatusCode := StatusOK;
         RespHeader := {[ "Content-Type" := "text/plain" ]};
         RespBody := token |}.

(** [VerifyPushNotificationURL]: [validationToken] is the value
    [uuid.NewString()] returned, [http_Get] the network ([http.Get] of a
    URL: a transport error, or the response with its body read by
    [io.ReadAll]). *)
Definition VerifyPushNotificationURL (http_Get : string → error + Response)
    (url validationToken : string) : bool :=
  match http_Get (url ++ "?validationToken=" ++ validationToken)%string with
  | inl err => false
  | inr resp => String.eqb (RespBody resp) validationToken
  end.

(** The request [http.Get(target)] puts on the wire: a GET of the target
    URL with the client's default headers and no body. *)
Definition get_request (target : string) : Request :=
  {| Method := "GET"; URL := target;
     Header := {[ "User-Agent" := "Go-http-client/1.1";
                  "Accept-Encoding" := "gzip" ]};
     Body := EmptyString |}.

(** [http.Get] of a URL that the listener's mux routes to
    [handleValidationCheck]. *)
Definition listener_Get (target : string) : error + Response :=
  inr (handleValidationCheck (get_request target)).

End PushAuth.

(** ** A small instance of the library interface

    Enough of the libraries to run the code on concrete requests.

    JSON: a map is nil or a list of members with increasing keys, whose
    values are int64s (as a program stores them), float64s (as the
    decoder stores every number) or strings.  The encoder writes what
    encoding/json writes for such a map (keys in order, an int64 in
    decimal, an integral float64 of magnitude at most 2^53 in decimal);
    the decoder reads the texts of that shape, with integer literals for
    numbers, into float64s.  Strings are printable ASCII without the
    characters JSON or the encoder escape.  Whatever lies outside this
    fragment is answered with an error.

    The digest is a collision-free stand-in, the text itself written in
    hexadecimal.  One key pair exists, and the tokens are those of a
    table. *)
Module Scenario.
Import PushAuth.

Inductive value :=
  | VInt (z : Z)
  | VNumber (f : float64)
  | VString (s : string).

Definition object := list (string * value).

Definition quote : string := String (Ascii.ascii_of_nat 34) EmptyString.

(** Printable ASCII except the double quote, the backslash and the three
    characters the encoder escapes for HTML. *)
Definition plain_char (c : Ascii.ascii) : bool :=
  let n := Ascii.nat_of_ascii c in
  (32 <=? n) && (n <=? 126)
  && negb (n =? 34) && negb (n =? 92)
  && negb (n =? 60) && negb (n =? 62) && negb (n =? 38).

Fixpoint plain (s : string) : bool :=
  match s with
  | EmptyString => true
  | String c s' => plain_char c && plain s'
  end.

Definition encode_string (s : string) : option string :=
  if plain s then Some (quote ++ s ++ quote)%string else None.

Definition encode_value (v : value) : option string :=
  match v with
  | VInt z => Some (pretty z)
  | VNumber (Finite m e) =>
      if ((0 <=? e) && (Z.abs (m * 2 ^ e) <=? 2 ^ 53))%Z
      then Some (pretty (m * 2 ^ e)%Z) else None
  | VNumber _ => None
  | VString s => encode_string s
  end.

Fixpoint encode_members (o : object) : option string :=
  match o with
  | [] => Some EmptyString
  | (k, v) :: o' =>
      k' ← encode_string k;
      v' ← encode_value v;
      rest ← encode_members o';
      Some (k' ++ ":" ++ v' ++ (if o' is [] then EmptyString else ",") ++ rest)%string
  end.

Fixpoint increasing (o : object) : bool :=
  match o with
  | (k1, _) :: (((k2, _) :: _) as o') => String.ltb k1 k2 && increasing o'
  | _ => true
  end.

(** [json.Marshal] of the map. *)
Definition marshal (data : option object) : error + string :=
  match data with
  | None => inr "null"
  | Some o =>
      if increasing o then
        match encode_members o with
        | Some members => inr ("{" ++ members ++ "}")%string
        | None => inl "json: unsupported value"
        end
      else inl "json: unsupported value"
  end.

(** [json.NewEncoder(buf).Encode], which ends the text with a newline. *)
Definition encode (data : option object) : error + string :=
  match marshal data with
  | inr text => inr (text ++ newline)%string
  | inl err => inl err
  end.

Definition is_digit (c : Ascii.ascii) : bool :=
  let n := Ascii.nat_of_ascii c in (48 <=? n) && (n <=? 57).

Definition digit (c : Ascii.ascii) : Z := Z.of_nat (Ascii.nat_of_ascii c - 48).

Fixpoint read_digits (s : string) (acc : Z) : Z * string :=
  match s with
  | String c s' => if is_digit c then read_digits s' (10 * acc + digit c)%Z else (acc, s)
  | EmptyString => (acc, s)
  end.

(** An integer literal: a digit that is not zero followed by digits, or
    a single zero, with an optional minus sign before a literal that is
    not zero. *)
Definition read_natural (s : string) : option (Z * string) :=
  match s with
  | String c s' =>
      if is_digit c then
        if Ascii.nat_of_ascii c =? 48 then
          match s' with
          | String c' _ => if is_digit c' then None else Some (0%Z, s')
          | EmptyString => Some (0%Z, s')
          end
        else Some (read_digits s 0)
      else None
  | EmptyString => None
  end.

Definition read_integer (s : string) : option (Z * string) :=
  match s with
  | String c s' =>
      if Ascii.nat_of_ascii c =? 45 then
        match read_natural s' with
        | Some (z, rest) => if (z =? 0)%Z then None else Some ((- z)%Z, rest)
        | None => None
        end
      else read_natural s
  | EmptyString => None
  end.

(** The characters of a string up to its closing quote. *)
Fixpoint read_string (s : string) : option (string * string) :=
  match s with
  | String c s' =>
      if Ascii.nat_of_ascii c =? 34 then Some (EmptyString, s')
      else if plain_char c then
        match read_string s' with
        | Some (t, rest) => Some (String c t, rest)
        | None => None
        end
      else None
  | EmptyString => None
  end.

Definition read_value (s : string) : option (value * string) :=
  match s with
  | String c s' =>
      if Ascii.nat_of_ascii c =? 34 then
        match read_string s' with
        | Some (t, rest) => Some (VString t, rest)
        | None => None
        end
      else
        match read_integer s with
        | Some (z, rest) => Some (VNumber (nearest_float64 z), rest)
        | None => None
        end
  | EmptyString => None
  end.

(** The members of an object after its opening brace, up to and
    including the closing brace. *)
Fixpoint read_members (fuel : nat) (s : string) : option (object * string) :=
  match fuel, s with
  | S fuel', String c s' =>
      if Ascii.nat_of_ascii c =? 34 then
        match read_string s' with
        | Some (k, String c1 s1) =>
            if Ascii.nat_of_ascii c1 =? 58 then
              match read_value s1 with
              | Some (v, String c2 s2) =>
                  if Ascii.nat_of_ascii c2 =? 125 then Some ([(k, v)], s2)
                  else if Ascii.nat_of_ascii c2 =? 44 then
                    match read_members fuel' s2 with
                    | Some (o, rest) => Some ((k, v) :: o, rest)
                    | None => None
                    end
                  else None
              | _ => None
              end
            else None
        | _ => None
        end
      else None
  | _, _ => None
  end.

(** An array of integer literals after its opening bracket. *)
Fixpoint read_integers (fuel : nat) (s : string) : bool :=
  match fuel with
  | S fuel' =>
      match read_integer s with
      | Some (_, String c rest) =>
          if Ascii.nat_of_ascii c =? 93 then String.eqb rest EmptyString
          else if Ascii.nat_of_ascii c =? 44 then read_integers fuel' rest
          else false
      | _ => false
      end
  | O => false
  end.

(** [json.Unmarshal] into a nil [map[string]interface{}]: the error, or
    the map.  A value of another kind (here an integer or an array of
    integers) is a type error; [null] leaves the map nil. *)
Definition unmarshal (b : string) : error + option object :=
  if String.eqb b "null" then inr None
  else if String.eqb b "{}" then inr (Some [])
  else
    match b with
    | EmptyString => inl "unexpected end of JSON input"
    | String c b' =>
        if Ascii.nat_of_ascii c =? 123 then
          match read_members (String.length b') b' with
          | Some (o, EmptyString) =>
              if increasing o then inr (Some o)
              else inl "unsupported order of keys"
          | _ => inl "invalid character"
          end
        else if Ascii.nat_of_ascii c =? 91 then
          if read_integers (String.length b') b' then
            inl "json: cannot unmarshal array into Go value of type map[string]interface {}"
          else inl "invalid character"
        else
          match read_integer b with
          | Some (_, EmptyString) =>
              inl "json: cannot unmarshal number into Go value of type map[string]interface {}"
          | _ => inl "invalid character"
          end
    end.

(** [Decoder.Decode] on a body that holds one value: as [Unmarshal],
    except that the empty body is [EOF]. *)
Definition decode (b : string) : error + option object :=
  if String.eqb b EmptyString then inl "EOF" else unmarshal b.

(** [url.Parse] as far as this instance knows it: a control character
    anywhere, or a colon at the start, is an error. *)
Fixpoint has_control (s : string) : bool :=
  match s with
  | EmptyString => false
  | String c s' =>
      let n := Ascii.nat_of_ascii c in (n <? 32) || (n =? 127) || has_control s'
  end.

Definition parse_error (url : string) : option error :=
  if has_control url then Some "net/url: invalid control character in URL"
  else if HasPrefix url ":" then Some "missing protocol scheme"
  else None.

(** The stand-in for the digest: two hexadecimal digits per byte. *)
Definition hex_digit (n : nat) : Ascii.ascii :=
  Ascii.ascii_of_nat (if n <? 10 then 48 + n else 87 + n).

Fixpoint hex (s : string) : string :=
  match s with
  | EmptyString => EmptyString
  | String c s' =>
      let n := Ascii.nat_of_ascii c in
      String (hex_digit (n / 16)) (String (hex_digit (n mod 16)) (hex s'))
  end.

(** *** Payloads and bodies *)

Definition empty_payload : option object := Some [].
Definition other_payload : option object := Some [("a", VInt 1)].

(** An int64 that is not a float64. *)
Definition large_payload : option object := Some [("n", VInt 9007199254740993)].

Definition empty_object : string := "{}".
Definition other_object : string := ("{" ++ quote ++ "a" ++ quote ++ ":1}")%string.
Definition large_object : string :=
  ("{" ++ quote ++ "n" ++ quote ++ ":9007199254740993}")%string.

(** *** Tokens *)

Definition issued_token : string := "header.claims.signature".
Definition large_token : string := "header.large.signature".

(** What [GenerateJWT] signs in second 1700000000 for a payload with the
    given digest. *)
Definition claims_for (digest : string) : gmap string claim :=
  {[ "iat" := CInt 1700000000;
     "request_body_sha256" := CString digest ]}.

Definition issued_claims : gmap string claim :=
  claims_for (hex (empty_object ++ newline)).

Definition large_claims : gmap string claim :=
  claims_for (hex (large_object ++ newline)).

(** The claims of the issued token as a receiver reads them. *)
Definition parsed_claims : gmap string claim := as_parsed <$> issued_claims.

#[global] Instance SigningMethod_eq_dec : EqDecision SigningMethod.
Proof. solve_decision. Defined.

Definition verify_with (keyfunc : SigningMethod → error + nat)
    (claims : gmap string claim) : error + gmap string claim :=
  match keyfunc SigningMethodRS256 with
  | inl err => inl err
  | inr pk => if decide (pk = 1%nat) then inr (as_parsed <$> claims)
              else inl "crypto/rsa: verification error"
  end.

#[global] Instance lib : Lib := {|
  Payload := option object;
  nil_map := None;
  json_encode := encode;
  json_marshal := marshal;
  json_unmarshal := unmarshal;
  json_decode := decode;
  sha256_hex := hex;
  PrivateKey := nat;
  PublicKey := nat;
  public_of := λ sk, sk;
  jwt_signed_string := λ m header claims sk,
    if decide (m = SigningMethodRS256 ∧ sk = 1%nat) then
      if decide (claims = issued_claims) then inr issued_token
      else if decide (claims = large_claims) then inr large_token
      else inl "unsupported"
    else inl "unsupported";
  jwt_parse := λ keyfunc now tok,
    if String.eqb tok issued_token then verify_with keyfunc issued_claims
    else if String.eqb tok large_token then verify_with keyfunc large_claims
    else inl "token is malformed";
  url_parse_error := parse_error;
  unrepresentable := λ f, (- 2 ^ 63)%Z
|}.

Definition sender : PushNotificationSenderAuth := {| privateKey := 1%nat |}.
Definition receiver : PushNotificationReceiverAuth := {| publicKey := 1%nat |}.

(** Signing happens 5 ns into second 1700000000. *)
Definition t_sign : Z := 1700000000 * Second + 5.

Definition request_with (token body : string) : Request :=
  {| Method := "POST"; URL := "/notify";
     Header := {[ "Authorization" := ("Bearer " ++ token)%string ]};
     Body := body |}.

Definition bearer_request (body : string) : Request :=
  request_with issued_token body.

End Scenario.

(** ** Package [server]: the task manager with its push-notification table

    [InMemoryTaskManager] also holds [pushNotificationInfos
    map[string]*types.PushNotificationConfig], guarded by the same lock as
    the task map.  The table stores pointers, so a stored value may be nil
    (None). *)
Module Manager.
Import Types TaskStore.

Record AuthenticationInfo := {
  Schemes : list string;
  Credentials : option string
}.

Record PushNotificationConfig := {
  PushURL : string;
  PushToken : option string;
  Authentication : option AuthenticationInfo
}.

Record TaskPushNotificationConfig := {
  ConfigID : string;
  Config : PushNotificationConfig
}.

Record SetTaskPushNotificationResponse :=
  { SetResult : option TaskPushNotificationConfig }.
Record GetTaskPushNotificationResponse :=
  { GetPushResult : option TaskPushNotificationConfig }.

Record manager := {
  tm : InMemoryTaskManager;
  pushNotificationInfos : gmap string (option PushNotificationConfig)
}.

Definition NewManager : manager :=
  {| tm := NewInMemoryTaskManager; pushNotificationInfos := ∅ |}.

(** [setPushNotificationInfo]. *)
Definition setPushNotificationInfo (m : manager) (taskID : string)
    (notificationConfig : option PushNotificationConfig)
    : manager * option error :=
  match tasks (tm m) !! taskID with
  | None => (m, Some "task not found")
  | Some _ =>
      ({| tm := tm m;
          pushNotificationInfos :=
            <[taskID := notificationConfig]> (pushNotificationInfos m) |},
       None)
  end.

(** [getPushNotificationInfo]: a missing key reads as the nil pointer. *)
Definition getPushNotificationInfo (m : manager) (taskID : string)
    : option PushNotificationConfig * option error :=
  match tasks (tm m) !! taskID with
  | None => (None, Some "task not found")
  | Some _ => (default None (pushNotificationInfos m !! taskID), None)
  end.

(** [hasPushNotificationInfo]. *)
Definition hasPushNotificationInfo (m : manager) (taskID : string) : bool :=
  match pushNotificationInfos m !! taskID with
  | Some _ => true
  | None => false
  end.

(** [OnSetTaskPushNotification], on the parameters the request carries. *)
Definition OnSetTaskPushNotification (m : manager)
    (taskNotificationParams : TaskPushNotificationConfig)
    : manager * SetTaskPushNotificationResponse :=
  match setPushNotificationInfo m (ConfigID taskNotificationParams)
          (Some (Config taskNotificationParams)) with
  | (m', Some err) => (m', {| SetResult := None |})
  | (m', None) => (m', {| SetResult := Some taskNotificationParams |})
  end.

(** [OnGetTaskPushNotification]: [*notificationInfo] dereferences the
    pointer the table returned, which panics when it is nil. *)
Definition OnGetTaskPushNotification (m : manager) (taskID : string)
    : PushAuth.outcome GetTaskPushNotificationResponse :=
  match getPushNotificationInfo m taskID with
  | (_, Some err) => PushAuth.Return {| GetPushResult := None |}
  | (None, None) => PushAuth.Panic
  | (Some notificationInfo, None) =>
      PushAuth.Return
        {| GetPushResult :=
             Some {| ConfigID := taskID; Config := notificationInfo |} |}
  end.

(** The calls that reach the manager's tables, and the manager after
    each (a panic leaves the tables as they were). *)
Inductive call :=
  | CallUpsertTask (p : TaskSendParams) (now : string)
  | CallUpdateStore (taskID : string) (status : TaskStatus)
      (artifacts : option (list Artifact))
  | CallOnGetTask (q : TaskQueryParams)
  | CallOnCancelTask (taskID : string)
  | CallSetPushNotificationInfo (taskID : string)
      (notificationConfig : option PushNotificationConfig)
  | CallOnSetTaskPushNotification (p : TaskPushNotificationConfig)
  | CallOnGetTaskPushNotification (taskID : string).

Definition with_tm (m : manager) (tm' : InMemoryTaskManager) : manager :=
  {| tm := tm'; pushNotificationInfos := pushNotificationInfos m |}.

Definition after (m : manager) (c : call) : manager :=
  match c with
  | CallUpsertTask p now => with_tm m (upsertTask (tm m) p now).1
  | CallUpdateStore taskID status artifacts =>
      with_tm m (updateStore (tm m) taskID status artifacts).1
  | CallOnGetTask q => with_tm m (OnGetTask (tm m) q).1
  | CallOnCancelTask taskID => with_tm m (OnCancelTask (tm m) taskID).1
  | CallSetPushNotificationInfo taskID notificationConfig =>
      (setPushNotificationInfo m taskID notificationConfig).1
  | CallOnSetTaskPushNotification p => (OnSetTaskPushNotification m p).1
  | CallOnGetTaskPushNotification _ => m
  end.

Definition after_all (m : manager) (calls : list call) : manager :=
  foldl after m calls.

(** The task whose push-notification entry a call may write. *)
Definition sets_info (c : call) : option string :=
  match c with
  | CallSetPushNotificationInfo taskID _ => Some taskID
  | CallOnSetTaskPushNotification p => Some (ConfigID p)
  | _ => None
  end.

(** What every manager built from [NewManager] by calls satisfies. *)
Record consistent (m : manager) : Prop := {
  key_is_id : ∀ id task, tasks (tm m) !! id = Some task → ID task = id;
  history_nonempty : ∀ id task, tasks (tm m) !! id = Some task →
    History task ≠ [];
  session_present : ∀ id task, tasks (tm m) !! id = Some task →
    is_Some (SessionID task);
  info_has_task : ∀ id, is_Some (pushNotificationInfos m !! id) →
    is_Some (tasks (tm m) !! id)
}.

(** *** Sample data *)

Definition notify_config : PushNotificationConfig :=
  {| PushURL := "http://localhost:5000/notify"; PushToken := None;
     Authentication := Some {| Schemes := ["bearer"]; Credentials := None |} |}.

Definition manager1 : manager := after NewManager
  (CallUpsertTask (send m1) "2025-04-10T12:00:00Z").

End Manager.

(** ** Package [utils]: the in-memory cache

    [InMemoryCache] maps keys to values ([interface{}], a parameter here)
    and, for keys set with a time to live, to the Unix second after which
    they are stale.  The code keeps that second as a float64; the seconds
    and their sums are integers far below 2^53, so they are modelled by
    integers.  [now] is [time.Now().Unix()] at the call. *)
Module Cache.

Section WithValue.
Variable V : Type.

Record InMemoryCache := {
  cacheData : gmap string V;
  ttl : gmap string Z
}.

(** The instance [GetCacheInstance] builds on first use. *)
Definition NewCache : InMemoryCache := {| cacheData := ∅; ttl := ∅ |}.

(** [InMemoryCache.Set]. *)
Definition CacheSet (c : InMemoryCache) (key : string) (value : V)
    (ttlSeconds : option Z) (now : Z) : InMemoryCache :=
  {| cacheData := <[key := value]> (cacheData c);
     ttl := match ttlSeconds with
            | Some seconds => <[key := (now + seconds)%Z]> (ttl c)
            | None => delete key (ttl c)
            end |}.

(** [InMemoryCache.Get]. *)
Definition CacheGet (c : InMemoryCache) (key : string) (defaultValue : V)
    (now : Z) : InMemoryCache * V :=
  let stale := match ttl c !! key with
               | Some expiration => (expiration <? now)%Z
               | None => false
               end in
  if stale then
    ({| cacheData := delete key (cacheData c); ttl := delete key (ttl c) |},
     defaultValue)
  else
    match cacheData c !! key with
    | Some val => (c, val)
    | None => (c, defaultValue)
    end.

(** [InMemoryCache.Delete]. *)
Definition CacheDelete (c : InMemoryCache) (key : string) : InMemoryCache * bool :=
  match cacheData c !! key with
  | Some _ =>
      ({| cacheData := delete key (cacheData c); ttl := delete key (ttl c) |},
       true)
  | None => (c, false)
  end.

(** [InMemoryCache.Clear]. *)
Definition CacheClear (c : InMemoryCache) : InMemoryCache * bool :=
  (NewCache, true).

Inductive cache_call :=
  | DoSet (key : string) (value : V) (ttlSeconds : option Z) (now : Z)
  | DoGet (key : string) (defaultValue : V) (now : Z)
  | DoDelete (key : string)
  | DoClear.

Definition cache_after (c : InMemoryCache) (call : cache_call) : InMemoryCache :=
  match call with
  | DoSet key value ttlSeconds now => CacheSet c key value ttlSeconds now
  | DoGet key defaultValue now => (CacheGet c key defaultValue now).1
  | DoDelete key => (CacheDelete c key).1
  | DoClear => (CacheClear c).1
  end.

Definition cache_after_all (c : InMemoryCache) (calls : list cache_call)
    : InMemoryCache :=
  foldl cache_after c calls.

(** The call works on a key other than [key] (so it is not [Clear]). *)
Definition on_other_key (key : string) (call : cache_call) : Prop :=
  match call with
  | DoSet k _ _ _ | DoGet k _ _ | DoDelete k => k ≠ key
  | DoClear => False
  end.

(** Every key with an expiry has a value. *)
Definition expiry_has_value (c : InMemoryCache) : Prop :=
  ∀ key, is_Some (ttl c !! key) → is_Some (cacheData c !! key).

End WithValue.

Arguments cacheData {V} _.
Arguments ttl {V} _.
Arguments NewCache {V}.
Arguments CacheSet {V} _ _ _ _ _.
Arguments CacheGet {V} _ _ _ _.
Arguments CacheDelete {V} _ _.
Arguments CacheClear {V} _.
Arguments DoSet {V} _ _ _ _.
Arguments DoGet {V} _ _ _.
Arguments DoDelete {V} _.
Arguments DoClear {V}.
Arguments cache_after {V} _ _.
Arguments cache_after_all {V} _ _.
Arguments on_other_key {V} _ _.
Arguments expiry_has_value {V} _.

End Cache.

(** ** Package [server]: output modes *)
Module Modalities.

(** The second loop of [AreModalitiesCompatible]: the first client mode
    found among the server modes ends it. *)
Fixpoint any_mode_in (serverModes : gset string) (clientOutputModes : list string)
    : bool :=
  match clientOutputModes with
  | [] => false
  | mode :: rest =>
      if decide (mode ∈ serverModes) then true else any_mode_in serverModes rest
  end.

(** [AreModalitiesCompatible]; the [map[string]struct{}] is a set. *)
Definition AreModalitiesCompatible (serverOutputModes clientOutputModes : list string)
    : bool :=
  if decide (length clientOutputModes = 0) then true
  else if decide (length serverOutputModes = 0) then true
  else
    let serverModes :=
      foldl (λ (modes : gset string) mode, {[mode]} ∪ modes) ∅ serverOutputModes in
    any_mode_in serverModes clientOutputModes.

End Modalities.

(** ** Package [server]: the JSON-RPC endpoint of [A2AServer]

    [processRequest] decodes the body into a [types.JSONRPCRequest],
    whose [Params] field is an [interface{}]; what encoding/json stores
    there is nil, a bool, a float64, a string, a slice or a map, never a
    pointer to one of the parameter structs.  [J] stands for those decoded
    values, [decode_request] for the decoding of a body (JSONRPC, ID,
    Method and Params of the request, or an error). *)
Module Server.

Section WithJSON.
Variable J : Type.
Variable decode_request : string → option (string * J * string * J).

(** The dynamic type of [request.Params]. *)
Inductive Params :=
  | DecodedJSON (j : J)
  | TaskQueryParamsPtr (p : Types.TaskQueryParams)
  | TaskIdParamsPtr (taskID : string)
  | TaskPushNotificationConfigPtr (p : Manager.TaskPushNotificationConfig)
  | TaskSendParamsPtr (p : Types.TaskSendParams).

Record JSONRPCRequest := {
  JSONRPC : string;
  RequestID : J;
  Method : string;
  RequestParams : Params
}.

Record JSONRPCResponse := {
  ResponseJSONRPC : string;
  ResponseID : option J;
  ResponseResult : option J;
  ResponseError : option Types.JSONRPCError
}.

Record SendTaskResponse := { SendResult : option Types.Task }.

(** The dynamic value of [result interface{}] in [processRequest]: a
    pointer (which may be nil) of the type the called method returns, or,
    for [createResponse] taken alone, a [*types.JSONRPCResponse], a
    channel (given by what is received from it until it is closed) or
    nil. *)
Inductive result :=
  | GetTaskResponsePtr (r : option Types.GetTaskResponse)
  | SendTaskResponsePtr (r : option SendTaskResponse)
  | SendTaskStreamingResponsePtr (r : option SSE.SendTaskStreamingResponse)
  | CancelTaskResponsePtr (r : option Types.CancelTaskResponse)
  | SetTaskPushNotificationResponsePtr
      (r : option Manager.SetTaskPushNotificationResponse)
  | GetTaskPushNotificationResponsePtr
      (r : option Manager.GetTaskPushNotificationResponse)
  | JSONRPCResponsePtr (r : option JSONRPCResponse)
  | StreamChan (items : list SSE.SendTaskStreamingResponse)
  | NilResult.

(** What a handler wrote: the status, the [Content-Type] and the body,
    which is a text, the JSON encoding of a response, or a stream of
    [data:] frames. *)
Inductive payload :=
  | Text (s : string)
  | Encoded (r : option JSONRPCResponse)
  | EventStream (frames : list SSE.SendTaskStreamingResponse).

Record Response := {
  StatusCode : Z;
  ContentType : string;
  Payload : payload
}.

(** [http.Error]. *)
Definition http_Error (msg : string) (code : Z) : Response :=
  {| StatusCode := code; ContentType := "text/plain; charset=utf-8";
     Payload := Text (msg ++ PushAuth.newline)%string |}.

(** [A2AServer.handleError]. *)
Definition handleError (err : Types.JSONRPCError) : Response :=
  {| StatusCode := 400; ContentType := "application/json";
     Payload := Encoded (Some {| ResponseJSONRPC := "2.0"; ResponseID := None;
                                 ResponseResult := None;
                                 ResponseError := Some err |}) |}.

(** [A2AServer.createResponse]; the [http.ResponseWriter] of net/http is
    an [http.Flusher]. *)
Definition createResponse (res : result) : Response :=
  match res with
  | JSONRPCResponsePtr v =>
      {| StatusCode := 200; ContentType := "application/json";
         Payload := Encoded v |}
  | StreamChan items =>
      {| StatusCode := 200; ContentType := "text/event-stream";
         Payload := EventStream items |}
  | _ => http_Error "Internal server error" 500
  end.

(** The [TaskManager] interface, over the state [S] of an
    implementation; each method returns its result and the state after
    the call, or panics. *)
Record TaskManager (S : Type) := {
  OnGetTask : S → JSONRPCRequest →
    PushAuth.outcome (S * option Types.GetTaskResponse);
  OnCancelTask : S → JSONRPCRequest →
    PushAuth.outcome (S * option Types.CancelTaskResponse);
  OnSendTask : S → JSONRPCRequest →
    PushAuth.outcome (S * option SendTaskResponse);
  OnSendTaskSubscribe : S → JSONRPCRequest →
    PushAuth.outcome
      (S * (option SSE.SendTaskStreamingResponse * option string));
  OnSetTaskPushNotification : S → JSONRPCRequest →
    PushAuth.outcome (S * option Manager.SetTaskPushNotificationResponse);
  OnGetTaskPushNotification : S → JSONRPCRequest →
    PushAuth.outcome (S * option Manager.GetTaskPushNotificationResponse);
  OnResubscribeToTask : S → JSONRPCRequest →
    PushAuth.outcome
      (S * (option SSE.SendTaskStreamingResponse * option string))
}.

Definition then_respond {S A : Type} (call : PushAuth.outcome (S * A))
    (respond : A → Response) : PushAuth.outcome (S * Response) :=
  match call with
  | PushAuth.Panic => PushAuth.Panic
  | PushAuth.Return (st, a) => PushAuth.Return (st, respond a)
  end.

(** The end of [processRequest] for the two methods that also return an
    error. *)
Definition respond_or_error (res : option SSE.SendTaskStreamingResponse * option string)
    : Response :=
  match res with
  | (_, Some err) =>
      handleError {| Types.Code := -32603; Types.ErrMessage := err |}
  | (r, None) => createResponse (SendTaskStreamingResponsePtr r)
  end.

(** [A2AServer.processRequest]. *)
Definition processRequest {S : Type} (taskManager : TaskManager S) (st : S)
    (r : PushAuth.Request) : PushAuth.outcome (S * Response) :=
  if negb (String.eqb (PushAuth.Method r) "POST") then
    PushAuth.Return (st, http_Error "Method not allowed" 405)
  else
    match decode_request (PushAuth.Body r) with
    | None =>
        PushAuth.Return
          (st, handleError {| Types.Code := -32700;
                              Types.ErrMessage := "Parse error" |})
    | Some (version, id, method, params) =>
        let jsonRPCRequest :=
          {| JSONRPC := version; RequestID := id; Method := method;
             RequestParams := DecodedJSON params |} in
        if String.eqb method "get_task" then
          then_respond (OnGetTask S taskManager st jsonRPCRequest)
            (λ v, createResponse (GetTaskResponsePtr v))
        else if String.eqb method "send_task" then
          then_respond (OnSendTask S taskManager st jsonRPCRequest)
            (λ v, createResponse (SendTaskResponsePtr v))
        else if String.eqb method "send_task_streaming" then
          then_respond (OnSendTaskSubscribe S taskManager st jsonRPCRequest)
            respond_or_error
        else if String.eqb method "cancel_task" then
          then_respond (OnCancelTask S taskManager st jsonRPCRequest)
            (λ v, createResponse (CancelTaskResponsePtr v))
        else if String.eqb method "set_task_push_notification" then
          then_respond (OnSetTaskPushNotification S taskManager st jsonRPCRequest)
            (λ v, createResponse (SetTaskPushNotificationResponsePtr v))
        else if String.eqb method "get_task_push_notification" then
          then_respond (OnGetTaskPushNotification S taskManager st jsonRPCRequest)
            (λ v, createResponse (GetTaskPushNotificationResponsePtr v))
        else if String.eqb method "resubscribe_to_task" then
          then_respond (OnResubscribeToTask S taskManager st jsonRPCRequest)
            respond_or_error
        else
          PushAuth.Return
            (st, handleError {| Types.Code := -32601;
                                Types.ErrMessage := "Method not found" |})
    end.

(** [InMemoryTaskManager] as a [TaskManager]: each method first asserts
    the type of [request.Params], which panics on any other type. *)
Definition InMemory : TaskManager Manager.manager := {|
  OnGetTask := λ st request,
    match RequestParams request with
    | TaskQueryParamsPtr taskQueryParams =>
        let '(tm', resp) := TaskStore.OnGetTask (Manager.tm st) taskQueryParams in
        PushAuth.Return (Manager.with_tm st tm', Some resp)
    | _ => PushAuth.Panic
    end;
  OnCancelTask := λ st request,
    match RequestParams request with
    | TaskIdParamsPtr taskID =>
        let '(tm', resp) := TaskStore.OnCancelTask (Manager.tm st) taskID in
        PushAuth.Return (Manager.with_tm st tm', Some resp)
    | _ => PushAuth.Panic
    end;
  OnSendTask := λ st request, PushAuth.Return (st, None);
  OnSendTaskSubscribe := λ st request,
    PushAuth.Return (st, (None, Some "not implemented"));
  OnSetTaskPushNotification := λ st request,
    match RequestParams request with
    | TaskPushNotificationConfigPtr taskNotificationParams =>
        let '(st', resp) :=
          Manager.OnSetTaskPushNotification st taskNotificationParams in
        PushAuth.Return (st', Some resp)
    | _ => PushAuth.Panic
    end;
  OnGetTaskPushNotification := λ st request,
    match RequestParams request with
    | TaskIdParamsPtr taskID =>
        match Manager.OnGetTaskPushNotification st taskID with
        | PushAuth.Return resp => PushAuth.Return (st, Some resp)
        | PushAuth.Panic => PushAuth.Panic
        end
    | _ => PushAuth.Panic
    end;
  OnResubscribeToTask := λ st request,
    PushAuth.Return (st, (None, Some "not implemented"))
|}.

End WithJSON.

(** *** Sample data: bodies that carry only a method name *)

Definition sample_decode (body : string) : option (string * unit * string * unit) :=
  if String.eqb body EmptyString then None else Some ("2.0", tt, body, tt).

Definition post (body : string) : PushAuth.Request :=
  {| PushAuth.Method := "POST"; PushAuth.URL := "/";
     PushAuth.Header := {[ "Content-Type" := "application/json" ]};
     PushAuth.Body := body |}.

End Server.

(** ** Package [utils]: sending a push notification *)
Module Sender.
Import PushAuth.

Section WithLib.
Context {L : Lib}.

(** [SendPushNotification] at instant [now]; [http_Do] is [client.Do]:
    a transport error, or the response of the receiver.  The call
    returns an error or nil, or panics on a URL that does not parse. *)
Definition SendPushNotification (s : PushNotificationSenderAuth) (now : Z)
    (url : string) (data : Payload) (http_Do : Request → error + Response)
    : outcome (option error) :=
  match SendPushNotification_request s now url data with
  | Panic => Panic
  | Return (inl err) => Return (Some err)
  | Return (inr req) =>
      match http_Do req with
      | inl err => Return (Some err)
      | inr resp => Return None
      end
  end.

End WithLib.
End Sender.

(** ** More sample data for push-notification authentication *)
Module Scenario2.
Import PushAuth Scenario.

(** The sample library, except that the one token that parses carries
    claims without [iat]. *)
Definition bare_claims : gmap string claim :=
  {[ "request_body_sha256" := CString (hex ("{}" ++ newline)) ]}.

Definition bare_lib : Lib := {|
  Payload := option object;
  nil_map := None;
  json_encode := encode;
  json_marshal := marshal;
  json_unmarshal := unmarshal;
  json_decode := decode;
  sha256_hex := hex;
  PrivateKey := nat;
  PublicKey := nat;
  public_of := λ sk, sk;
  jwt_signed_string := λ m header claims sk, inl "unsupported";
  jwt_parse := λ keyfunc now tok,
    if String.eqb tok issued_token then inr bare_claims
    else inl "token is malformed";
  url_parse_error := parse_error;
  unrepresentable := λ f, (- 2 ^ 63)%Z
|}.

Definition bare_receiver : PushNotificationReceiverAuth (L := bare_lib) :=
  @Build_PushNotificationReceiverAuth bare_lib 1%nat.

(** A receiver that answers every request with 401. *)
Definition refusing_receiver (req : Request) : error + Response :=
  inr (http_Error "Invalid token: token expired" StatusUnauthorized).

Definition sent_request : Request :=
  {| Method := "POST"; URL := "http://localhost:5000/notify";
     Header := {[ "Authorization" := ("Bearer " ++ issued_token)%string;
                  "Content-Type" := "application/json" ]};
     Body := empty_object |}.

End Scenario2.

(** ** More of the SSE machine: one publication without interference *)
Module Publication.
Import SSE.

(** The schedule in which publisher [p] runs [enqueueEventsForSSE] from
    its first step to its return, handing the event to the goroutines
    [gs] in turn, and no other thread moves (no reader either). *)
Definition quiet_publish (p : nat) (gs : list nat) : list action :=
  PubStep p :: flat_map (λ g, [PubStep p; Handoff p g]) gs ++ [PubStep p].

(** The response a goroutine sends on receiving an event, and whether
    its loop breaks after the send. *)
Definition forwarded (requestID : string) (ev : Event) : SendTaskStreamingResponse :=
  (dequeueEventsForSSE_iteration requestID ev).1.

Definition breaks (requestID : string) (ev : Event) : bool :=
  (dequeueEventsForSSE_iteration requestID ev).2.

(** The readers of the goroutines [gs] take one response each. *)
Definition read_each (gs : list nat) : list action := Read <$> gs.

(** Goroutine [g] is blocked receiving on queue [q]. *)
Definition receives_on (st : state) (g : nat) (q : chan) : Prop :=
  ∃ gr, goroutines st !! g = Some gr ∧ g_queue gr = q ∧ g_at gr = Receiving.

(** *** Sample data *)

Definition rpc_error : Types.JSONRPCError :=
  {| Types.Code := -32000; Types.ErrMessage := "task failed" |}.

Definition error_publisher : publisher :=
  {| pub_task := "t1"; pub_event := RPCError rpc_error;
     pub_at := PubSend {| arr := 1; len := 1; cap := 1 |} 0 1 |}.

Definition error_schedule : list action :=
  [Subscribe "t1" false; Spawn "r1" "t1" 1;
   Publish "t1" (RPCError rpc_error); PubStep 0; PubStep 0].

Definition error_state : state :=
  {| taskSSESubscribers := {[ "t1" := {| arr := 1; len := 1; cap := 1 |} ]};
     arrays := {[ 0 := []; 1 := [1] ]};
     next_array := 2; next_chan := 2;
     goroutines := [receiving_goroutine];
     publishers := [error_publisher] |}.

(** Three subscribers with their goroutines, and a publisher of the
    final event that has not started. *)
Definition three_subscribers : list action :=
  [Subscribe "t1" false; Spawn "r1" "t1" 1;
   Subscribe "t1" false; Spawn "r2" "t1" 2;
   Subscribe "t1" false; Spawn "r3" "t1" 3;
   Publish "t1" final_event].

Definition three_subscribers_state : state :=
  {| taskSSESubscribers := {[ "t1" := {| arr := 3; len := 3; cap := 4 |} ]};
     arrays := {[ 0 := []; 1 := [1]; 2 := [1; 2]; 3 := [1; 2; 3; 0] ]};
     next_array := 4; next_chan := 4;
     goroutines :=
       [{| g_requestID := "r1"; g_taskID := "t1"; g_queue := 1;
           g_at := Receiving; responses := []; closed := false |};
        {| g_requestID := "r2"; g_taskID := "t1"; g_queue := 2;
           g_at := Receiving; responses := []; closed := false |};
        {| g_requestID := "r3"; g_taskID := "t1"; g_queue := 3;
           g_at := Receiving; responses := []; closed := false |}];
     publishers :=
       [{| pub_task := "t1"; pub_event := final_event; pub_at := PubLock |}] |}.

End Publication.


(** ** Package [hosts]: metadata merging in [RemoteAgentConnections.SendTask] *)
Module Hosts.

Section WithValue.

(** The values of a metadata map are [interface{}]; [string_value] stores
    a string there.  [range] is the order in which a [for k, v := range]
    loop visits a map, which Go leaves open. *)
Variable V : Type.
Variable string_value : string → V.
Variable range : gmap string V → list (string * V).

(** [map[string]interface{}], nil being [None]. *)
Definition MetadataMap := option (gmap string V).

(** The structs of package [types] with the [Metadata] field that this
    package reads and writes. *)
Record Message := {
  Role : string;
  Parts : list Types.Part;
  Metadata : MetadataMap
}.

Record TaskStatus := {
  State : Types.TaskState;
  StatusMessage : option Message;    (* Message *Message, nil = None *)
  Timestamp : string
}.

Record Task := {
  ID : string;
  SessionID : option string;
  Status : TaskStatus;
  Artifacts : option (list Types.Artifact);
  History : list Message;
  TaskMetadata : MetadataMap
}.

Record TaskSendParams := {
  SendID : string;
  SendSessionID : string;
  SendMessage : Message;
  AcceptedOutputModes : list string;
  PushNotification : option Manager.PushNotificationConfig;
  SendHistoryLength : option Z;
  SendMetadata : MetadataMap
}.

Definition with_metadata (m : Message) (md : MetadataMap) : Message :=
  {| Role := Role m; Parts := Parts m; Metadata := md |}.

Definition with_task_metadata (t : Task) (md : MetadataMap) : Task :=
  {| ID := ID t; SessionID := SessionID t; Status := Status t;
     Artifacts := Artifacts t; History := History t; TaskMetadata := md |}.

Definition with_status_message (t : Task) (m : Message) : Task :=
  {| ID := ID t; SessionID := SessionID t;
     Status := {| State := State (Status t); StatusMessage := Some m;
                  Timestamp := Timestamp (Status t) |};
     Artifacts := Artifacts t; History := History t;
     TaskMetadata := TaskMetadata t |}.

(** What an [interface{}] argument of [mergeMetadata] holds: a pointer to
    a message, a message by value, a pointer to a task, a pointer to the
    parameters of a send.  The pointers are not nil. *)
Inductive any :=
  | MessagePtr (m : Message)
  | MessageVal (m : Message)
  | TaskPtr (t : Task)
  | TaskSendParamsPtr (p : TaskSendParams).

(** [if target.Metadata == nil { target.Metadata = make(...) }], then
    [if source.Metadata != nil { for k, v := range source.Metadata
    { target.Metadata[k] = v } }]. *)
Definition merge_maps (target source : MetadataMap) : MetadataMap :=
  let made := match target with Some m => m | None => ∅ end in
  match source with
  | Some s => Some (foldl (λ m kv, <[kv.1 := kv.2]> m) made (range s))
  | None => Some made
  end.

(** [mergeMetadata(target, source)]: what [target] points to afterwards. *)
Definition mergeMetadata (target source : any) : any :=
  match target, source with
  | MessagePtr targetMsg, MessagePtr sourceMsg =>
      MessagePtr (with_metadata targetMsg
                    (merge_maps (Metadata targetMsg) (Metadata sourceMsg)))
  | TaskPtr targetTask, TaskSendParamsPtr sourceTask =>
      TaskPtr (with_task_metadata targetTask
                 (merge_maps (TaskMetadata targetTask) (SendMetadata sourceTask)))
  | _, _ => target
  end.

(** What [SendTask] does to a task it has received, in the streaming and
    in the other branch alike, before it calls [taskCallback]; [uuid] is
    [uuid.New().String()].  [request] is a [*types.TaskSendParams] and
    [request.Message] its field of type [types.Message]. *)
Definition SendTask_merge (result : Task) (request : TaskSendParams)
    (uuid : string) : Task :=
  let result1 :=
    match mergeMetadata (TaskPtr result) (TaskSendParamsPtr request) with
    | TaskPtr t => t
    | _ => result
    end in
  match StatusMessage (Status result1) with
  | Some msg =>
      let msg1 :=
        match mergeMetadata (MessagePtr msg) (MessageVal (SendMessage request)) with
        | MessagePtr m => m
        | _ => msg
        end in
      let md := match Metadata msg1 with Some m => m | None => ∅ end in
      let md := match md !! "message_id" with
                | Some messageID => <["last_message_id" := messageID]> md
                | None => md
                end in
      with_status_message result1
        (with_metadata msg1 (Some (<["message_id" := string_value uuid]> md)))
  | None => result1
  end.

End WithValue.

Arguments Role {V}.
Arguments Parts {V}.
Arguments Metadata {V}.
Arguments State {V}.
Arguments StatusMessage {V}.
Arguments Timestamp {V}.
Arguments ID {V}.
Arguments SessionID {V}.
Arguments Status {V}.
Arguments Artifacts {V}.
Arguments History {V}.
Arguments TaskMetadata {V}.
Arguments SendID {V}.
Arguments SendSessionID {V}.
Arguments SendMessage {V}.
Arguments AcceptedOutputModes {V}.
Arguments PushNotification {V}.
Arguments SendHistoryLength {V}.
Arguments SendMetadata {V}.
Arguments with_metadata {V}.
Arguments with_task_metadata {V}.
Arguments with_status_message {V}.
Arguments MessagePtr {V}.
Arguments MessageVal {V}.
Arguments TaskPtr {V}.
Arguments TaskSendParamsPtr {V}.
Arguments merge_maps {V}.
Arguments mergeMetadata {V}.
Arguments SendTask_merge {V}.

(** *** Sample data: string values, visited in the order of the map's list *)

Definition sorted_range (m : gmap string string) : list (string * string) :=
  map_to_list m.

Definition reply : Message string :=
  {| Role := "agent"; Parts := [Types.TextPart "done"];
     Metadata := Some {[ "message_id" := "m-1"; "lang" := "en" ]} |}.

Definition question : Message string :=
  {| Role := "user"; Parts := [Types.TextPart "hello"];
     Metadata := Some {[ "conversation_id" := "c-7" ]} |}.

Definition received : Task string :=
  {| ID := "t1"; SessionID := Some "s1";
     Status := {| State := Types.TaskCompleted; StatusMessage := Some reply;
                  Timestamp := "2025-04-01T10:00:00Z" |};
     Artifacts := None; History := [question; reply];
     TaskMetadata := Some {[ "origin" := "agent" ]} |}.

Definition sent : TaskSendParams string :=
  {| SendID := "t1"; SendSessionID := "s1"; SendMessage := question;
     AcceptedOutputModes := ["text"]; PushNotification := None;
     SendHistoryLength := None;
     SendMetadata := Some {[ "origin" := "host"; "trace" := "x" ]} |}.

End Hosts.
(** * Properties of the task store *)
Module TaskStoreFacts.
Import Types TaskStore.


(** [updateStore] on a stored task, computed once for all uses. *)
Lemma updateStore_present tm taskID status artifacts task :
  tasks tm !! taskID = Some task →
  ∃ task',
    updateStore tm taskID status artifacts
      = ({| tasks := <[taskID := task']> (tasks tm) |}, inr task')
    ∧ ID task' = ID task
    ∧ SessionID task' = SessionID task
    ∧ Status task' = status
    ∧ History task' = History task ++ status_entry status
    ∧ elems (Artifacts task') = elems (Artifacts task) ++ elems artifacts.
Proof.
  intros Hlook. unfold updateStore, status_entry. rewrite Hlook.
  destruct (StatusMessage status) as [m|], artifacts as [new|],
    (Artifacts task) as [old|] eqn:Hold;
    eexists; (split; [reflexivity|]); cbn;
    rewrite ?Hold, ?app_nil_r; repeat split; reflexivity.
Qed.

Lemma drop_length_min {A} (h : list A) (k : nat) :
  length (drop (length h - k `min` length h) h) = k `min` length h.
Proof. rewrite length_drop. lia. Qed.

(** [appendTaskHistory] with a positive limit keeps the last
    [min n (len history)] entries. *)
Lemma appendTaskHistory_positive task (n : Z) :
  (0 < n)%Z →
  appendTaskHistory task (Some n)
    = with_history task
        (drop (length (History task) - Z.to_nat n `min` length (History task))
              (History task)).
Proof.
  intros Hn. unfold appendTaskHistory.
  destruct (Z.ltb_spec 0 n) as [_|]; [|lia].
  destruct (Z.ltb_spec n (Z.of_nat (length (History task)))) as [Hlt|Hge].
  - f_equal. f_equal. lia.
  - replace (length (History task) - Z.to_nat n `min` length (History task))
      with 0 by lia.
    rewrite drop_0. destruct task; reflexivity.
Qed.

(** ** Concrete stores *)

Example store1_t1 :
  tasks store1 !! "t1"
  = Some {| ID := "t1"; SessionID := Some "s1";
            Status := {| State := TaskSubmitted; StatusMessage := None;
                         Timestamp := "2025-04-10T12:00:00Z" |};
            Artifacts := None; History := [m1] |}.
Proof. reflexivity. Qed.

Example store_completed_t1 :
  tasks store_completed !! "t1"
  = Some {| ID := "t1"; SessionID := Some "s1";
            Status := status_of TaskCompleted (Some m3);
            Artifacts := None; History := [m1; m3] |}.
Proof. reflexivity. Qed.

(** The scenario of the specification: create, report working, read with
    a limit of 10. *)
Example scenario_create_update_get :
  let tm := (updateStore store1 "t1" (status_of TaskWorking None) (Some [])).1 in
  ∃ task, (OnGetTask tm {| QueryID := "t1"; HistoryLength := Some 10%Z |}).2
            = {| GetResult := Some task |}
          ∧ History task = [m1] ∧ State (Status task) = TaskWorking.
Proof. eexists. split; [reflexivity|]. split; reflexivity. Qed.

(** ** The claims *)

(** C3. [upsertTask] is create-once.  On an identifier the store does not
    hold, it stores and returns a task in state [submitted] whose history
    is the one message of the call.  On an identifier the store holds, it
    stores and returns that task with the message added at the end of its
    history and with its status, hence its state, as it was. *)
Theorem upsertTask_create_once (tm : InMemoryTaskManager) (p : TaskSendParams)
    (now : string) :
  (tasks tm !! SendID p = None →
     ∃ task, upsertTask tm p now
               = ({| tasks := <[SendID p := task]> (tasks tm) |}, task)
       ∧ State (Status task) = TaskSubmitted
       ∧ History task = [SendMessage p])
  ∧ (∀ old, tasks tm !! SendID p = Some old →
       ∃ task, upsertTask tm p now
                 = ({| tasks := <[SendID p := task]> (tasks tm) |}, task)
         ∧ History task = History old ++ [SendMessage p]
         ∧ Status task = Status old
         ∧ State (Status task) = State (Status old)).
Proof.
  split.
  - intros Hnone. unfold upsertTask. rewrite Hnone.
    eexists. split; [reflexivity|]. split; reflexivity.
  - intros old Hold. unfold upsertTask. rewrite Hold.
    eexists. split; [reflexivity|]. repeat split.
Qed.

Lemma upsertTask_create_once_witness :
  (∃ task, upsertTask NewInMemoryTaskManager (send m1) "2025-04-10T12:00:00Z"
             = ({| tasks := <["t1" := task]> ∅ |}, task)
     ∧ State (Status task) = TaskSubmitted
     ∧ History task = [m1])
  ∧ (∃ task, upsertTask store_completed (send m2) "2025-04-10T12:00:02Z"
               = ({| tasks := <["t1" := task]> (tasks store_completed) |}, task)
       ∧ History task = [m1; m3] ++ [m2]
       ∧ Status task = status_of TaskCompleted (Some m3)
       ∧ State (Status task) = TaskCompleted).
Proof.
  split.
  - apply (proj1 (upsertTask_create_once NewInMemoryTaskManager (send m1)
                    "2025-04-10T12:00:00Z")).
    reflexivity.
  - apply (proj2 (upsertTask_create_once store_completed (send m2)
                    "2025-04-10T12:00:02Z")
             {| ID := "t1"; SessionID := Some "s1";
                Status := status_of TaskCompleted (Some m3);
                Artifacts := None; History := [m1; m3] |}).
    reflexivity.
Defined.

(** C4. On a stored task [updateStore] puts the new status in place of
    the old one, adds the status's message (when it has one) at the end
    of the history, adds the given artifacts at the end of the stored
    artifacts, and returns the task as stored.  On an identifier the
    store does not hold it returns the error "task not found" and the
    store as it was. *)
Theorem updateStore_replaces_and_appends (tm : InMemoryTaskManager)
    (taskID : string) (status : TaskStatus) (artifacts : option (list Artifact)) :
  (∀ task, tasks tm !! taskID = Some task →
     ∃ task',
       updateStore tm taskID status artifacts
         = ({| tasks := <[taskID := task']> (tasks tm) |}, inr task')
       ∧ Status task' = status
       ∧ History task' = History task ++ status_entry status
       ∧ elems (Artifacts task') = elems (Artifacts task) ++ elems artifacts)
  ∧ (tasks tm !! taskID = None →
       updateStore tm taskID status artifacts = (tm, inl "task not found")).
Proof.
  split.
  - intros task Hlook.
    destruct (updateStore_present tm taskID status artifacts task Hlook)
      as (task' & Heq & _ & _ & Hst & Hh & Ha).
    exists task'. auto.
  - intros Hnone. unfold updateStore. rewrite Hnone. reflexivity.
Qed.


Lemma updateStore_replaces_and_appends_witness :
  (∃ task',
     updateStore store_completed "t1" (status_of TaskWorking (Some m2))
         (Some [artifact 0])
       = ({| tasks := <["t1" := task']> (tasks store_completed) |}, inr task')
     ∧ Status task' = status_of TaskWorking (Some m2)
     ∧ History task' = [m1; m3] ++ [m2]
     ∧ elems (Artifacts task') = [] ++ [artifact 0])
  ∧ updateStore store1 "t2" (status_of TaskWorking None) None
      = (store1, inl "task not found").
Proof.
  split.
  - apply (proj1 (updateStore_replaces_and_appends store_completed "t1"
                    (status_of TaskWorking (Some m2)) (Some [artifact 0]))
             {| ID := "t1"; SessionID := Some "s1";
                Status := status_of TaskCompleted (Some m3);
                Artifacts := None; History := [m1; m3] |}).
    reflexivity.
  - apply (proj2 (updateStore_replaces_and_appends store1 "t2"
                    (status_of TaskWorking None) None)).
    reflexivity.
Defined.

(** C5. For a stored task, [OnGetTask] leaves the store as it was and
    returns a copy of the task that differs from it at most in its
    history: with a positive limit [n] the history is the last
    [min n (len history)] stored entries in stored order, and without a
    limit it is empty. *)
Theorem OnGetTask_history (tm : InMemoryTaskManager) (q : TaskQueryParams)
    (task : Task) :
  tasks tm !! QueryID q = Some task →
  ∃ snapshot,
    OnGetTask tm q = (tm, {| GetResult := Some snapshot |})
    ∧ snapshot = with_history task (History snapshot)
    ∧ (∀ n : Z, HistoryLength q = Some n → (0 < n)%Z →
         let k := Z.to_nat n `min` length (History task) in
         History snapshot = drop (length (History task) - k) (History task)
         ∧ length (History snapshot) = k)
    ∧ (HistoryLength q = None → History snapshot = []).
Proof.
  intros Hlook. unfold OnGetTask. rewrite Hlook.
  eexists. split; [reflexivity|]. split; [|split].
  - unfold appendTaskHistory.
    destruct (HistoryLength q) as [n|]; [|reflexivity].
    destruct (0 <? n)%Z; [|reflexivity].
    destruct (n <? _)%Z; [reflexivity|]. destruct task; reflexivity.
  - intros n Hn Hpos. rewrite Hn, appendTaskHistory_positive by done.
    cbn. split; [reflexivity|]. apply drop_length_min.
  - intros Hn. rewrite Hn. reflexivity.
Qed.

Lemma OnGetTask_history_witness :
  (∃ snapshot,
     OnGetTask store_completed {| QueryID := "t1"; HistoryLength := Some 1%Z |}
       = (store_completed, {| GetResult := Some snapshot |})
     ∧ History snapshot = drop (2 - 1) [m1; m3]
     ∧ length (History snapshot) = 1)
  ∧ (∃ snapshot,
       OnGetTask store_completed {| QueryID := "t1"; HistoryLength := None |}
         = (store_completed, {| GetResult := Some snapshot |})
       ∧ History snapshot = []).
Proof.
  split.
  - destruct (OnGetTask_history store_completed
                {| QueryID := "t1"; HistoryLength := Some 1%Z |}
                {| ID := "t1"; SessionID := Some "s1";
                   Status := status_of TaskCompleted (Some m3);
                   Artifacts := None; History := [m1; m3] |} eq_refl)
      as (snapshot & Heq & _ & Hpos & _).
    exists snapshot. split; [exact Heq|].
    apply (Hpos 1%Z eq_refl). reflexivity.
  - destruct (OnGetTask_history store_completed
                {| QueryID := "t1"; HistoryLength := None |}
                {| ID := "t1"; SessionID := Some "s1";
                   Status := status_of TaskCompleted (Some m3);
                   Artifacts := None; History := [m1; m3] |} eq_refl)
      as (snapshot & Heq & _ & _ & Hnil).
    exists snapshot. split; [exact Heq|]. apply Hnil. reflexivity.
Defined.

(** C2, as the specification states it, fails: the store holds t1 in the
    terminal state [completed], and a status update to [working] is
    accepted and changes the stored state. *)
Lemma terminal_state_overwritten :
  ∃ task task' tm',
    tasks store_completed !! "t1" = Some task
    ∧ is_terminal (State (Status task)) = true
    ∧ updateStore store_completed "t1" (status_of TaskWorking None) None
        = (tm', inr task')
    ∧ tasks tm' !! "t1" = Some task'
    ∧ State (Status task') = TaskWorking.
Proof. do 3 eexists. repeat split; reflexivity. Qed.

(** C2, amended.  The store keeps no lifecycle: a status update on a
    stored task succeeds whatever the task's current state, terminal or
    not, and the stored state becomes the state of the new status. *)
Theorem updateStore_accepts_any_transition (tm : InMemoryTaskManager)
    (taskID : string) (status : TaskStatus) (artifacts : option (list Artifact))
    (task : Task) :
  tasks tm !! taskID = Some task →
  ∃ tm' task',
    updateStore tm taskID status artifacts = (tm', inr task')
    ∧ tasks tm' !! taskID = Some task'
    ∧ State (Status task') = State status.
Proof.
  intros Hlook.
  destruct (updateStore_present tm taskID status artifacts task Hlook)
    as (task' & Heq & _ & _ & Hst & _).
  eexists _, task'. split; [exact Heq|]. split.
  - cbn. apply lookup_insert_eq.
  - by rewrite Hst.
Qed.

Lemma updateStore_accepts_any_transition_witness :
  ∃ tm' task',
    updateStore store_completed "t1" (status_of TaskFailed None) None
      = (tm', inr task')
    ∧ tasks tm' !! "t1" = Some task'
    ∧ State (Status task') = State (status_of TaskFailed None).
Proof.
  apply (updateStore_accepts_any_transition store_completed "t1"
           (status_of TaskFailed None) None
           {| ID := "t1"; SessionID := Some "s1";
              Status := status_of TaskCompleted (Some m3);
              Artifacts := None; History := [m1; m3] |}).
  reflexivity.
Defined.

(** C9, as the specification states it, fails: t1 is stored in the
    non-terminal state [submitted]; [OnCancelTask] returns no task and
    leaves t1 in state [submitted]. *)
Lemma cancel_does_not_transition :
  ∃ task,
    tasks store1 !! "t1" = Some task
    ∧ is_terminal (State (Status task)) = false
    ∧ OnCancelTask store1 "t1" = (store1, {| CancelResult := None |})
    ∧ State (Status task) ≠ TaskCanceled.
Proof. eexists. repeat split; try reflexivity. discriminate. Qed.

(** C9, amended.  [OnCancelTask] is a no-op: for every identifier, stored
    or not and in whatever state, it leaves the store as it was and
    returns a response with no task; the response type has no field for
    an error. *)
Theorem OnCancelTask_noop (tm : InMemoryTaskManager) (taskID : string) :
  OnCancelTask tm taskID = (tm, {| CancelResult := None |}).
Proof. unfold OnCancelTask. destruct (tasks tm !! taskID); reflexivity. Qed.

End TaskStoreFacts.

(** * Properties of the SSE machine *)
Module SSEFacts.
Import Types SSE.

Lemma remove_first_found q v i c :
  list_find (λ sub, sub = q) v = Some (i, c) → delete i v = remove_first q v.
Proof.
  revert i. induction v as [|x v IH]; intros i; cbn; [done|].
  case_decide.
  - intros [= <- _]. reflexivity.
  - destruct (list_find _ v) as [[j y]|] eqn:Hfind; cbn; [|done].
    intros [= <- <-]. cbn. f_equal. by apply IH.
Qed.

Lemma remove_first_absent q v :
  list_find (λ sub, sub = q) v = None → remove_first q v = v.
Proof.
  induction v as [|x v IH]; cbn; [done|].
  case_decide; [done|].
  destruct (list_find _ v) as [[j y]|]; cbn; [done|].
  intros _. f_equal. by apply IH.
Qed.

Lemma remove_first_sublist q v : remove_first q v `sublist_of` v.
Proof.
  induction v as [|x v IH]; cbn; [done|].
  case_decide; [by apply sublist_cons | by apply sublist_skip].
Qed.

(** A channel registered once is gone after its removal. *)
Lemma remove_first_NoDup q v : NoDup v → q ∉ remove_first q v.
Proof.
  induction 1 as [|x v Hx Hnd IH]; cbn; [apply not_elem_of_nil|].
  case_decide; [by subst|].
  rewrite not_elem_of_cons. split; [congruence | done].
Qed.

(** The other channels stay. *)
Lemma remove_first_other q c v : c ≠ q → c ∈ v → c ∈ remove_first q v.
Proof.
  intros Hne. induction v as [|x v IH]; cbn; [done|].
  rewrite elem_of_cons. case_decide; subst.
  - intros [? | ?]; [congruence | done].
  - rewrite elem_of_cons. intros [? | ?]; auto.
Qed.

Section Views.
Variable growcap : nat → nat → nat.

(** [append] shows the old cells followed by the new ones, whether it
    wrote in place or moved to a fresh array. *)
Lemma go_append_view h next s xs h' next' s' :
  go_append growcap h next s xs = (h', next', s') →
  len s ≤ length (default [] (h !! arr s)) →
  view h' s' = view h s ++ xs.
Proof.
  unfold go_append, view. intros Heq Hlen.
  set (a := default [] (h !! arr s)) in *.
  assert (Htake : length (take (len s) a) = len s) by (rewrite length_take; lia).
  destruct (decide _); inversion Heq; subst; cbn;
    rewrite lookup_insert_eq; cbn;
    rewrite app_assoc, take_app_length'; try reflexivity;
    rewrite length_app; lia.
Qed.

(** Where the result of [append] lives, and that its array is long
    enough for it. *)
Lemma go_append_shape h next s xs h' next' s' :
  go_append growcap h next s xs = (h', next', s') →
  len s ≤ length (default [] (h !! arr s)) →
  (arr s' = arr s ∨ arr s' = next)
  ∧ next ≤ next' ∧ arr s' < next' `max` S (arr s)
  ∧ len s' ≤ length (default [] (h' !! arr s')).
Proof.
  unfold go_append. intros Heq Hlen.
  set (a := default [] (h !! arr s)) in *.
  destruct (decide _); inversion Heq; subst; cbn;
    rewrite lookup_insert_eq; cbn;
    rewrite !length_app, length_take; repeat split; try lia; auto.
Qed.

(** Slices on other arrays are not touched. *)
Lemma go_append_frame h next s xs h' next' s' s2 :
  go_append growcap h next s xs = (h', next', s') →
  arr s2 ≠ arr s → arr s2 ≠ next →
  h' !! arr s2 = h !! arr s2.
Proof.
  unfold go_append. intros Heq H1 H2.
  destruct (decide _); inversion Heq; subst; by rewrite lookup_insert_ne.
Qed.

(** The registry entry of one task is replaced by the result of an
    [append] onto (a prefix of) its own slice. *)
Lemma Inv_replace st task s s0 xs h' next' s' nc' gs ps :
  Inv st →
  taskSSESubscribers st !! task = Some s →
  arr s0 = arr s → len s0 ≤ len s →
  go_append growcap (arrays st) (next_array st) s0 xs = (h', next', s') →
  NoDup (view (arrays st) s0 ++ xs) →
  (∀ c, c ∈ view (arrays st) s0 ++ xs → c < nc') →
  next_chan st ≤ nc' →
  (∀ g gr, gs !! g = Some gr → g_queue gr < nc') →
  let st' := {| taskSSESubscribers := <[task := s']> (taskSSESubscribers st);
                arrays := h'; next_array := next'; next_chan := nc';
                goroutines := gs; publishers := ps |} in
  Inv st'
  ∧ subscribers_of st' task = Some (view (arrays st) s0 ++ xs)
  ∧ ∀ t2, t2 ≠ task → subscribers_of st' t2 = subscribers_of st t2.
Proof.
  intros HI Hs Harr Hlen Happ Hnd Hbound Hnc Hgs st'. subst st'.
  destruct (inv_arr _ HI _ _ Hs) as [Hlt Hfit].
  assert (Hfit0 : len s0 ≤ length (default [] (arrays st !! arr s0)))
    by (rewrite Harr; lia).
  pose proof (go_append_view _ _ _ _ _ _ _ Happ Hfit0) as Hview.
  destruct (go_append_shape _ _ _ _ _ _ _ Happ Hfit0)
    as (Hwhere & Hnext & Hlt' & Hfit').
  assert (Hother : ∀ t2 s2, t2 ≠ task → taskSSESubscribers st !! t2 = Some s2 →
            arr s2 < next_array st ∧ arr s2 ≠ arr s'
            ∧ h' !! arr s2 = arrays st !! arr s2).
  { intros t2 s2 Hne H2.
    destruct (inv_arr _ HI _ _ H2) as [Hlt2 _].
    pose proof (inv_sep _ HI _ _ _ _ Hne H2 Hs) as Hsep.
    split; [done|]. split.
    - destruct Hwhere as [-> | ->]; [congruence | lia].
    - eapply go_append_frame; [exact Happ | congruence | lia]. }
  split; [|split].
  2:{ unfold subscribers_of. cbn. rewrite lookup_insert_eq. cbn. by rewrite Hview. }
  2:{ intros t2 Hne. unfold subscribers_of. cbn. rewrite lookup_insert_ne by done.
      destruct (taskSSESubscribers st !! t2) as [s2|] eqn:H2; [|done]. cbn.
      destruct (Hother _ _ Hne H2) as (_ & _ & Hsame).
      unfold view. by rewrite Hsame. }
  constructor; cbn.
  - intros t2 s2. rewrite lookup_insert. case_decide as Ht.
    + intros [= <-]. split; [lia | done].
    + intros H2. destruct (Hother _ _ (not_eq_sym Ht) H2) as (? & ? & ->).
      destruct (inv_arr _ HI _ _ H2). split; [lia | done].
  - intros t1 t2 s1 s2 Hne. rewrite !lookup_insert.
    repeat case_decide; subst; try congruence.
    + intros [= <-] H2. destruct (Hother _ _ (not_eq_sym Hne) H2) as (? & ? & ?).
      congruence.
    + intros H1 [= <-]. destruct (Hother _ _ Hne H1) as (? & ? & ?). done.
    + intros H1 H2. exact (inv_sep _ HI _ _ _ _ Hne H1 H2).
  - intros t2 s2. rewrite lookup_insert. case_decide as Ht.
    + intros [= <-]. rewrite Hview. done.
    + intros H2. destruct (Hother _ _ (not_eq_sym Ht) H2) as (? & ? & Hsame).
      unfold view. rewrite Hsame.
      destruct (inv_view _ HI _ _ H2) as [? Hb]. split; [done|].
      intros c Hc. specialize (Hb c Hc). lia.
  - done.
Qed.

Lemma Inv_init : Inv init.
Proof.
  constructor; cbn; intros *; try rewrite lookup_empty; try done.
Qed.

Lemma Inv_new_subscriber_list st taskID :
  Inv st → taskSSESubscribers st !! taskID = None →
  Inv (new_subscriber_list st taskID)
  ∧ ∀ t2, t2 ≠ taskID →
      subscribers_of (new_subscriber_list st taskID) t2 = subscribers_of st t2.
Proof.
  intros HI Hnone. split.
  2:{ intros t2 Hne. unfold subscribers_of. cbn. rewrite lookup_insert_ne by done.
      destruct (taskSSESubscribers st !! t2) as [s2|] eqn:H2; [|done]. cbn.
      destruct (inv_arr _ HI _ _ H2). unfold view.
      by rewrite lookup_insert_ne by lia. }
  constructor; cbn.
  - intros t2 s2. rewrite lookup_insert. case_decide.
    + intros [= <-]. cbn. rewrite lookup_insert_eq. cbn. lia.
    + intros H2. destruct (inv_arr _ HI _ _ H2).
      rewrite lookup_insert_ne by lia. split; [lia | done].
  - intros t1 t2 s1 s2 Hne. rewrite !lookup_insert.
    repeat case_decide; subst; try congruence.
    + intros [= <-] H2. destruct (inv_arr _ HI _ _ H2). cbn. lia.
    + intros H1 [= <-]. destruct (inv_arr _ HI _ _ H1). cbn. lia.
    + intros H1 H2. exact (inv_sep _ HI _ _ _ _ Hne H1 H2).
  - intros t2 s2. rewrite lookup_insert. case_decide.
    + intros [= <-]. unfold view. cbn. split; [constructor|].
      intros c Hc. by apply elem_of_nil in Hc.
    + intros H2. destruct (inv_arr _ HI _ _ H2).
      unfold view. rewrite lookup_insert_ne by lia.
      exact (inv_view _ HI _ _ H2).
  - apply (inv_queue _ HI).
Qed.

(** [append_queue] on a task that has an entry: the new channel comes
    last. *)
Lemma append_queue_spec st taskID s :
  Inv st → taskSSESubscribers st !! taskID = Some s →
  Inv (append_queue growcap st taskID).1
  ∧ (append_queue growcap st taskID).2 = next_chan st
  ∧ next_chan (append_queue growcap st taskID).1 = S (next_chan st)
  ∧ goroutines (append_queue growcap st taskID).1 = goroutines st
  ∧ publishers (append_queue growcap st taskID).1 = publishers st
  ∧ subscribers_of (append_queue growcap st taskID).1 taskID
      = Some (view (arrays st) s ++ [next_chan st])
  ∧ ∀ t2, t2 ≠ taskID →
      subscribers_of (append_queue growcap st taskID).1 t2 = subscribers_of st t2.
Proof.
  intros HI Hs. unfold append_queue. rewrite Hs. cbn.
  destruct (go_append _ _ _ _ _) as [[h' next'] s'] eqn:Happ. cbn.
  destruct (inv_arr _ HI _ _ Hs) as [_ Hfit].
  destruct (inv_view _ HI _ _ Hs) as [Hnd Hb].
  destruct (Inv_replace st taskID s s [next_chan st] h' next' s'
              (S (next_chan st)) (goroutines st) (publishers st))
    as (HI' & Hv & Hframe); try done.
  - apply NoDup_app. split; [done|]. split; [|apply NoDup_singleton].
    intros c Hc ->%list_elem_of_singleton. specialize (Hb _ Hc). lia.
  - intros c [Hc | ->%list_elem_of_singleton]%elem_of_app; [|lia].
    specialize (Hb _ Hc). lia.
  - lia.
  - intros g gr Hg. pose proof (inv_queue _ HI _ _ Hg). lia.
Qed.

(** The deferred removal: the registry then shows the subscribers of the
    task without the first occurrence of the queue. *)
Lemma remove_subscriber_spec st taskID q gs ps :
  Inv st →
  (∀ g gr, gs !! g = Some gr → g_queue gr < next_chan st) →
  ∀ reg' h' next', remove_subscriber growcap st taskID q = (reg', h', next') →
  let st' := {| taskSSESubscribers := reg'; arrays := h'; next_array := next';
                next_chan := next_chan st; goroutines := gs; publishers := ps |} in
  Inv st'
  ∧ subscribers_of st' taskID = remove_first q <$> subscribers_of st taskID
  ∧ ∀ t2, t2 ≠ taskID → subscribers_of st' t2 = subscribers_of st t2.
Proof.
  intros HI Hgs reg' h' next'. unfold remove_subscriber.
  assert (Hsub : ∀ t, subscribers_of st t
                      = view (arrays st) <$> taskSSESubscribers st !! t) by done.
  assert (Hsame : Inv {| taskSSESubscribers := taskSSESubscribers st;
                         arrays := arrays st; next_array := next_array st;
                         next_chan := next_chan st; goroutines := gs;
                         publishers := ps |}).
  { destruct HI. by constructor. }
  rewrite (Hsub taskID).
  destruct (taskSSESubscribers st !! taskID) as [s|] eqn:Hs; cbn.
  2:{ intros [= <- <- <-]. unfold subscribers_of. cbn. rewrite Hs. done. }
  destruct (list_find _ _) as [[i c]|] eqn:Hfind.
  2:{ intros [= <- <- <-]. unfold subscribers_of. cbn. rewrite Hs. cbn.
      by rewrite (remove_first_absent _ _ Hfind). }
  destruct (go_append _ _ _ _ _) as [[h1 next1] s1] eqn:Happ.
  intros [= <- <- <-]. cbn.
  pose proof (remove_first_found _ _ _ _ Hfind) as Hdel.
  apply list_find_Some in Hfind as (Hi%lookup_lt_Some & _ & _).
  destruct (inv_arr _ HI _ _ Hs) as [_ Hfit].
  destruct (inv_view _ HI _ _ Hs) as [Hnd Hb].
  assert (Hlen : i < len s).
  { unfold view in Hi. rewrite length_take in Hi. lia. }
  set (s0 := {| arr := arr s; len := i; cap := cap s |}) in *.
  assert (Hv : view (arrays st) s0 ++ drop (S i) (view (arrays st) s)
               = remove_first q (view (arrays st) s)).
  { rewrite <-Hdel, delete_take_drop. f_equal.
    unfold view, s0. cbn. rewrite take_take. f_equal. lia. }
  destruct (Inv_replace st taskID s s0 (drop (S i) (view (arrays st) s))
              h1 next1 s1 (next_chan st) gs ps)
    as (HI' & Hv' & Hframe); try done.
  - cbn. lia.
  - rewrite Hv. eapply sublist_NoDup; [exact Hnd | apply remove_first_sublist].
  - rewrite Hv. intros c' Hc'. apply Hb.
    eapply elem_of_sublist; [exact Hc' | apply remove_first_sublist].
  - split; [exact HI'|]. split; [|exact Hframe]. by rewrite Hv', Hv.
Qed.

Lemma setupSSEConsumer_Inv st taskID isResubscribe :
  Inv st → Inv (setupSSEConsumer growcap st taskID isResubscribe).1.
Proof.
  intros HI. unfold setupSSEConsumer.
  destruct (taskSSESubscribers st !! taskID) as [s|] eqn:Hs.
  - destruct (append_queue _ _ _) as [st' ch] eqn:Heq. cbn.
    destruct (append_queue_spec st taskID s HI Hs) as [HI' _].
    by rewrite Heq in HI'.
  - destruct isResubscribe; [done|].
    destruct (append_queue _ _ _) as [st' ch] eqn:Heq. cbn.
    destruct (Inv_new_subscriber_list st taskID HI Hs) as [HI0 _].
    assert (Hs0 : taskSSESubscribers (new_subscriber_list st taskID) !! taskID
                  = Some {| arr := next_array st; len := 0; cap := 0 |})
      by (cbn; apply lookup_insert_eq).
    destruct (append_queue_spec _ taskID _ HI0 Hs0) as [HI' _].
    by rewrite Heq in HI'.
Qed.

(** [setupSSEConsumer]: a resubscription to a task without an entry
    fails and changes nothing; every other call makes a new channel,
    returns it and registers it last for the task, leaving the other
    tasks alone. *)
Lemma setupSSEConsumer_spec st taskID isResubscribe :
  Inv st →
  let r := setupSSEConsumer growcap st taskID isResubscribe in
  (subscribers_of st taskID = None ∧ isResubscribe = true
   ∧ r = (st, inl "task not found for resubscription"))
  ∨ (r.2 = inr (next_chan st)
     ∧ goroutines r.1 = goroutines st
     ∧ next_chan r.1 = S (next_chan st)
     ∧ subscribers_of r.1 taskID
         = Some (default [] (subscribers_of st taskID) ++ [next_chan st])
     ∧ ∀ t2, t2 ≠ taskID → subscribers_of r.1 t2 = subscribers_of st t2).
Proof.
  intros HI r. subst r. unfold setupSSEConsumer.
  assert (Hsub : subscribers_of st taskID
                 = view (arrays st) <$> taskSSESubscribers st !! taskID) by done.
  destruct (taskSSESubscribers st !! taskID) as [s|] eqn:Hs.
  - right. destruct (append_queue_spec st taskID s HI Hs)
      as (_ & Hq & Hnc & Hgs & _ & Hv & Hframe).
    destruct (append_queue _ _ _) as [st' ch]. cbn in *.
    rewrite Hsub. cbn. subst ch. done.
  - destruct isResubscribe; [by left|]. right.
    destruct (Inv_new_subscriber_list st taskID HI Hs) as [HI0 Hframe0].
    assert (Hs0 : taskSSESubscribers (new_subscriber_list st taskID) !! taskID
                  = Some {| arr := next_array st; len := 0; cap := 0 |})
      by (cbn; apply lookup_insert_eq).
    destruct (append_queue_spec _ taskID _ HI0 Hs0)
      as (_ & Hq & Hnc & Hgs & _ & Hv & Hframe).
    destruct (append_queue _ _ _) as [st' ch]. cbn in *.
    rewrite Hsub. cbn. subst ch. repeat split; try done.
    intros t2 Hne. by rewrite Hframe, Hframe0.
Qed.

Lemma Inv_goroutines st gs ps :
  Inv st →
  (∀ g gr, gs !! g = Some gr → g_queue gr < next_chan st) →
  Inv {| taskSSESubscribers := taskSSESubscribers st; arrays := arrays st;
         next_array := next_array st; next_chan := next_chan st;
         goroutines := gs; publishers := ps |}.
Proof. intros [] ?. by constructor. Qed.

Lemma step_Inv a st st' : Inv st → step growcap a st = Some st' → Inv st'.
Proof.
  intros HI. destruct a as [t r | rid t q | t ev | p | p g | g | g]; cbn.
  - intros [= <-]. by apply setupSSEConsumer_Inv.
  - case_decide; [|done]. intros [= <-]. apply Inv_goroutines; [done|].
    intros g gr [[_ Hg] | [_ <-]]%lookup_snoc_Some; [|done].
    exact (inv_queue _ HI _ _ Hg).
  - intros [= <-]. apply Inv_goroutines; [done | apply (inv_queue _ HI)].
  - unfold enqueueEventsForSSE_step. destruct (publishers st !! p) as [pub|]; cbn; [|done].
    destruct (pub_at pub) as [|s i|s i c|]; try done.
    + destruct (taskSSESubscribers st !! pub_task pub); intros [= <-];
        (apply Inv_goroutines; [done | apply (inv_queue _ HI)]).
    + case_decide.
      * destruct (arrays st !! arr s) as [a|]; cbn; [|done].
        destruct (a !! i); cbn; [|done]. intros [= <-].
        apply Inv_goroutines; [done | apply (inv_queue _ HI)].
      * intros [= <-]. apply Inv_goroutines; [done | apply (inv_queue _ HI)].
  - unfold handoff. destruct (publishers st !! p) as [pub|]; cbn; [|done].
    destruct (goroutines st !! g) as [gr|] eqn:Hg; cbn; [|done].
    destruct (pub_at pub) as [|s i|s i c|]; try done.
    destruct (g_at gr); try done. case_decide; [|done].
    destruct (dequeueEventsForSSE_iteration _ _) as [resp brk]. intros [= <-].
    apply Inv_goroutines; [done|].
    intros g' gr' [(-> & <- & _) | [_ Hg']]%list_lookup_insert_Some; cbn.
    + exact (inv_queue _ HI _ _ Hg).
    + exact (inv_queue _ HI _ _ Hg').
  - unfold responseChan_receive.
    destruct (goroutines st !! g) as [gr|] eqn:Hg; cbn; [|done].
    destruct (g_at gr); try done. intros [= <-].
    apply Inv_goroutines; [done|].
    intros g' gr' [(-> & <- & _) | [_ Hg']]%list_lookup_insert_Some; cbn.
    + exact (inv_queue _ HI _ _ Hg).
    + exact (inv_queue _ HI _ _ Hg').
  - unfold dequeueEventsForSSE_deferred. destruct (goroutines st !! g) as [gr|] eqn:Hg; cbn; [|done].
    destruct (g_at gr); try done.
    destruct (remove_subscriber _ _ _ _) as [[reg' h'] next'] eqn:Hrm.
    intros [= <-].
    eapply (remove_subscriber_spec st (g_taskID gr) (g_queue gr)); [done | | exact Hrm].
    intros g' gr' [(-> & <- & _) | [_ Hg']]%list_lookup_insert_Some; cbn.
    + exact (inv_queue _ HI _ _ Hg).
    + exact (inv_queue _ HI _ _ Hg').
Qed.

Lemma run_Inv sched st st' : Inv st → run growcap sched st = Some st' → Inv st'.
Proof.
  revert st. induction sched as [|a sched IH]; intros st HI; cbn.
  - by intros [= <-].
  - destruct (step growcap a st) as [st1|] eqn:Hstep; cbn; [|done].
    apply IH. by eapply step_Inv.
Qed.

Lemma reachable_Inv st : reachable growcap st → Inv st.
Proof. intros [sched Hrun]. eapply run_Inv; [apply Inv_init | exact Hrun]. Qed.

(** The deferred functions of a goroutine that has left its loop can
    run, and this is what they do. *)
Lemma dequeueEventsForSSE_deferred_spec st g gr :
  Inv st → goroutines st !! g = Some gr → g_at gr = Deferred →
  ∃ st' gr',
    step growcap (RunDeferred g) st = Some st'
    ∧ goroutines st' !! g = Some gr'
    ∧ g_queue gr' = g_queue gr ∧ g_taskID gr' = g_taskID gr
    ∧ responses gr' = responses gr
    ∧ g_at gr' = Returned ∧ closed gr' = true
    ∧ subscribers_of st' (g_taskID gr)
        = remove_first (g_queue gr) <$> subscribers_of st (g_taskID gr)
    ∧ ¬ registered st' (g_taskID gr) (g_queue gr).
Proof.
  intros HI Hg Hat. cbn. unfold dequeueEventsForSSE_deferred. rewrite Hg. cbn. rewrite Hat.
  destruct (remove_subscriber _ _ _ _) as [[reg' h'] next'] eqn:Hrm.
  set (gr' := {| g_requestID := g_requestID gr; g_taskID := g_taskID gr;
                 g_queue := g_queue gr; g_at := Returned;
                 responses := responses gr; closed := true |}).
  destruct (remove_subscriber_spec st (g_taskID gr) (g_queue gr)
              (<[g := gr']> (goroutines st)) (publishers st) HI)
    with (reg' := reg') (h' := h') (next' := next') as (HI' & Hv & _);
    [|exact Hrm|].
  { intros g' x [(-> & <- & _) | [_ Hg']]%list_lookup_insert_Some; cbn.
    - exact (inv_queue _ HI _ _ Hg).
    - exact (inv_queue _ HI _ _ Hg'). }
  eexists _, gr'. split; [reflexivity|]. cbn.
  split; [apply list_lookup_insert_eq; by eapply lookup_lt_Some|].
  repeat split; [exact Hv|].
  intros (v & Hsome & Hin). rewrite Hv in Hsome.
  unfold subscribers_of in Hsome.
  destruct (taskSSESubscribers st !! g_taskID gr) as [s|] eqn:Hs; [|done].
  cbn in Hsome. injection Hsome as <-.
  destruct (inv_view _ HI _ _ Hs) as [Hnd _].
  by eapply remove_first_NoDup.
Qed.

(** Nothing can be handed to a goroutine that is not receiving. *)
Lemma handoff_needs_receiver st p g gr :
  goroutines st !! g = Some gr → g_at gr ≠ Receiving →
  step growcap (Handoff p g) st = None.
Proof.
  intros Hg Hat. cbn. unfold handoff.
  destruct (publishers st !! p) as [pub|]; cbn; [|done]. rewrite Hg. cbn.
  destruct (pub_at pub); try done. by destruct (g_at gr).
Qed.

Lemma step_finished a st st' g q taskID rs :
  Inv st → finished g q taskID rs st →
  step growcap a st = Some st' → finished g q taskID rs st'.
Proof.
  intros HI (gr & Hg & Hq & Ht & Hrs & Hat) Hstep.
  assert (Hkeep : goroutines st' !! g = Some gr →
            (∀ t, subscribers_of st' t = subscribers_of st t) →
            finished g q taskID rs st').
  { intros Hg' Hsame. exists gr. repeat split; try done.
    destruct Hat as [? | (? & ? & Hnot)]; [by left | right].
    repeat split; try done. unfold registered. by rewrite Hsame. }
  destruct a as [t r | rid t q' | t ev | p | p g' | g' | g']; cbn in Hstep.
  - injection Hstep as <-.
    destruct (setupSSEConsumer_spec st t r HI)
      as [(_ & _ & Heq) | (_ & Hgs & _ & Hv & Hframe)];
      [rewrite Heq in Hkeep |- *; by apply Hkeep|].
    exists gr. rewrite Hgs. repeat split; try done.
    destruct Hat as [? | (? & ? & Hnot)]; [by left | right].
    repeat split; try done. intros (v & Hsome & Hin). apply Hnot.
    destruct (decide (taskID = t)) as [-> | Hne].
    + rewrite Hv in Hsome. injection Hsome as <-.
      apply elem_of_app in Hin as [Hin | Hin%list_elem_of_singleton].
      * destruct (subscribers_of st t) as [v|] eqn:Hst;
          [|by apply elem_of_nil in Hin].
        exists v. by split.
      * pose proof (inv_queue _ HI _ _ Hg). lia.
    + rewrite Hframe in Hsome by done. by exists v.
  - case_decide; [|done]. injection Hstep as <-. apply Hkeep; [|done].
    cbn. by apply lookup_app_l_Some.
  - injection Hstep as <-. by apply Hkeep.
  - unfold enqueueEventsForSSE_step in Hstep.
    destruct (publishers st !! p) as [pub|]; cbn in Hstep; [|done].
    destruct (pub_at pub) as [|s i|s i c|]; try done.
    + destruct (taskSSESubscribers st !! pub_task pub);
        injection Hstep as <-; by apply Hkeep.
    + case_decide.
      * destruct (arrays st !! arr s) as [a|]; cbn in Hstep; [|done].
        destruct (a !! i); cbn in Hstep; [|done].
        injection Hstep as <-. by apply Hkeep.
      * injection Hstep as <-. by apply Hkeep.
  - destruct (decide (g' = g)) as [-> | Hne].
    + assert (Hno : step growcap (Handoff p g) st = None).
      { apply (handoff_needs_receiver st p g gr Hg).
        destruct Hat as [-> | (-> & _)]; done. }
      cbn in Hno. congruence.
    + unfold handoff in Hstep.
      destruct (publishers st !! p) as [pub|]; cbn in Hstep; [|done].
      destruct (goroutines st !! g') as [gr'|]; cbn in Hstep; [|done].
      destruct (pub_at pub) as [|s i|s i c|]; try done.
      destruct (g_at gr'); try done. case_decide; [|done].
      destruct (dequeueEventsForSSE_iteration _ _) as [resp brk].
      injection Hstep as <-. apply Hkeep; [|done].
      cbn. by rewrite list_lookup_insert_ne.
  - unfold responseChan_receive in Hstep.
    destruct (goroutines st !! g') as [gr'|] eqn:Hg'; cbn in Hstep; [|done].
    destruct (g_at gr') as [|resp brk| |] eqn:Hat'; try done.
    injection Hstep as <-. apply Hkeep; [|done].
    cbn. rewrite list_lookup_insert_ne; [done|].
    intros ->. rewrite Hg in Hg'. injection Hg' as <-.
    destruct Hat as [Hat | (Hat & _)]; congruence.
  - destruct (decide (g' = g)) as [-> | Hne].
    + destruct Hat as [Hat | (Hat & _)].
      * destruct (dequeueEventsForSSE_deferred_spec st g gr HI Hg Hat)
          as (st1 & gr1 & Hstep1 & Hg1 & ? & ? & ? & ? & ? & _ & Hnot).
        cbn in Hstep1. rewrite Hstep in Hstep1. injection Hstep1 as <-.
        exists gr1. repeat split; try congruence.
        right. repeat split; try done. by rewrite <-Hq, <-Ht.
      * unfold dequeueEventsForSSE_deferred in Hstep. rewrite Hg in Hstep. cbn in Hstep.
        by rewrite Hat in Hstep.
    + unfold dequeueEventsForSSE_deferred in Hstep.
      destruct (goroutines st !! g') as [gr'|] eqn:Hg'; cbn in Hstep; [|done].
      destruct (g_at gr'); try done.
      destruct (remove_subscriber _ _ _ _) as [[reg' h'] next'] eqn:Hrm.
      injection Hstep as <-.
      destruct (remove_subscriber_spec st (g_taskID gr') (g_queue gr')
                  (goroutines st) (publishers st) HI (inv_queue _ HI)
                  _ _ _ Hrm) as (_ & Hv & Hframe).
      exists gr. cbn. rewrite list_lookup_insert_ne by done.
      repeat split; try done.
      destruct Hat as [? | (? & ? & Hnot)]; [by left | right].
      repeat split; try done. intros (v & Hsome & Hin). apply Hnot.
      unfold registered, subscribers_of in *. cbn in *.
      destruct (decide (taskID = g_taskID gr')) as [-> | Hne'].
      * rewrite Hv in Hsome.
        destruct (taskSSESubscribers st !! g_taskID gr') as [s|]; [|done].
        cbn in *. injection Hsome as <-. eexists. split; [done|].
        eapply elem_of_sublist; [exact Hin | apply remove_first_sublist].
      * rewrite Hframe in Hsome by done. by exists v.
Qed.

Lemma run_finished sched st st' g q taskID rs :
  Inv st → finished g q taskID rs st →
  run growcap sched st = Some st' → finished g q taskID rs st'.
Proof.
  revert st. induction sched as [|a sched IH]; intros st HI Hfin; cbn.
  - by intros [= <-].
  - destruct (step growcap a st) as [st1|] eqn:Hstep; cbn; [|done].
    apply IH; [by eapply step_Inv | by eapply step_finished].
Qed.

(** A goroutine blocked in its send stays as it is until the reader of
    its [responseChan] takes the response. *)
Lemma step_blocked a st st' g gr resp brk :
  Inv st → goroutines st !! g = Some gr → g_at gr = Sending resp brk →
  step growcap a st = Some st' → a ≠ Read g →
  goroutines st' !! g = Some gr.
Proof.
  intros HI Hg Hat Hstep Hne.
  destruct a as [t r | rid t q' | t ev | p | p g' | g' | g']; cbn in Hstep.
  - injection Hstep as <-.
    destruct (setupSSEConsumer_spec st t r HI) as [(_ & _ & ->) | (_ & -> & _)];
      done.
  - case_decide; [|done]. injection Hstep as <-. cbn. by apply lookup_app_l_Some.
  - by injection Hstep as <-.
  - unfold enqueueEventsForSSE_step in Hstep.
    destruct (publishers st !! p) as [pub|]; cbn in Hstep; [|done].
    destruct (pub_at pub) as [|s i|s i c|]; try done.
    + by destruct (taskSSESubscribers st !! pub_task pub); injection Hstep as <-.
    + case_decide.
      * destruct (arrays st !! arr s) as [a|]; cbn in Hstep; [|done].
        destruct (a !! i); cbn in Hstep; [|done]. by injection Hstep as <-.
      * by injection Hstep as <-.
  - unfold handoff in Hstep.
    destruct (publishers st !! p) as [pub|]; cbn in Hstep; [|done].
    destruct (goroutines st !! g') as [gr'|] eqn:Hg'; cbn in Hstep; [|done].
    destruct (pub_at pub) as [|s i|s i c|]; try done.
    destruct (g_at gr') eqn:Hat'; try done. case_decide; [|done].
    destruct (dequeueEventsForSSE_iteration _ _) as [resp' brk'].
    injection Hstep as <-. cbn. rewrite list_lookup_insert_ne; [done|].
    intros ->. congruence.
  - unfold responseChan_receive in Hstep.
    destruct (goroutines st !! g') as [gr'|] eqn:Hg'; cbn in Hstep; [|done].
    destruct (g_at gr'); try done.
    injection Hstep as <-. cbn. rewrite list_lookup_insert_ne; [done|].
    intros ->. by apply Hne.
  - unfold dequeueEventsForSSE_deferred in Hstep.
    destruct (goroutines st !! g') as [gr'|] eqn:Hg'; cbn in Hstep; [|done].
    destruct (g_at gr') eqn:Hat'; try done.
    destruct (remove_subscriber _ _ _ _) as [[reg' h'] next'].
    injection Hstep as <-. cbn. rewrite list_lookup_insert_ne; [done|].
    intros ->. congruence.
Qed.

Lemma run_blocked sched st st' g gr resp brk :
  Inv st → goroutines st !! g = Some gr → g_at gr = Sending resp brk →
  Forall (λ a, a ≠ Read g) sched →
  run growcap sched st = Some st' →
  goroutines st' !! g = Some gr.
Proof.
  revert st. induction sched as [|a sched IH]; intros st HI Hg Hat Hno; cbn.
  - by intros [= <-].
  - apply Forall_cons in Hno as [Hne Hno].
    destruct (step growcap a st) as [st1|] eqn:Hstep; cbn; [|done].
    apply IH; [by eapply step_Inv | by eapply step_blocked | done | done].
Qed.

(** The reader can take the response of a goroutine blocked in its
    send, and this is what the goroutine does then. *)
Lemma responseChan_receive_spec st g gr resp brk :
  goroutines st !! g = Some gr → g_at gr = Sending resp brk →
  ∃ st' gr',
    step growcap (Read g) st = Some st'
    ∧ goroutines st' !! g = Some gr'
    ∧ g_queue gr' = g_queue gr ∧ g_taskID gr' = g_taskID gr
    ∧ g_at gr' = (if brk then Deferred else Receiving)
    ∧ responses gr' = responses gr ++ [resp]
    ∧ closed gr' = closed gr
    ∧ ∀ t, subscribers_of st' t = subscribers_of st t.
Proof.
  intros Hg Hat. cbn. unfold responseChan_receive. rewrite Hg. cbn. rewrite Hat.
  eexists _, _. split; [reflexivity|]. cbn.
  split; [apply list_lookup_insert_eq; by eapply lookup_lt_Some|]. done.
Qed.

Lemma step_ending a st st' g q taskID rs resp :
  Inv st → ending g q taskID rs resp st →
  step growcap a st = Some st' → ending g q taskID rs resp st'.
Proof.
  intros HI [(gr & Hg & Hq & Ht & Hat & Hrs & Hcl) | Hfin] Hstep;
    [|right; by eapply step_finished].
  assert (Hstay : a ≠ Read g → ending g q taskID rs resp st').
  { intros Hne. left. exists gr. split; [|done]. by eapply step_blocked. }
  destruct a as [t r | rid t q' | t ev | p | p g' | g' | g']; try by apply Hstay.
  destruct (decide (g' = g)) as [-> | Hne]; [|apply Hstay; congruence].
  destruct (responseChan_receive_spec st g gr resp true Hg Hat)
    as (st1 & gr1 & Hstep1 & Hg1 & Hq1 & Ht1 & Hat1 & Hrs1 & _).
  rewrite Hstep in Hstep1. injection Hstep1 as <-.
  right. exists gr1. repeat split; try congruence. by left.
Qed.

Lemma run_ending sched st st' g q taskID rs resp :
  Inv st → ending g q taskID rs resp st →
  run growcap sched st = Some st' → ending g q taskID rs resp st'.
Proof.
  revert st. induction sched as [|a sched IH]; intros st HI Hend; cbn.
  - by intros [= <-].
  - destruct (step growcap a st) as [st1|] eqn:Hstep; cbn; [|done].
    apply IH; [by eapply step_Inv | by eapply step_ending].
Qed.

Lemma step_closed_only_returned a st st' :
  closed_only_returned st → step growcap a st = Some st' →
  closed_only_returned st'.
Proof.
  intros Hc Hstep.
  assert (Hsame : goroutines st' = goroutines st → closed_only_returned st').
  { intros Heq g gr. rewrite Heq. apply Hc. }
  destruct a as [t r | rid t q' | t ev | p | p g' | g' | g']; cbn in Hstep.
  - injection Hstep as <-. apply Hsame. unfold setupSSEConsumer.
    destruct (taskSSESubscribers st !! t); [|destruct r; [done|]];
      unfold append_queue; by destruct (go_append _ _ _ _ _) as [[? ?] ?].
  - case_decide; [|done]. injection Hstep as <-.
    intros g gr [[_ Hg] | [_ <-]]%lookup_snoc_Some; [exact (Hc _ _ Hg) | done].
  - injection Hstep as <-. by apply Hsame.
  - unfold enqueueEventsForSSE_step in Hstep.
    destruct (publishers st !! p) as [pub|]; cbn in Hstep; [|done].
    destruct (pub_at pub) as [|s i|s i c|]; try done.
    + by destruct (taskSSESubscribers st !! pub_task pub);
        injection Hstep as <-; apply Hsame.
    + case_decide.
      * destruct (arrays st !! arr s) as [a|]; cbn in Hstep; [|done].
        destruct (a !! i); cbn in Hstep; [|done].
        injection Hstep as <-. by apply Hsame.
      * injection Hstep as <-. by apply Hsame.
  - unfold handoff in Hstep.
    destruct (publishers st !! p) as [pub|]; cbn in Hstep; [|done].
    destruct (goroutines st !! g') as [gr'|] eqn:Hg'; cbn in Hstep; [|done].
    destruct (pub_at pub) as [|s i|s i c|]; try done.
    destruct (g_at gr') eqn:Hat'; try done. case_decide; [|done].
    destruct (dequeueEventsForSSE_iteration _ _) as [resp' brk'].
    injection Hstep as <-.
    intros g gr [(-> & <- & _) | [_ Hg]]%list_lookup_insert_Some; cbn;
      [|exact (Hc _ _ Hg)].
    intros Hcl. specialize (Hc _ _ Hg' Hcl). congruence.
  - unfold responseChan_receive in Hstep.
    destruct (goroutines st !! g') as [gr'|] eqn:Hg'; cbn in Hstep; [|done].
    destruct (g_at gr') eqn:Hat'; try done.
    injection Hstep as <-.
    intros g gr [(-> & <- & _) | [_ Hg]]%list_lookup_insert_Some; cbn;
      [|exact (Hc _ _ Hg)].
    intros Hcl. specialize (Hc _ _ Hg' Hcl). congruence.
  - unfold dequeueEventsForSSE_deferred in Hstep.
    destruct (goroutines st !! g') as [gr'|] eqn:Hg'; cbn in Hstep; [|done].
    destruct (g_at gr') eqn:Hat'; try done.
    destruct (remove_subscriber _ _ _ _) as [[reg' h'] next'].
    injection Hstep as <-.
    intros g gr [(-> & <- & _) | [_ Hg]]%list_lookup_insert_Some; cbn;
      [done | exact (Hc _ _ Hg)].
Qed.

Lemma reachable_closed_only_returned sched st :
  run growcap sched init = Some st → closed_only_returned st.
Proof.
  assert (Hgen : ∀ sched st0 st1, closed_only_returned st0 →
            run growcap sched st0 = Some st1 → closed_only_returned st1).
  { clear. induction sched as [|a sched IH]; intros st0 st1 Hc; cbn.
    - by intros [= <-].
    - destruct (step growcap a st0) as [st'|] eqn:Hstep; cbn; [|done].
      apply IH. by eapply step_closed_only_returned. }
  apply Hgen. intros g gr Hg. change (goroutines init) with (@nil goroutine) in Hg.
  by rewrite lookup_nil in Hg.
Qed.

(** The hand-off of an event after which the loop breaks. *)
Lemma handoff_breaking sched st p g pub gr subscribers i resp :
  run growcap sched init = Some st →
  publishers st !! p = Some pub →
  goroutines st !! g = Some gr →
  pub_at pub = PubSend subscribers i (g_queue gr) →
  g_queue gr ≠ nil_chan →
  g_at gr = Receiving →
  dequeueEventsForSSE_iteration (g_requestID gr) (pub_event pub) = (resp, true) →
  ∃ st1,
    step growcap (Handoff p g) st = Some st1
    ∧ Inv st1
    ∧ blocked_sending g (g_queue gr) (g_taskID gr) (responses gr) resp st1.
Proof.
  intros Hrun Hp Hg Hpub Hnil Hrecv Hit.
  assert (HI : Inv st) by (apply reachable_Inv; by exists sched).
  assert (Hcl : closed gr = false).
  { destruct (closed gr) eqn:Hcl; [|done].
    pose proof (reachable_closed_only_returned sched st Hrun g gr Hg Hcl).
    congruence. }
  assert (Hstep : ∃ st1, step growcap (Handoff p g) st = Some st1
            ∧ blocked_sending g (g_queue gr) (g_taskID gr) (responses gr) resp st1).
  { cbn. unfold handoff. rewrite Hp, Hg. cbn. rewrite Hpub, Hrecv, Hit.
    rewrite decide_True by done.
    eexists. split; [reflexivity|]. eexists. cbn.
    split; [apply list_lookup_insert_eq; by eapply lookup_lt_Some|]. done. }
  destruct Hstep as (st1 & Hstep & Hbl). exists st1.
  split; [done|]. split; [by eapply step_Inv | done].
Qed.

(** What [ending] means for the steps of the goroutine: nothing can be
    handed to it; while it is blocked in its send, its deferred functions
    cannot run and the reader can take the response, after which it has
    left its loop; once it has left its loop, its deferred functions run
    once, close [responseChan] and remove the queue from the registry. *)
Lemma ending_spec st g q taskID rs resp :
  Inv st → ending g q taskID rs resp st →
  (∀ p', step growcap (Handoff p' g) st = None)
  ∧ ∃ gr2,
      goroutines st !! g = Some gr2
      ∧ ((g_at gr2 = Sending resp true
          ∧ responses gr2 = rs ∧ closed gr2 = false
          ∧ step growcap (RunDeferred g) st = None
          ∧ ∃ st3 gr3,
              step growcap (Read g) st = Some st3
              ∧ goroutines st3 !! g = Some gr3
              ∧ g_at gr3 = Deferred ∧ responses gr3 = rs ++ [resp])
         ∨ (g_at gr2 = Deferred
            ∧ responses gr2 = rs ++ [resp]
            ∧ step growcap (Read g) st = None
            ∧ ∃ st3 gr3,
                step growcap (RunDeferred g) st = Some st3
                ∧ goroutines st3 !! g = Some gr3
                ∧ g_at gr3 = Returned ∧ closed gr3 = true
                ∧ responses gr3 = rs ++ [resp]
                ∧ subscribers_of st3 taskID
                    = remove_first q <$> subscribers_of st taskID
                ∧ ¬ registered st3 taskID q)
         ∨ (g_at gr2 = Returned
            ∧ responses gr2 = rs ++ [resp]
            ∧ closed gr2 = true
            ∧ ¬ registered st taskID q
            ∧ step growcap (Read g) st = None
            ∧ step growcap (RunDeferred g) st = None)).
Proof.
  intros HI [(gr2 & Hg2 & Hq & Ht & Hat & Hrs & Hcl) | (gr2 & Hg2 & Hq & Ht & Hrs & Hat)].
  - split.
    { intros p'. apply (handoff_needs_receiver st p' g gr2 Hg2). by rewrite Hat. }
    exists gr2. split; [done|]. left. repeat split; try done.
    + cbn. unfold dequeueEventsForSSE_deferred. rewrite Hg2. cbn. by rewrite Hat.
    + destruct (responseChan_receive_spec st g gr2 resp true Hg2 Hat)
        as (st3 & gr3 & ? & ? & _ & _ & ? & ? & _).
      exists st3, gr3. repeat split; congruence.
  - split.
    { intros p'. apply (handoff_needs_receiver st p' g gr2 Hg2).
      destruct Hat as [-> | (-> & _)]; done. }
    exists gr2. split; [done|]. right.
    assert (Hread : step growcap (Read g) st = None).
    { cbn. unfold responseChan_receive. rewrite Hg2. cbn.
      destruct Hat as [-> | (-> & _)]; done. }
    destruct Hat as [Hat | (Hat & Hcl & Hnot)]; [left | right].
    + repeat split; try done.
      destruct (dequeueEventsForSSE_deferred_spec st g gr2 HI Hg2 Hat)
        as (st3 & gr3 & ? & ? & ? & ? & ? & ? & ? & Hv & Hnot).
      rewrite Hq, Ht in *. exists st3, gr3. repeat split; try done. congruence.
    + repeat split; try done.
      cbn. unfold dequeueEventsForSSE_deferred. rewrite Hg2. cbn. by rewrite Hat.
Qed.

(** ** The claims *)

(** C7, amended.  In a state the machine reaches, let a publisher hand a
    status update with [Final] set to a goroutine of
    [dequeueEventsForSSE].  The hand-off happens, and in every state the
    machine reaches from there, whatever the other threads do, nothing
    can be handed to the goroutine any more, and the goroutine is in one
    of three places.  It is blocked sending the final event on
    [responseChan]: the reader has received nothing new, [responseChan]
    is open, the deferred functions cannot run, and the reader can take
    the event, which then is the last response and takes the goroutine
    out of its loop.  Or the reader has taken the final event as the last
    response and the deferred functions are still to run: they can run,
    and then [responseChan] is closed, the registry shows the task's
    subscribers without this queue and does not show the queue.  Or they
    have run: [responseChan] is closed, the queue is not registered and
    they cannot run a second time. *)
Theorem final_status_ends_subscription sched st p g pub gr e subscribers i :
  run growcap sched init = Some st →
  publishers st !! p = Some pub →
  goroutines st !! g = Some gr →
  pub_at pub = PubSend subscribers i (g_queue gr) →
  g_queue gr ≠ nil_chan →
  g_at gr = Receiving →
  pub_event pub = StatusUpdate e →
  Final e = true →
  let final := response_to (g_requestID gr) (StatusUpdate e) in
  ∃ st1,
    step growcap (Handoff p g) st = Some st1
    ∧ ∀ sched' st2, run growcap sched' st1 = Some st2 →
        (∀ p', step growcap (Handoff p' g) st2 = None)
        ∧ ∃ gr2,
            goroutines st2 !! g = Some gr2
            ∧ ((g_at gr2 = Sending final true
                ∧ responses gr2 = responses gr ∧ closed gr2 = false
                ∧ step growcap (RunDeferred g) st2 = None
                ∧ ∃ st3 gr3,
                    step growcap (Read g) st2 = Some st3
                    ∧ goroutines st3 !! g = Some gr3
                    ∧ g_at gr3 = Deferred
                    ∧ responses gr3 = responses gr ++ [final])
               ∨ (g_at gr2 = Deferred
                  ∧ responses gr2 = responses gr ++ [final]
                  ∧ step growcap (Read g) st2 = None
                  ∧ ∃ st3 gr3,
                      step growcap (RunDeferred g) st2 = Some st3
                      ∧ goroutines st3 !! g = Some gr3
                      ∧ g_at gr3 = Returned ∧ closed gr3 = true
                      ∧ responses gr3 = responses gr ++ [final]
                      ∧ subscribers_of st3 (g_taskID gr)
                          = remove_first (g_queue gr)
                              <$> subscribers_of st2 (g_taskID gr)
                      ∧ ¬ registered st3 (g_taskID gr) (g_queue gr))
               ∨ (g_at gr2 = Returned
                  ∧ responses gr2 = responses gr ++ [final]
                  ∧ closed gr2 = true
                  ∧ ¬ registered st2 (g_taskID gr) (g_queue gr)
                  ∧ step growcap (Read g) st2 = None
                  ∧ step growcap (RunDeferred g) st2 = None)).
Proof.
  intros Hrun Hp Hg Hpub Hnil Hrecv Hev Hfinal final.
  destruct (handoff_breaking sched st p g pub gr subscribers i final
              Hrun Hp Hg Hpub Hnil Hrecv) as (st1 & Hstep & HI1 & Hbl).
  { rewrite Hev. cbn. by rewrite Hfinal. }
  exists st1. split; [exact Hstep|].
  intros sched' st2 Hrun'.
  apply ending_spec; [by eapply run_Inv|].
  eapply run_ending; [exact HI1 | by left | exact Hrun'].
Qed.

End Views.

Lemma final_status_ends_subscription_witness :
  let final := response_to "r1" final_event in
  ∃ st1,
    step growslice (Handoff 0 0) one_subscriber_state = Some st1
    ∧ ∀ sched' st2, run growslice sched' st1 = Some st2 →
        (∀ p', step growslice (Handoff p' 0) st2 = None)
        ∧ ∃ gr2,
            goroutines st2 !! 0 = Some gr2
            ∧ ((g_at gr2 = Sending final true
                ∧ responses gr2 = [] ∧ closed gr2 = false
                ∧ step growslice (RunDeferred 0) st2 = None
                ∧ ∃ st3 gr3,
                    step growslice (Read 0) st2 = Some st3
                    ∧ goroutines st3 !! 0 = Some gr3
                    ∧ g_at gr3 = Deferred
                    ∧ responses gr3 = [] ++ [final])
               ∨ (g_at gr2 = Deferred
                  ∧ responses gr2 = [] ++ [final]
                  ∧ step growslice (Read 0) st2 = None
                  ∧ ∃ st3 gr3,
                      step growslice (RunDeferred 0) st2 = Some st3
                      ∧ goroutines st3 !! 0 = Some gr3
                      ∧ g_at gr3 = Returned ∧ closed gr3 = true
                      ∧ responses gr3 = [] ++ [final]
                      ∧ subscribers_of st3 "t1"
                          = remove_first 1 <$> subscribers_of st2 "t1"
                      ∧ ¬ registered st3 "t1" 1)
               ∨ (g_at gr2 = Returned
                  ∧ responses gr2 = [] ++ [final]
                  ∧ closed gr2 = true
                  ∧ ¬ registered st2 "t1" 1
                  ∧ step growslice (Read 0) st2 = None
                  ∧ step growslice (RunDeferred 0) st2 = None)).
Proof.
  apply (final_status_ends_subscription growslice one_subscriber_schedule
           one_subscriber_state 0 0 sending_publisher receiving_goroutine
           (status_event TaskCompleted true) {| arr := 1; len := 1; cap := 1 |} 0).
  - vm_compute. reflexivity.
  - reflexivity.
  - reflexivity.
  - reflexivity.
  - discriminate.
  - reflexivity.
  - reflexivity.
  - reflexivity.
Defined.

(** C7, as stated, fails.  One subscriber is registered for t1 and a
    publisher hands the final status update to its goroutine.  The event
    has been delivered, but as long as nobody receives from
    [responseChan] the goroutine stays blocked in its send: whatever the
    other threads do, the reader has received nothing, [responseChan] is
    not closed, the deferred removal cannot run, and in the state right
    after the hand-off the queue is still registered. *)
Lemma final_event_unread_keeps_subscription :
  ∃ st1,
    run growslice (one_subscriber_schedule ++ [Handoff 0 0]) init = Some st1
    ∧ registered st1 "t1" 1
    ∧ ∀ sched' st2,
        Forall (λ a, a ≠ Read 0) sched' →
        run growslice sched' st1 = Some st2 →
        ∃ gr2,
          goroutines st2 !! 0 = Some gr2
          ∧ g_at gr2 = Sending (response_to "r1" final_event) true
          ∧ responses gr2 = []
          ∧ closed gr2 = false
          ∧ step growslice (RunDeferred 0) st2 = None.
Proof.
  assert (Hrun : ∃ st1,
            run growslice (one_subscriber_schedule ++ [Handoff 0 0]) init = Some st1
            ∧ subscribers_of st1 "t1" = Some [1]
            ∧ goroutines st1 !! 0
              = Some {| g_requestID := "r1"; g_taskID := "t1"; g_queue := 1;
                        g_at := Sending (response_to "r1" final_event) true;
                        responses := []; closed := false |}).
  { eexists. split; [vm_compute; reflexivity|]. split; reflexivity. }
  destruct Hrun as (st1 & Hrun & Hsub & Hg). exists st1.
  split; [exact Hrun|]. split.
  { exists [1]. split; [exact Hsub | by apply list_elem_of_singleton]. }
  intros sched' st2 Hno Hrun'.
  assert (HI1 : Inv st1) by (eapply run_Inv; [apply Inv_init | exact Hrun]).
  pose proof (run_blocked growslice sched' st1 st2 0 _ _ _ HI1 Hg eq_refl Hno Hrun')
    as Hg2.
  eexists. split; [exact Hg2|]. repeat split.
  cbn. unfold dequeueEventsForSSE_deferred. by rewrite Hg2.
Qed.

(** The scenario of the specification: one subscriber, a status update
    that is not final, then a final one, with a reader that takes each
    response.  The subscriber receives exactly the two events, its stream
    is then closed and the registry shows no subscriber. *)
Example scenario_two_events :
  let working := StatusUpdate (status_event TaskWorking false) in
  ∃ st gr,
    run growslice
      [Subscribe "t1" false; Spawn "r1" "t1" 1;
       Publish "t1" working; PubStep 0; PubStep 0; Handoff 0 0; Read 0;
       PubStep 0;
       Publish "t1" final_event; PubStep 1; PubStep 1; Handoff 1 0; Read 0;
       PubStep 1;
       RunDeferred 0] init = Some st
    ∧ goroutines st !! 0 = Some gr
    ∧ responses gr = [response_to "r1" working; response_to "r1" final_event]
    ∧ closed gr = true
    ∧ subscribers_of st "t1" = Some [].
Proof. do 2 eexists. split; [vm_compute; reflexivity|]. repeat split. Qed.

(** The scenario of the specification: resubscribing to a task that has
    no subscriber list fails. *)
Example scenario_resubscribe_unknown :
  setupSSEConsumer growslice init "t2" true
  = (init, inl "task not found for resubscription").
Proof. reflexivity. Qed.

(** With three subscribers and the publisher running ahead of the
    deferred removals, each subscriber receives the final event. *)
Example quiet_schedule_serves_all :
  ∃ st, run growslice quiet_schedule init = Some st
    ∧ responses <$> goroutines st
        = [[response_to "r1" final_event]; [response_to "r2" final_event];
           [response_to "r3" final_event]]
    ∧ pub_at <$> publishers st = [PubReturned]
    ∧ subscribers_of st "t1" = Some [].
Proof. eexists. split; [vm_compute; reflexivity|]. repeat split. Qed.

(** C6 fails on the code.  Three subscribers are registered for t1 and one
    final status update is published.  The first subscriber's goroutine
    runs its deferred removal, which shifts the cells of the shared
    backing array one to the left, before the publisher reads the second
    cell.  The publisher then reads the third subscriber's queue from the
    second cell and again from the third: the second subscriber (queue 2,
    goroutine 1) is still registered and still receiving but has observed
    nothing, the publisher is blocked for ever sending to a goroutine that
    has returned, and no thread can take a step.  (The readers of the
    first and third subscriber take each response as it comes.) *)
Theorem final_event_skips_subscriber :
  ∃ st0 st gr blocked,
    run growslice three_subscribers_first_served init = Some st0
    ∧ subscribers_of st0 "t1" = Some [1; 2; 3]
    ∧ run growslice racy_schedule init = Some st
    ∧ subscribers_of st "t1" = Some [2]
    ∧ goroutines st !! 1 = Some gr
    ∧ g_queue gr = 2 ∧ g_at gr = Receiving ∧ responses gr = []
    ∧ responses <$> goroutines st
        = [[response_to "r1" final_event]; []; [response_to "r3" final_event]]
    ∧ pub_at <$> publishers st = [PubSend blocked 2 3]
    ∧ g_at <$> goroutines st = [Returned; Receiving; Returned]
    ∧ ∀ p g, step growslice (PubStep p) st = None
             ∧ step growslice (Handoff p g) st = None
             ∧ step growslice (Read g) st = None
             ∧ step growslice (RunDeferred g) st = None.
Proof.
  do 4 eexists. split; [vm_compute; reflexivity|]. split; [reflexivity|].
  split; [vm_compute; reflexivity|].
  repeat split.
  - by destruct p as [|[|p]].
  - by destruct p as [|[|p]], g as [|[|[|[|g]]]].
  - by destruct g as [|[|[|[|g]]]].
  - by destruct g as [|[|[|[|g]]]].
Qed.

End SSEFacts.

(** * Properties of push-notification authentication *)
Module PushAuthFacts.
Import PushAuth.

Local Open Scope Z_scope.

(** ** int64 arithmetic and package time *)

Lemma wrap64_spec z :
  ∃ k, wrap64 z = z + 2 ^ 64 * k ∧ - 2 ^ 63 ≤ wrap64 z < 2 ^ 63.
Proof.
  unfold wrap64. exists (- ((z + 2 ^ 63) / 2 ^ 64)).
  pose proof (Z.div_mod (z + 2 ^ 63) (2 ^ 64) ltac:(lia)).
  pose proof (Z.mod_pos_bound (z + 2 ^ 63) (2 ^ 64) ltac:(lia)).
  lia.
Qed.

Lemma wrap64_id z : - 2 ^ 63 ≤ z < 2 ^ 63 → wrap64 z = z.
Proof. intros Hz. unfold wrap64. rewrite Z.mod_small; lia. Qed.

(** The seconds and nanoseconds [Add] works with are those of the floor
    division. *)
Lemma Add_floor u d :
  nsec u = 0 →
  Add u d = {| sec := addSec (sec u) (d / Second); nsec := d mod Second |}.
Proof.
  intros Hn. unfold Add. rewrite Hn.
  assert (Hs : 0 < Second) by (unfold Second; lia).
  pose proof (Z.quot_rem' d Second) as Hqr.
  pose proof (Z.div_mod d Second ltac:(lia)) as Hdm.
  pose proof (Z.mod_pos_bound d Second Hs) as Hmb.
  destruct (Z.le_gt_cases 0 d) as [Hpos | Hneg].
  - pose proof (Z.rem_bound_pos d Second Hpos Hs) as Hrb.
    rewrite (proj2 (Z.leb_gt _ _)) by lia.
    rewrite (proj2 (Z.ltb_ge _ _)) by lia.
    assert (Z.quot d Second = d / Second ∧ Z.rem d Second = d mod Second) as [-> ->].
    { unfold Second in *. nia. }
    reflexivity.
  - assert (Hle : d ≤ 0) by lia.
    pose proof (Z.rem_bound_pos_neg d Second Hs Hle) as Hrb.
    rewrite (proj2 (Z.leb_gt _ _)) by lia.
    destruct (Z.eq_dec (Z.rem d Second) 0) as [Hz | Hnz].
    + rewrite Hz. cbn [Z.add Z.ltb Z.compare].
      assert (Z.quot d Second = d / Second ∧ 0 = d mod Second) as [-> <-].
      { unfold Second in *. nia. }
      reflexivity.
    + rewrite (proj2 (Z.ltb_lt _ _)) by lia.
      assert (Z.quot d Second - 1 = d / Second
              ∧ 0 + Z.rem d Second + Second = d mod Second) as [-> ->].
      { unfold Second in *. nia. }
      reflexivity.
Qed.

(** [Sub] is the difference where it fits in a [Duration], and the
    nearest bound where it does not: the int64 difference is wrong
    exactly when adding it back does not give the first time. *)
Lemma Sub_clamp t u :
  nsec u = 0 →
  - 2 ^ 63 ≤ sec u < 2 ^ 63 →
  - 2 ^ 62 ≤ sec t ≤ 2 ^ 62 →
  0 ≤ nsec t < Second →
  Sub t u
  = Z.max minDuration (Z.min maxDuration ((sec t - sec u) * Second + nsec t)).
Proof.
  intros Hn HW HN Htn. unfold Sub. rewrite Hn, Z.sub_0_r.
  destruct (wrap64_spec (sec t - sec u)) as (k1 & H1 & _).
  destruct (wrap64_spec (wrap64 (sec t - sec u) * Second)) as (k2 & H2 & _).
  destruct (wrap64_spec (wrap64 (wrap64 (sec t - sec u) * Second) + nsec t))
    as (k3 & H3 & Hd).
  set (d := wrap64 (wrap64 (wrap64 (sec t - sec u) * Second) + nsec t)) in *.
  assert (HdE : ∃ k, d = (sec t - sec u) * Second + nsec t + 2 ^ 64 * k).
  { exists (k1 * Second + k2 + k3). rewrite H3, H2, H1. ring. }
  destruct HdE as (k & HdE).
  clear H1 H2 H3 k1 k2 k3.
  rewrite (Add_floor u d Hn). unfold Equal, Before. cbn [sec nsec].
  assert (Hs : 0 < Second) by (unfold Second; lia).
  pose proof (Z.div_mod d Second ltac:(lia)) as Hdm.
  pose proof (Z.mod_pos_bound d Second Hs) as Hmb.
  set (q := d / Second) in *. set (r := d mod Second) in *.
  unfold addSec.
  destruct (wrap64_spec (sec u + q)) as (k' & Hsum & Hsumr).
  set (sum := wrap64 (sec u + q)) in *.
  set (N := sec t) in *. set (W := sec u) in *. set (tn := nsec t) in *.
  unfold minDuration, maxDuration, Second in *.
  change (2 ^ 64) with 18446744073709551616 in *.
  change (2 ^ 63) with 9223372036854775808 in *.
  change (2 ^ 62) with 4611686018427387904 in *.
  destruct (Z.ltb_spec W sum), (Z.ltb_spec 0 q); cbn [Bool.eqb];
    destruct (Z.eqb_spec N W); cbn [andb orb];
    repeat match goal with
           | |- context [Z.eqb ?a ?b] => destruct (Z.eqb_spec a b); cbn [andb orb]
           | |- context [Z.ltb ?a ?b] => destruct (Z.ltb_spec a b); cbn [andb orb]
           end; lia.
Qed.

Lemma wall_clock_seconds now :
  wall_clock now →
  - 9223372037 ≤ now / Second ≤ 9223372036
  ∧ 0 ≤ now mod Second < Second
  ∧ now = Second * (now / Second) + now mod Second.
Proof.
  unfold wall_clock. intros Hnow.
  assert (Hs : 0 < Second) by (unfold Second; lia).
  pose proof (Z.div_mod now Second ltac:(lia)) as Hdm.
  pose proof (Z.mod_pos_bound now Second Hs) as Hmb.
  unfold Second in *. change (2 ^ 63) with 9223372036854775808 in *. lia.
Qed.

(** [Since] at a reading of the wall clock, for a second [s] that is an
    int64. *)
Lemma Since_clamp now s :
  wall_clock now →
  Since now s
  = Z.max minDuration
      (Z.min maxDuration
         ((now / Second + unixToInternal - wrap64 (s + unixToInternal)) * Second
          + now mod Second)).
Proof.
  intros Hnow. destruct (wall_clock_seconds now Hnow) as (Hq & Hr & _).
  assert (HN : wrap64 (now / Second + unixToInternal) = now / Second + unixToInternal).
  { apply wrap64_id. unfold unixToInternal.
    change (2 ^ 63) with 9223372036854775808. lia. }
  unfold Since, time_Now, time_Unix. rewrite Sub_clamp; cbn [sec nsec].
  - by rewrite HN.
  - reflexivity.
  - by destruct (wrap64_spec (s + unixToInternal)) as (k & _ & ?).
  - rewrite HN. unfold unixToInternal.
    change (2 ^ 62) with 4611686018427387904. lia.
  - exact Hr.
Qed.

(** When [time.Unix] does not wrap, [Since] is the difference of the
    instants, cut to a [Duration]. *)
Lemma Since_fits now s :
  wall_clock now → - 2 ^ 63 ≤ s + unixToInternal < 2 ^ 63 →
  Since now s = Z.max minDuration (Z.min maxDuration (now - s * Second)).
Proof.
  intros Hnow Hs. rewrite (Since_clamp now s Hnow), (wrap64_id _ Hs).
  destruct (wall_clock_seconds now Hnow) as (_ & _ & Hdm).
  do 2 f_equal. unfold Second in *. lia.
Qed.

(** When it wraps, the time lies far in the past and [Since] is the
    largest [Duration]. *)
Lemma Since_wraps now s :
  wall_clock now → 2 ^ 63 ≤ s + unixToInternal → s < 2 ^ 63 →
  Since now s = maxDuration.
Proof.
  intros Hnow Hs Hi. rewrite (Since_clamp now s Hnow).
  destruct (wall_clock_seconds now Hnow) as (Hq & Hr & _).
  destruct (wrap64_spec (s + unixToInternal)) as (k & Hk & Hw).
  unfold minDuration, maxDuration, unixToInternal, Second in *.
  change (2 ^ 64) with 18446744073709551616 in *.
  change (2 ^ 63) with 9223372036854775808 in *. lia.
Qed.

Lemma expired_iff now s :
  wall_clock now → - 2 ^ 63 ≤ s + unixToInternal < 2 ^ 63 →
  (5 * Minute <? Since now s) = true ↔ 5 * Minute < now - s * Second.
Proof.
  intros Hnow Hs. rewrite (Since_fits now s Hnow Hs), Z.ltb_lt.
  unfold maxDuration, minDuration, Minute, Second.
  change (2 ^ 63) with 9223372036854775808. lia.
Qed.

Lemma fresh_iff now s :
  wall_clock now → - 2 ^ 63 ≤ s + unixToInternal < 2 ^ 63 →
  (5 * Minute <? Since now s) = false ↔ now - s * Second ≤ 5 * Minute.
Proof.
  intros Hnow Hs. rewrite (Since_fits now s Hnow Hs), Z.ltb_ge.
  unfold maxDuration, minDuration, Minute, Second.
  change (2 ^ 63) with 9223372036854775808. lia.
Qed.

(** The second of a reading of the wall clock is far from the ends of
    int64, and small enough to be a float64. *)
Lemma Unix_bounds now :
  wall_clock now →
  Z.abs (Unix now) < 2 ^ 52
  ∧ - 2 ^ 63 ≤ Unix now + unixToInternal < 2 ^ 63.
Proof.
  intros Hnow. destruct (wall_clock_seconds now Hnow) as (Hq & _ & _).
  unfold Unix, unixToInternal.
  change (2 ^ 63) with 9223372036854775808.
  change (2 ^ 52) with 4503599627370496. lia.
Qed.

(** An integer below 2^52 in magnitude is a float64, and the conversion
    back to int64 returns it. *)
Lemma nearest_float64_small z :
  Z.abs z < 2 ^ 52 →
  nearest_float64 z = Finite z 0 ∧ float64_int64 (nearest_float64 z) = Some z.
Proof.
  intros Hz.
  assert (Hk : (Z.log2 (Z.abs z) - 52 <=? 0) = true).
  { apply Z.leb_le. destruct (Z.eq_dec (Z.abs z) 0) as [-> | Hne]; [cbn; lia|].
    assert (Z.log2 (Z.abs z) < 52); [|lia].
    apply Z.log2_lt_pow2; lia. }
  unfold nearest_float64. rewrite Hk. split; [done|].
  unfold float64_int64. change (0 <=? 0) with true. cbv iota.
  replace (z * 2 ^ 0) with z by (change (2 ^ 0) with 1; lia).
  assert (in_int64 z = true) as ->; [|done].
  change (2 ^ 52) with 4503599627370496 in Hz.
  unfold in_int64. change (2 ^ 63) with 9223372036854775808.
  apply andb_true_intro. split; [apply Z.leb_le | apply Z.ltb_lt]; lia.
Qed.

Lemma bearer_prefix tok :
  HasPrefix ("Bearer " ++ tok)%string "Bearer " = true
  ∧ TrimPrefix ("Bearer " ++ tok)%string "Bearer " = tok.
Proof. split; reflexivity. Qed.

(** The endpoint echoes a token that arrives in the [Validation-Token]
    header. *)
Lemma handleValidationCheck_echoes r token :
  Method r = "GET" → Header r !! "Validation-Token" = Some token →
  token ≠ EmptyString →
  handleValidationCheck r
  = {| StatusCode := StatusOK;
       RespHeader := {[ "Content-Type" := "text/plain" ]};
       RespBody := token |}.
Proof.
  intros Hm Hh Hne. unfold handleValidationCheck, HeaderGet.
  rewrite Hm, Hh. cbn. destruct (String.eqb_spec token EmptyString); done.
Qed.

(** [VerifyPushNotificationURL] answers true only when the response
    body is the token it issued, and false on a transport error. *)
Lemma challenge_true_only_on_echo http_Get url validationToken :
  (VerifyPushNotificationURL http_Get url validationToken = true →
     ∃ resp, http_Get (url ++ "?validationToken=" ++ validationToken)%string
               = inr resp
             ∧ RespBody resp = validationToken)
  ∧ (∀ err, http_Get (url ++ "?validationToken=" ++ validationToken)%string
              = inl err →
       VerifyPushNotificationURL http_Get url validationToken = false).
Proof.
  unfold VerifyPushNotificationURL. split.
  - destruct (http_Get _) as [err|resp]; [done|].
    intros Heq%String.eqb_eq. by exists resp.
  - intros err ->. reflexivity.
Qed.

Section WithLib.
Context {L : Lib}.

Lemma int64_of_float64_fits f z :
  float64_int64 f = Some z → int64_of_float64 f = z ∧ - 2 ^ 63 ≤ z < 2 ^ 63.
Proof.
  unfold int64_of_float64. intros Hf. rewrite Hf. split; [done|].
  unfold float64_int64 in Hf. destruct f as [m e| |]; try done.
  destruct (in_int64 _) eqn:Hin; [|done]. injection Hf as <-.
  unfold in_int64 in Hin. apply andb_prop in Hin as [?%Z.leb_le ?%Z.ltb_lt]. lia.
Qed.

(** What [GenerateJWT] signs. *)
Lemma GenerateJWT_claims s now data tok :
  GenerateJWT s now data = inr tok →
  ∃ buf,
    json_encode data = inr buf
    ∧ jwt_signed_string SigningMethodRS256 {[ "kid" := "example-kid" ]}
        {[ "iat" := CInt (Unix now);
           "request_body_sha256" := CString (sha256_hex buf) ]}
        (privateKey s) = inr tok.
Proof.
  unfold GenerateJWT, calculateRequestBodySHA256.
  destruct (json_encode data) as [err|buf]; [done|]. intros Hsig. by exists buf.
Qed.

(** [VerifyPushNotification] once the token has parsed. *)
Lemma VerifyPushNotification_parsed r now req tok claims iat :
  HeaderGet (Header req) "Authorization" = ("Bearer " ++ tok)%string →
  jwt_parse (keyfunc r) now tok = inr claims →
  claims !! "iat" = Some (CNumber iat) →
  VerifyPushNotification r now req
  = if 5 * Minute <? Since now (int64_of_float64 iat)
    then Return (false, Some "token expired")
    else if decide (claims !! "request_body_sha256"
                    = Some (CString
                        (calculateRequestBodySHA256 (unmarshal_body (Body req))).1))
         then Return (true, None)
         else Return (false, Some "digest mismatch").
Proof.
  intros Hh Hparse Hiat. unfold VerifyPushNotification, AuthHeaderPrefix.
  rewrite Hh. destruct (bearer_prefix tok) as [-> ->]. cbn.
  rewrite Hparse. unfold iat_expired. rewrite Hiat. reflexivity.
Qed.

(** [VerifyToken] once the token has parsed. *)
Lemma VerifyToken_parsed r now tok claims iat :
  jwt_parse (keyfunc r) now tok = inr claims →
  claims !! "iat" = Some (CNumber iat) →
  VerifyToken r now tok
  = if 5 * Minute <? Since now (int64_of_float64 iat)
    then Return (Some "token expired")
    else Return None.
Proof.
  intros Hparse Hiat. unfold VerifyToken, iat_expired.
  rewrite Hparse, Hiat. reflexivity.
Qed.

(** ** The claims *)


Context {LL : LibLaws L}.

(** The token of the sender as the receiver parses it. *)
Lemma sender_token_parsed s r t_sign t_verify payload tok :
  publicKey r = public_of (privateKey s) →
  GenerateJWT s t_sign payload = inr tok →
  ∃ buf,
    json_encode payload = inr buf
    ∧ jwt_parse (keyfunc r) t_verify tok
      = inr {[ "iat" := CNumber (nearest_float64 (Unix t_sign));
               "request_body_sha256" := CString (sha256_hex buf) ]}.
Proof.
  intros Hkey Hgen.
  destruct (GenerateJWT_claims _ _ _ _ Hgen) as (buf & Henc & Hsig).
  exists buf. split; [done|].
  assert (Hk : keyfunc r SigningMethodRS256 = inr (public_of (privateKey s)))
    by (cbn; by rewrite Hkey).
  rewrite (jwt_roundtrip _ _ _ _ (keyfunc r) t_verify Hsig Hk eq_refl eq_refl);
    [reflexivity|].
  apply map_Forall_insert_2; [done|].
  apply map_Forall_singleton. split; [done | apply sha256_hex_ascii].
Qed.

(** C1, amended.  Let the sender sign a payload at [t_sign] and let the
    receiver hold the sender's public key, both at readings of the wall
    clock.  Verification at [t_verify] of a request that carries the
    token as its Bearer credential
    - succeeds when the payload survives the trip through JSON, the body
      is the payload as [json.Marshal] writes it, and [t_verify] is at
      most five minutes after the token's [iat] (the second in which it
      was signed);
    - fails with "digest mismatch" when, within those five minutes, the
      map read from the body encodes to a text whose SHA-256 digest is
      not that of the payload's encoding;
    - fails with "token expired" when [t_verify] is more than five
      minutes after the token's [iat], whatever the body. *)
Theorem sign_then_verify (s : PushNotificationSenderAuth)
    (r : PushNotificationReceiverAuth) (t_sign t_verify : Z) (payload : Payload)
    (tok : string) :
  publicKey r = public_of (privateKey s) →
  wall_clock t_sign → wall_clock t_verify →
  GenerateJWT s t_sign payload = inr tok →
  (∀ req,
     HeaderGet (Header req) "Authorization" = ("Bearer " ++ tok)%string →
     survives_json payload →
     json_marshal payload = inr (Body req) →
     t_verify - Unix t_sign * Second ≤ 5 * Minute →
     VerifyPushNotification r t_verify req = Return (true, None))
  ∧ (∀ req signed received,
       HeaderGet (Header req) "Authorization" = ("Bearer " ++ tok)%string →
       json_encode payload = inr signed →
       json_encode (unmarshal_body (Body req)) = inr received →
       sha256_hex received ≠ sha256_hex signed →
       t_verify - Unix t_sign * Second ≤ 5 * Minute →
       VerifyPushNotification r t_verify req
       = Return (false, Some "digest mismatch"))
  ∧ (∀ req,
       HeaderGet (Header req) "Authorization" = ("Bearer " ++ tok)%string →
       5 * Minute < t_verify - Unix t_sign * Second →
       VerifyPushNotification r t_verify req
       = Return (false, Some "token expired")).
Proof.
  intros Hkey Hsign Hverify Hgen.
  destruct (sender_token_parsed s r t_sign t_verify payload tok Hkey Hgen)
    as (buf & Henc & Hparse).
  destruct (Unix_bounds t_sign Hsign) as [Hsmall Hfits].
  destruct (nearest_float64_small _ Hsmall) as [_ Hint].
  destruct (int64_of_float64_fits _ _ Hint) as [Hconv _].
  assert (Hparsed : ∀ req,
            HeaderGet (Header req) "Authorization" = ("Bearer " ++ tok)%string →
            VerifyPushNotification r t_verify req
            = if 5 * Minute <? Since t_verify (Unix t_sign)
              then Return (false, Some "token expired")
              else if decide (Some (CString (sha256_hex buf))
                              = Some (CString
                                  (calculateRequestBodySHA256
                                     (unmarshal_body (Body req))).1))
                   then Return (true, None)
                   else Return (false, Some "digest mismatch")).
  { intros req Hh.
    rewrite (VerifyPushNotification_parsed _ _ _ _ _ _ Hh Hparse eq_refl), Hconv.
    reflexivity. }
  split; [|split].
  - intros req Hh Hsurv Hm Hfresh. rewrite (Hparsed req Hh).
    rewrite (proj2 (fresh_iff _ _ Hverify Hfits) Hfresh).
    destruct (Hsurv _ Hm) as (data' & Hun & Hre).
    unfold unmarshal_body, calculateRequestBodySHA256.
    rewrite Hun, Hre, Henc. by rewrite decide_True.
  - intros req signed received Hh Hs Hr Hne Hfresh. rewrite (Hparsed req Hh).
    rewrite (proj2 (fresh_iff _ _ Hverify Hfits) Hfresh).
    unfold calculateRequestBodySHA256. rewrite Hr. cbn [fst].
    rewrite Henc in Hs. injection Hs as <-.
    rewrite decide_False; [done|]. intros [= Heq]. by apply Hne.
  - intros req Hh Hold. rewrite (Hparsed req Hh).
    by rewrite (proj2 (expired_iff _ _ Hverify Hfits) Hold).
Qed.

End WithLib.

(** ** The sample library *)
Import Scenario.

Lemma hex_ascii b : ascii_only (hex b) = true.
Proof.
  unfold ascii_only. induction b as [|c b IH]; [done|].
  cbn [hex String.list_ascii_of_string forallb]. rewrite IH, !andb_true_r.
  assert (Hd : ∀ n, (n < 16)%nat →
            Nat.ltb (Ascii.nat_of_ascii (hex_digit n)) 128 = true).
  { intros n Hn. do 16 (destruct n as [|n]; [reflexivity|]). lia. }
  rewrite !Hd; [done | |].
  - apply Nat.mod_upper_bound. lia.
  - apply Nat.Div0.div_lt_upper_bound.
    pose proof (Ascii.nat_ascii_bounded c). lia.
Qed.

#[global] Instance lib_laws : LibLaws lib.
Proof.
  split; [|exact hex_ascii].
  intros header claims sk tok keyfunc now. cbn.
  case_decide as Hc; [|done]. destruct Hc as (_ & ->).
  unfold verify_with.
  case_decide as H1; [subst claims|case_decide as H2; [subst claims|done]];
    intros [= <-] -> _ _ _; reflexivity.
Qed.

Lemma wall_clock_t_sign d :
  0 ≤ d ≤ 1000 * Second → wall_clock (t_sign + d).
Proof.
  unfold wall_clock, t_sign, Second.
  change (2 ^ 63) with 9223372036854775808. lia.
Qed.

Lemma empty_payload_survives : survives_json (L := lib) empty_payload.
Proof. intros body [= <-]. by exists empty_payload. Qed.

Lemma issued_by_sender : GenerateJWT sender t_sign empty_payload = inr issued_token.
Proof. vm_compute. reflexivity. Qed.

Lemma sign_then_verify_witness :
  VerifyPushNotification receiver (t_sign + 60 * Second)
    (bearer_request empty_object) = Return (true, None)
  ∧ VerifyPushNotification receiver (t_sign + 60 * Second)
      (bearer_request other_object) = Return (false, Some "digest mismatch")
  ∧ VerifyPushNotification receiver (t_sign + 301 * Second)
      (bearer_request other_object) = Return (false, Some "token expired").
Proof.
  assert (H0 : wall_clock t_sign).
  { replace t_sign with (t_sign + 0) by lia. apply wall_clock_t_sign.
    unfold Second. lia. }
  assert (H60 : wall_clock (t_sign + 60 * Second))
    by (apply wall_clock_t_sign; unfold Second; lia).
  assert (H301 : wall_clock (t_sign + 301 * Second))
    by (apply wall_clock_t_sign; unfold Second; lia).
  split; [|split].
  - apply (proj1 (sign_then_verify sender receiver t_sign (t_sign + 60 * Second)
                    empty_payload issued_token eq_refl H0 H60 issued_by_sender)).
    + reflexivity.
    + exact empty_payload_survives.
    + reflexivity.
    + vm_compute. discriminate.
  - apply (proj1 (proj2 (sign_then_verify sender receiver t_sign
                           (t_sign + 60 * Second) empty_payload issued_token
                           eq_refl H0 H60 issued_by_sender))
             (bearer_request other_object)
             (empty_object ++ newline)%string (other_object ++ newline)%string).
    + reflexivity.
    + reflexivity.
    + vm_compute. reflexivity.
    + vm_compute. discriminate.
    + vm_compute. discriminate.
  - apply (proj2 (proj2 (sign_then_verify sender receiver t_sign
                           (t_sign + 301 * Second) empty_payload issued_token
                           eq_refl H0 H301 issued_by_sender))).
    + reflexivity.
    + vm_compute. reflexivity.
Defined.

(** C1, as stated, fails: not every payload verifies against itself.
    The payload maps "n" to the int64 9007199254740993 (2^53 + 1).  The
    sender signs the digest of its encoding and sends it as
    [json.Marshal] writes it; the receiver reads the number as the
    float64 9007199254740992, encodes that, and finds another digest.
    Verification a minute after signing fails with "digest mismatch". *)
Lemma large_integer_payload_fails :
  let req := request_with large_token large_object in
  GenerateJWT sender t_sign large_payload = inr large_token
  ∧ json_marshal large_payload = inr (Body req)
  ∧ HeaderGet (Header req) "Authorization" = ("Bearer " ++ large_token)%string
  ∧ publicKey receiver = public_of (privateKey sender)
  ∧ t_sign + 60 * Second - Unix t_sign * Second ≤ 5 * Minute
  ∧ json_unmarshal (Body req)
    = inr (Some [("n", VNumber (nearest_float64 9007199254740993))])
  ∧ nearest_float64 9007199254740993 = Finite 4503599627370496 1
  ∧ json_encode (unmarshal_body (Body req))
    = inr ("{" ++ quote ++ "n" ++ quote ++ ":9007199254740992}" ++ newline)%string
  ∧ VerifyPushNotification receiver (t_sign + 60 * Second) req
    = Return (false, Some "digest mismatch").
Proof.
  cbv zeta. repeat split; try (vm_compute; reflexivity).
  vm_compute. discriminate.
Qed.

(** The request [SendPushNotification] sends for the signed payload
    verifies a minute later. *)
Example sent_request_verifies :
  ∃ req,
    SendPushNotification_request sender t_sign "http://localhost:5000/notify"
      empty_payload = Return (inr req)
    ∧ VerifyPushNotification receiver (t_sign + 60 * Second) req
      = Return (true, None).
Proof. eexists. split; [reflexivity | vm_compute; reflexivity]. Qed.



(** The same request, with a body other than the signed one, is refused
    by [VerifyPushNotification] and accepted by the listener. *)
Example listener_accepts_what_verifier_refuses :
  VerifyPushNotification receiver (t_sign + 60 * Second)
    (bearer_request other_object) = Return (false, Some "digest mismatch")
  ∧ ∃ resp, handleNotification receiver (t_sign + 60 * Second)
              (bearer_request other_object) = Return resp
            ∧ StatusCode resp = StatusOK.
Proof.
  split; [vm_compute; reflexivity|]. eexists. split; vm_compute; reflexivity.
Qed.

(** C8 fails on the code.  [VerifyPushNotificationURL] puts the token in
    the query string; [handleValidationCheck] looks for it in the
    [Validation-Token] header, finds none, and answers 400 with an error
    text.  So the challenge of the listener's own endpoint returns false
    for every token other than that error text. *)
Theorem own_endpoint_fails_challenge (url validationToken : string) :
  listener_Get (url ++ "?validationToken=" ++ validationToken)%string
  = inr (http_Error "Validation token not found" StatusBadRequest)
  ∧ (validationToken ≠ ("Validation token not found" ++ newline)%string →
     VerifyPushNotificationURL listener_Get url validationToken = false).
Proof.
  split; [reflexivity|].
  intros Hne. unfold VerifyPushNotificationURL. cbn.
  apply String.eqb_neq. intros Heq. apply Hne. rewrite <-Heq. reflexivity.
Qed.

Lemma own_endpoint_fails_challenge_witness :
  VerifyPushNotificationURL listener_Get
    "http://localhost:5000/.well-known/validation-token"
    "123e4567-e89b-12d3-a456-426614174000" = false.
Proof.
  apply (proj2 (own_endpoint_fails_challenge
                  "http://localhost:5000/.well-known/validation-token"
                  "123e4567-e89b-12d3-a456-426614174000")).
  discriminate.
Defined.

End PushAuthFacts.

(** * Properties of the task manager as a whole *)
Module ManagerFacts.
Import Types TaskStore Manager.

Lemma after_all_cons m c calls :
  after_all m (c :: calls) = after_all (after m c) calls.
Proof. reflexivity. Qed.

Lemma after_all_snoc m calls c :
  after_all m (calls ++ [c]) = after (after_all m calls) c.
Proof. unfold after_all. by rewrite foldl_app. Qed.

(** What one call does to one task: it stays, with its identifier and
    session, and its history and artifacts grow at the end. *)
Lemma after_keeps_task m c id task :
  tasks (tm m) !! id = Some task →
  ∃ task',
    tasks (tm (after m c)) !! id = Some task'
    ∧ ID task' = ID task
    ∧ SessionID task' = SessionID task
    ∧ History task `prefix_of` History task'
    ∧ elems (Artifacts task) `prefix_of` elems (Artifacts task').
Proof.
  intros Hlook.
  assert (Hsame : ∃ task', Some task = Some task' ∧ ID task' = ID task
            ∧ SessionID task' = SessionID task
            ∧ History task `prefix_of` History task'
            ∧ elems (Artifacts task) `prefix_of` elems (Artifacts task'))
    by (by exists task).
  destruct c as [p now | taskID status artifacts | q | taskID
                | taskID cfg | p | taskID]; cbn.
  - unfold upsertTask.
    destruct (tasks (tm m) !! SendID p) as [old|] eqn:Hold; cbn.
    + destruct (decide (id = SendID p)) as [-> | Hne].
      * rewrite lookup_insert_eq. rewrite Hlook in Hold. injection Hold as <-.
        eexists. split; [reflexivity|]. cbn. repeat split; try done.
        by apply prefix_app_r.
      * rewrite lookup_insert_ne by done. by rewrite Hlook.
    + destruct (decide (id = SendID p)) as [-> | Hne]; [congruence|].
      rewrite lookup_insert_ne by done. by rewrite Hlook.
  - destruct (tasks (tm m) !! taskID) as [old|] eqn:Hold.
    + destruct (TaskStoreFacts.updateStore_present _ _ status artifacts _ Hold)
        as (task' & -> & Hid & Hs & _ & Hh & Ha). cbn.
      destruct (decide (id = taskID)) as [-> | Hne].
      * rewrite lookup_insert_eq. rewrite Hlook in Hold. injection Hold as <-.
        exists task'. repeat split; try done.
        -- rewrite Hh. by apply prefix_app_r.
        -- rewrite Ha. by apply prefix_app_r.
      * rewrite lookup_insert_ne by done. by rewrite Hlook.
    + unfold updateStore. rewrite Hold. cbn. by rewrite Hlook.
  - unfold OnGetTask. destruct (tasks (tm m) !! QueryID q); cbn; by rewrite Hlook.
  - unfold OnCancelTask. destruct (tasks (tm m) !! taskID); cbn; by rewrite Hlook.
  - unfold setPushNotificationInfo.
    destruct (tasks (tm m) !! taskID); cbn; by rewrite Hlook.
  - unfold OnSetTaskPushNotification, setPushNotificationInfo.
    destruct (tasks (tm m) !! ConfigID p); cbn; by rewrite Hlook.
  - by rewrite Hlook.
Qed.

(** A task found after a call was there before, or the call created it. *)
Lemma after_task_origin m c id task' :
  tasks (tm (after m c)) !! id = Some task' →
  (∃ task, tasks (tm m) !! id = Some task
     ∧ ID task' = ID task ∧ SessionID task' = SessionID task
     ∧ History task `prefix_of` History task')
  ∨ (tasks (tm m) !! id = None
     ∧ ID task' = id ∧ History task' ≠ [] ∧ is_Some (SessionID task')).
Proof.
  intros Hafter.
  destruct (tasks (tm m) !! id) as [task|] eqn:Hlook.
  - left. destruct (after_keeps_task m c id task Hlook)
      as (task'' & Hl & Hid & Hs & Hh & _).
    rewrite Hafter in Hl. injection Hl as <-. by exists task.
  - right. split; [done|].
    destruct c as [p now | taskID status artifacts | q | taskID
                  | taskID cfg | p | taskID]; cbn in Hafter.
    + unfold upsertTask in Hafter.
      destruct (tasks (tm m) !! SendID p) as [old|] eqn:Hold; cbn in Hafter.
      * rewrite lookup_insert_ne in Hafter by congruence. congruence.
      * destruct (decide (id = SendID p)) as [-> | Hne].
        -- rewrite lookup_insert_eq in Hafter. injection Hafter as <-.
           cbn. by eauto.
        -- rewrite lookup_insert_ne in Hafter by done. congruence.
    + unfold updateStore in Hafter.
      destruct (tasks (tm m) !! taskID) as [old|] eqn:Hold; cbn in Hafter.
      * rewrite lookup_insert_ne in Hafter by congruence. congruence.
      * congruence.
    + unfold OnGetTask in Hafter.
      destruct (tasks (tm m) !! QueryID q); cbn in Hafter; congruence.
    + unfold OnCancelTask in Hafter.
      destruct (tasks (tm m) !! taskID); cbn in Hafter; congruence.
    + unfold setPushNotificationInfo in Hafter.
      destruct (tasks (tm m) !! taskID); cbn in Hafter; congruence.
    + unfold OnSetTaskPushNotification, setPushNotificationInfo in Hafter.
      destruct (tasks (tm m) !! ConfigID p); cbn in Hafter; congruence.
    + congruence.
Qed.

(** What a call does to the push-notification table: it writes at most
    the entry of the task it names, and only when that task is stored. *)
Lemma after_info m c id :
  pushNotificationInfos (after m c) !! id = pushNotificationInfos m !! id
  ∨ (sets_info c = Some id ∧ is_Some (tasks (tm m) !! id)).
Proof.
  destruct c as [p now | taskID status artifacts | q | taskID
                | taskID cfg | p | taskID]; cbn; try by left.
  - unfold setPushNotificationInfo.
    destruct (tasks (tm m) !! taskID) as [t|] eqn:Ht; cbn; [|by left].
    destruct (decide (taskID = id)) as [-> | Hne]; [right; by eauto|].
    left. by rewrite lookup_insert_ne.
  - unfold OnSetTaskPushNotification, setPushNotificationInfo.
    destruct (tasks (tm m) !! ConfigID p) as [t|] eqn:Ht; cbn; [|by left].
    destruct (decide (ConfigID p = id)) as [<- | Hne]; [right; by eauto|].
    left. by rewrite lookup_insert_ne.
Qed.

Lemma after_consistent m c : consistent m → consistent (after m c).
Proof.
  intros Hm. constructor.
  - intros id task' [(task & Hl & -> & _) | (_ & ? & _)]%after_task_origin;
      [exact (key_is_id _ Hm _ _ Hl) | done].
  - intros id task' [(task & Hl & _ & _ & Hpre) | (_ & _ & ? & _)]%after_task_origin;
      [|done].
    pose proof (history_nonempty _ Hm _ _ Hl) as Hne.
    intros Hnil. rewrite Hnil in Hpre. by apply prefix_nil_inv in Hpre.
  - intros id task' [(task & Hl & _ & -> & _) | (_ & _ & _ & ?)]%after_task_origin;
      [exact (session_present _ Hm _ _ Hl) | done].
  - intros id Hinfo.
    assert (Hbefore : is_Some (tasks (tm m) !! id)).
    { destruct (after_info m c id) as [Heq | [_ ?]]; [|done].
      rewrite Heq in Hinfo. by apply (info_has_task _ Hm). }
    destruct Hbefore as [task Hl].
    destruct (after_keeps_task m c id task Hl) as (task' & -> & _). by eauto.
Qed.

Lemma NewManager_consistent : consistent NewManager.
Proof. constructor; cbn; intros *; rewrite lookup_empty; by intros [? ?] || done. Qed.

Lemma after_all_consistent m calls : consistent m → consistent (after_all m calls).
Proof.
  revert m. induction calls as [|c calls IH]; intros m Hm; [done|].
  rewrite after_all_cons. apply IH. by apply after_consistent.
Qed.

Lemma tasks_only_grow_helper m calls id task :
  tasks (tm m) !! id = Some task →
  ∃ task', tasks (tm (after_all m calls)) !! id = Some task'.
Proof.
  revert m task. induction calls as [|c calls IH]; intros m task Hl.
  - by exists task.
  - destruct (after_keeps_task m c id task Hl) as (t1 & Hl1 & _).
    rewrite after_all_cons. by eapply IH.
Qed.

(** ** Properties *)

(** X1. Whatever calls reach a manager that started empty: every stored
    task is stored under its own identifier, has a session and a history
    that is not empty, and a push-notification entry exists only for a
    stored task. *)
Theorem manager_stays_consistent (calls : list call) :
  let m := after_all NewManager calls in
  (∀ id task, tasks (tm m) !! id = Some task →
     ID task = id ∧ History task ≠ [] ∧ is_Some (SessionID task))
  ∧ (∀ id, hasPushNotificationInfo m id = true → is_Some (tasks (tm m) !! id)).
Proof.
  intros m.
  pose proof (after_all_consistent NewManager calls NewManager_consistent) as Hm.
  split.
  - intros id task Hl. split; [exact (key_is_id _ Hm _ _ Hl)|].
    split; [exact (history_nonempty _ Hm _ _ Hl) | exact (session_present _ Hm _ _ Hl)].
  - intros id Hhas. apply (info_has_task _ Hm).
    unfold hasPushNotificationInfo in Hhas. subst m.
    by destruct (pushNotificationInfos (after_all NewManager calls) !! id).
Qed.

Lemma manager_stays_consistent_witness :
  let m := after_all NewManager
             [CallUpsertTask (send m1) "2025-04-10T12:00:00Z";
              CallOnSetTaskPushNotification
                {| ConfigID := "t1"; Config := notify_config |}] in
  (∃ task, tasks (tm m) !! "t1" = Some task
     ∧ ID task = "t1" ∧ History task ≠ [] ∧ is_Some (SessionID task))
  ∧ hasPushNotificationInfo m "t1" = true
  ∧ is_Some (tasks (tm m) !! "t1").
Proof.
  intros m.
  destruct (manager_stays_consistent
              [CallUpsertTask (send m1) "2025-04-10T12:00:00Z";
               CallOnSetTaskPushNotification
                 {| ConfigID := "t1"; Config := notify_config |}])
    as [Htask Hinfo].
  split; [|split].
  - eexists. split; [reflexivity|]. apply Htask. reflexivity.
  - reflexivity.
  - apply Hinfo. reflexivity.
Defined.

(** X2. No call removes a task or rewrites what it has accumulated: a
    stored task is still stored after any calls, under the same
    identifier and session, and its earlier history and artifacts are the
    beginning of its later history and artifacts. *)
Theorem tasks_only_grow (m : manager) (calls : list call) (id : string)
    (task : Task) :
  tasks (tm m) !! id = Some task →
  ∃ task',
    tasks (tm (after_all m calls)) !! id = Some task'
    ∧ ID task' = ID task
    ∧ SessionID task' = SessionID task
    ∧ History task `prefix_of` History task'
    ∧ elems (Artifacts task) `prefix_of` elems (Artifacts task').
Proof.
  revert m task. induction calls as [|c calls IH]; intros m task Hl.
  - by exists task.
  - destruct (after_keeps_task m c id task Hl) as (t1 & Hl1 & Hid & Hs & Hh & Ha).
    destruct (IH _ _ Hl1) as (t2 & Hl2 & Hid2 & Hs2 & Hh2 & Ha2).
    exists t2. rewrite after_all_cons. split; [done|].
    repeat split; try congruence; by etrans.
Qed.

Lemma tasks_only_grow_witness :
  ∃ task',
    tasks (tm (after_all manager1
                 [CallUpdateStore "t1" (status_of TaskWorking (Some m2))
                    (Some [artifact 0]);
                  CallUpsertTask {| SendID := "t1"; SendSessionID := "other";
                                    SendMessage := m3 |} "2025-04-10T12:00:05Z";
                  CallOnCancelTask "t1"])) !! "t1" = Some task'
    ∧ ID task' = "t1"
    ∧ SessionID task' = Some "s1"
    ∧ [m1] `prefix_of` History task'
    ∧ [] `prefix_of` elems (Artifacts task').
Proof.
  apply (tasks_only_grow manager1 _ "t1"
           {| ID := "t1"; SessionID := Some "s1";
              Status := {| State := TaskSubmitted; StatusMessage := None;
                           Timestamp := "2025-04-10T12:00:00Z" |};
              Artifacts := None; History := [m1] |}).
  reflexivity.
Defined.

Lemma appendTaskHistory_history task limit :
  History (appendTaskHistory task limit)
  = match limit with
    | Some n =>
        if (0 <? n)%Z then
          drop (length (History task) - Z.to_nat n `min` length (History task))
               (History task)
        else []
    | None => []
    end.
Proof.
  destruct limit as [n|]; [|reflexivity].
  destruct (Z.ltb_spec 0 n) as [Hpos|Hle].
  - by rewrite TaskStoreFacts.appendTaskHistory_positive.
  - unfold appendTaskHistory. destruct (Z.ltb_spec 0 n); [lia | reflexivity].
Qed.

Lemma appendTaskHistory_rest task limit :
  appendTaskHistory task limit
  = with_history task (History (appendTaskHistory task limit)).
Proof.
  unfold appendTaskHistory. destruct limit as [n|]; [|reflexivity].
  destruct (0 <? n)%Z; [|reflexivity].
  destruct (n <? _)%Z; [reflexivity|]. by destruct task.
Qed.

(** X3. The bounds of the history limit: a limit of zero or less is
    treated as no limit at all, and the snapshot has an empty history; a
    positive limit that is not smaller than the stored history returns
    the task with its whole history. *)
Theorem history_limit_bounds (tm : InMemoryTaskManager) (id : string)
    (task : Task) (n : Z) :
  tasks tm !! id = Some task →
  ((n ≤ 0)%Z →
     OnGetTask tm {| QueryID := id; HistoryLength := Some n |}
     = (tm, {| GetResult := Some (with_history task []) |})
     ∧ OnGetTask tm {| QueryID := id; HistoryLength := Some n |}
       = OnGetTask tm {| QueryID := id; HistoryLength := None |})
  ∧ ((0 < n)%Z → (Z.of_nat (length (History task)) ≤ n)%Z →
       OnGetTask tm {| QueryID := id; HistoryLength := Some n |}
       = (tm, {| GetResult := Some task |})).
Proof.
  intros Hl. unfold OnGetTask. cbn. rewrite Hl. split.
  - intros Hn. unfold appendTaskHistory.
    destruct (Z.ltb_spec 0 n); [lia | done].
  - intros Hpos Hn. unfold appendTaskHistory.
    destruct (Z.ltb_spec 0 n); [|lia].
    destruct (Z.ltb_spec n (Z.of_nat (length (History task)))); [lia | done].
Qed.

Lemma history_limit_bounds_witness :
  (OnGetTask store_completed {| QueryID := "t1"; HistoryLength := Some 0%Z |}
   = (store_completed,
      {| GetResult := Some {| ID := "t1"; SessionID := Some "s1";
                              Status := status_of TaskCompleted (Some m3);
                              Artifacts := None; History := [] |} |}))
  ∧ OnGetTask store_completed {| QueryID := "t1"; HistoryLength := Some 2%Z |}
    = (store_completed,
       {| GetResult := Some {| ID := "t1"; SessionID := Some "s1";
                               Status := status_of TaskCompleted (Some m3);
                               Artifacts := None; History := [m1; m3] |} |}).
Proof.
  split.
  - apply (proj1 (history_limit_bounds store_completed "t1"
                    {| ID := "t1"; SessionID := Some "s1";
                       Status := status_of TaskCompleted (Some m3);
                       Artifacts := None; History := [m1; m3] |} 0 eq_refl)).
    reflexivity.
  - apply (proj2 (history_limit_bounds store_completed "t1"
                    {| ID := "t1"; SessionID := Some "s1";
                       Status := status_of TaskCompleted (Some m3);
                       Artifacts := None; History := [m1; m3] |} 2 eq_refl)).
    + reflexivity.
    + vm_compute. discriminate.
Defined.

(** X4. History limits nest: for positive limits [n ≤ k], the history
    under limit [n] is the end of the history under limit [k], which is
    the end of the stored history; and limiting a snapshot taken under
    [k] to [n] gives the snapshot taken under [n] directly. *)
Theorem history_limits_nest (task : Task) (n k : Z) :
  (0 < n)%Z → (n ≤ k)%Z →
  History (appendTaskHistory task (Some n))
    `suffix_of` History (appendTaskHistory task (Some k))
  ∧ History (appendTaskHistory task (Some k)) `suffix_of` History task
  ∧ appendTaskHistory (appendTaskHistory task (Some k)) (Some n)
    = appendTaskHistory task (Some n).
Proof.
  intros Hn Hk.
  assert (Hcomp : History (appendTaskHistory (appendTaskHistory task (Some k)) (Some n))
                  = History (appendTaskHistory task (Some n))).
  { rewrite (appendTaskHistory_history (appendTaskHistory task (Some k))).
    rewrite !appendTaskHistory_history.
    destruct (Z.ltb_spec 0 n); [|lia]. destruct (Z.ltb_spec 0 k); [|lia].
    rewrite length_drop, drop_drop. f_equal. lia. }
  split; [|split].
  - rewrite <-Hcomp.
    rewrite (appendTaskHistory_history (appendTaskHistory task (Some k))).
    destruct (Z.ltb_spec 0 n); [|lia]. apply suffix_drop.
  - rewrite appendTaskHistory_history.
    destruct (Z.ltb_spec 0 k); [|lia]. apply suffix_drop.
  - rewrite (appendTaskHistory_rest (appendTaskHistory task (Some k))), Hcomp.
    rewrite (appendTaskHistory_rest task (Some n)).
    rewrite (appendTaskHistory_rest task (Some k)). reflexivity.
Qed.

Lemma history_limits_nest_witness :
  let task := {| ID := "t1"; SessionID := Some "s1";
                 Status := status_of TaskWorking None;
                 Artifacts := None; History := [m1; m2; m3] |} in
  [m3] `suffix_of` [m2; m3]
  ∧ [m2; m3] `suffix_of` [m1; m2; m3]
  ∧ appendTaskHistory (appendTaskHistory task (Some 2%Z)) (Some 1%Z)
    = appendTaskHistory task (Some 1%Z).
Proof.
  intros task.
  apply (history_limits_nest task 1 2); [reflexivity | vm_compute; discriminate].
Defined.

(** X5. A message sent is the latest entry read back: after [upsertTask],
    reading the task with any positive limit returns a snapshot whose
    history ends with the message of that call; with limit 1 the history
    is exactly that message. *)
Theorem upsert_then_get (tm : InMemoryTaskManager) (p : TaskSendParams)
    (now : string) (n : Z) :
  (0 < n)%Z →
  ∃ snapshot,
    (OnGetTask (upsertTask tm p now).1
       {| QueryID := SendID p; HistoryLength := Some n |}).2
    = {| GetResult := Some snapshot |}
    ∧ last (History snapshot) = Some (SendMessage p)
    ∧ (n = 1%Z → History snapshot = [SendMessage p]).
Proof.
  intros Hn.
  assert (Hstored : ∃ task h,
            tasks (upsertTask tm p now).1 !! SendID p = Some task
            ∧ History task = h ++ [SendMessage p]).
  { unfold upsertTask. destruct (tasks tm !! SendID p) as [old|]; cbn.
    - eexists _, (History old). rewrite lookup_insert_eq. done.
    - eexists _, []. rewrite lookup_insert_eq. done. }
  destruct Hstored as (task & h & Hl & Hh).
  unfold OnGetTask. cbn [QueryID HistoryLength]. rewrite Hl.
  cbn [snd]. eexists. split; [reflexivity|].
  rewrite appendTaskHistory_history, Hh.
  destruct (Z.ltb_spec 0 n); [|lia].
  rewrite length_app. cbn.
  split.
  - rewrite drop_app_le by lia. by rewrite last_snoc.
  - intros ->.
    replace (length h + 1 - Z.to_nat 1 `min` (length h + 1)) with (length h) by lia.
    by rewrite drop_app_length.
Qed.

Lemma upsert_then_get_witness :
  ∃ snapshot,
    (OnGetTask (upsertTask store_completed (send m2) "2025-04-10T12:00:02Z").1
       {| QueryID := "t1"; HistoryLength := Some 1%Z |}).2
    = {| GetResult := Some snapshot |}
    ∧ last (History snapshot) = Some m2
    ∧ (1%Z = 1%Z → History snapshot = [m2]).
Proof.
  apply (upsert_then_get store_completed (send m2) "2025-04-10T12:00:02Z" 1).
  reflexivity.
Defined.

Lemma after_all_info_other m calls id :
  Forall (λ c, sets_info c ≠ Some id) calls →
  pushNotificationInfos (after_all m calls) !! id = pushNotificationInfos m !! id.
Proof.
  revert m. induction calls as [|c calls IH]; intros m Hno; [done|].
  apply Forall_cons in Hno as [Hc Hno].
  rewrite after_all_cons, IH by done.
  destruct (after_info m c id) as [-> | [Hset _]]; done.
Qed.

(** X6. A push-notification configuration set for a stored task is read
    back as it was set, also after any further calls that do not set the
    configuration of that task again. *)
Theorem push_config_round_trip (m : manager) (p : TaskPushNotificationConfig)
    (calls : list call) :
  is_Some (tasks (tm m) !! ConfigID p) →
  Forall (λ c, sets_info c ≠ Some (ConfigID p)) calls →
  (OnSetTaskPushNotification m p).2 = {| SetResult := Some p |}
  ∧ OnGetTaskPushNotification
      (after_all (OnSetTaskPushNotification m p).1 calls) (ConfigID p)
    = PushAuth.Return {| GetPushResult := Some p |}
  ∧ hasPushNotificationInfo
      (after_all (OnSetTaskPushNotification m p).1 calls) (ConfigID p) = true.
Proof.
  intros [task Hl] Hno.
  assert (Hset : OnSetTaskPushNotification m p
                 = ({| tm := tm m;
                       pushNotificationInfos :=
                         <[ConfigID p := Some (Config p)]> (pushNotificationInfos m) |},
                    {| SetResult := Some p |})).
  { unfold OnSetTaskPushNotification, setPushNotificationInfo. by rewrite Hl. }
  rewrite Hset. cbn. split; [done|].
  set (m1 := {| tm := tm m; pushNotificationInfos := _ |}).
  destruct (tasks_only_grow_helper m1 calls (ConfigID p) task Hl) as (task' & Hl').
  pose proof (after_all_info_other m1 calls _ Hno) as Hinfo.
  cbn in Hinfo. rewrite lookup_insert_eq in Hinfo.
  unfold OnGetTaskPushNotification, getPushNotificationInfo, hasPushNotificationInfo.
  rewrite Hl', Hinfo. cbn. by destruct p.
Qed.

Lemma push_config_round_trip_witness :
  let p := {| ConfigID := "t1"; Config := notify_config |} in
  let calls := [CallUpdateStore "t1" (status_of TaskWorking None) None;
                CallUpsertTask (send m2) "2025-04-10T12:00:02Z";
                CallOnSetTaskPushNotification
                  {| ConfigID := "t2"; Config := notify_config |}] in
  (OnSetTaskPushNotification manager1 p).2 = {| SetResult := Some p |}
  ∧ OnGetTaskPushNotification
      (after_all (OnSetTaskPushNotification manager1 p).1 calls) "t1"
    = PushAuth.Return {| GetPushResult := Some p |}
  ∧ hasPushNotificationInfo
      (after_all (OnSetTaskPushNotification manager1 p).1 calls) "t1" = true.
Proof.
  intros p calls.
  apply (push_config_round_trip manager1 p calls).
  - eexists. reflexivity.
  - repeat constructor; discriminate.
Defined.

(** X7. For a task identifier the manager does not hold, setting a
    push-notification configuration returns no result and changes
    nothing, reading it returns no result, and no configuration is
    recorded for it. *)
Theorem push_config_unknown_task (calls : list call) (id : string)
    (config : PushNotificationConfig) :
  let m := after_all NewManager calls in
  tasks (tm m) !! id = None →
  OnSetTaskPushNotification m {| ConfigID := id; Config := config |}
  = (m, {| SetResult := None |})
  ∧ OnGetTaskPushNotification m id = PushAuth.Return {| GetPushResult := None |}
  ∧ hasPushNotificationInfo m id = false.
Proof.
  intros m Hnone.
  pose proof (after_all_consistent NewManager calls NewManager_consistent) as Hm.
  fold m in Hm.
  unfold OnSetTaskPushNotification, OnGetTaskPushNotification,
    setPushNotificationInfo, getPushNotificationInfo, hasPushNotificationInfo.
  cbn [ConfigID]. rewrite Hnone. repeat split.
  destruct (pushNotificationInfos m !! id) eqn:Hinfo; [|done].
  destruct (info_has_task _ Hm id) as [task Htask]; [by rewrite Hinfo|].
  congruence.
Qed.

Lemma push_config_unknown_task_witness :
  OnSetTaskPushNotification manager1 {| ConfigID := "t2"; Config := notify_config |}
  = (manager1, {| SetResult := None |})
  ∧ OnGetTaskPushNotification manager1 "t2"
    = PushAuth.Return {| GetPushResult := None |}
  ∧ hasPushNotificationInfo manager1 "t2" = false.
Proof.
  apply (push_config_unknown_task
           [CallUpsertTask (send m1) "2025-04-10T12:00:00Z"] "t2" notify_config).
  reflexivity.
Defined.

(** X8. Reading the push-notification configuration of a stored task
    that has none (no entry, or a nil entry) panics on the nil pointer
    instead of returning; in particular this is so for every task that
    has just been created. *)
Theorem get_push_config_panics (calls : list call) :
  let m := after_all NewManager calls in
  (∀ id, is_Some (tasks (tm m) !! id) →
     default None (pushNotificationInfos m !! id) = None →
     OnGetTaskPushNotification m id = PushAuth.Panic)
  ∧ (∀ p now, tasks (tm m) !! SendID p = None →
       OnGetTaskPushNotification (after m (CallUpsertTask p now)) (SendID p)
       = PushAuth.Panic).
Proof.
  intros m.
  pose proof (after_all_consistent NewManager calls NewManager_consistent) as Hm.
  fold m in Hm.
  split.
  - intros id [task Hl] Hnil.
    unfold OnGetTaskPushNotification, getPushNotificationInfo.
    by rewrite Hl, Hnil.
  - intros p now Hnone.
    unfold OnGetTaskPushNotification, getPushNotificationInfo. cbn.
    unfold upsertTask. rewrite Hnone. cbn. rewrite lookup_insert_eq.
    destruct (pushNotificationInfos m !! SendID p) eqn:Hinfo; [|done].
    destruct (info_has_task _ Hm (SendID p)) as [task Htask]; [by rewrite Hinfo|].
    congruence.
Qed.

Lemma get_push_config_panics_witness :
  OnGetTaskPushNotification manager1 "t1" = PushAuth.Panic
  ∧ OnGetTaskPushNotification
      (after manager1
         (CallUpsertTask {| SendID := "t2"; SendSessionID := "s1";
                            SendMessage := m2 |} "2025-04-10T12:00:03Z")) "t2"
    = PushAuth.Panic.
Proof.
  destruct (get_push_config_panics
              [CallUpsertTask (send m1) "2025-04-10T12:00:00Z"]) as [Hstored Hnew].
  split.
  - apply Hstored; [eexists; reflexivity | reflexivity].
  - apply (Hnew {| SendID := "t2"; SendSessionID := "s1"; SendMessage := m2 |}).
    reflexivity.
Defined.

End ManagerFacts.

(** * Properties of the in-memory cache *)
Module CacheFacts.
Import Cache.

Section WithValue.
Context {V : Type}.
Implicit Types (c : InMemoryCache V) (call : cache_call V).

Lemma cache_after_all_cons c call calls :
  cache_after_all c (call :: calls) = cache_after_all (cache_after c call) calls.
Proof. reflexivity. Qed.

(** A call on another key leaves the entries of this key alone. *)
Lemma cache_after_other c call key :
  on_other_key key call →
  cacheData (cache_after c call) !! key = cacheData c !! key
  ∧ ttl (cache_after c call) !! key = ttl c !! key.
Proof.
  destruct call as [k v t now | k d now | k |]; cbn; [| | |done]; intros Hne.
  - rewrite lookup_insert_ne by done.
    destruct t; [by rewrite lookup_insert_ne | by rewrite lookup_delete_ne].
  - unfold CacheGet. destruct (ttl c !! k) as [e|]; [destruct (e <? now)%Z|]; cbn;
      rewrite ?lookup_delete_ne by done; try done;
      by destruct (cacheData c !! k).
  - unfold CacheDelete. destruct (cacheData c !! k); cbn;
      by rewrite ?lookup_delete_ne by done.
Qed.

Lemma cache_after_all_other c calls key :
  Forall (on_other_key key) calls →
  cacheData (cache_after_all c calls) !! key = cacheData c !! key
  ∧ ttl (cache_after_all c calls) !! key = ttl c !! key.
Proof.
  revert c. induction calls as [|call calls IH]; intros c Hall; [done|].
  apply Forall_cons in Hall as [Hc Hall].
  rewrite cache_after_all_cons.
  destruct (IH (cache_after c call) Hall) as [-> ->].
  by apply cache_after_other.
Qed.

Lemma cache_after_expiry c call :
  expiry_has_value c → expiry_has_value (cache_after c call).
Proof.
  intros Hc key. destruct call as [k v t now | k d now | k |]; cbn.
  - destruct (decide (k = key)) as [-> | Hne].
    + rewrite lookup_insert_eq. by eauto.
    + rewrite lookup_insert_ne by done.
      destruct t; rewrite ?lookup_insert_ne, ?lookup_delete_ne by done; apply Hc.
  - unfold CacheGet.
    destruct (ttl c !! k) as [e|] eqn:He; [destruct (e <? now)%Z|]; cbn.
    + destruct (decide (k = key)) as [-> | Hne].
      * rewrite lookup_delete_eq. by intros [? ?].
      * rewrite !lookup_delete_ne by done. apply Hc.
    + destruct (cacheData c !! k); apply Hc.
    + destruct (cacheData c !! k); apply Hc.
  - unfold CacheDelete. destruct (cacheData c !! k) eqn:Hk; cbn; [|apply Hc].
    destruct (decide (k = key)) as [-> | Hne].
    + rewrite lookup_delete_eq. by intros [? ?].
    + rewrite !lookup_delete_ne by done. apply Hc.
  - rewrite lookup_empty. by intros [? ?].
Qed.

(** X9. Whatever calls reach a cache that started empty, every key that
    has an expiry also has a value: no expiry is left behind by an
    eviction, a deletion or a clear. *)
Theorem cache_expiry_has_value (calls : list (cache_call V)) (key : string) :
  is_Some (ttl (cache_after_all NewCache calls) !! key) →
  is_Some (cacheData (cache_after_all NewCache calls) !! key).
Proof.
  revert key. change (expiry_has_value (cache_after_all (V:=V) NewCache calls)).
  assert (Hgen : ∀ c, expiry_has_value c → expiry_has_value (cache_after_all c calls)).
  { induction calls as [|call calls IH]; intros c Hc; [done|].
    rewrite cache_after_all_cons. apply IH. by apply cache_after_expiry. }
  apply Hgen. intros key. cbn. rewrite lookup_empty. by intros [? ?].
Qed.

(** X10. A value set under a key is read back, with the cache left as it
    is, after any calls on other keys, as long as the entry is not stale:
    always when it was set without a time to live, and up to and
    including the second [now + seconds] when it was set with one. *)
Theorem cache_set_then_get c (key : string) (value : V)
    (ttlSeconds : option Z) (now : Z) (calls : list (cache_call V))
    (defaultValue : V) (later : Z) :
  Forall (on_other_key key) calls →
  (∀ seconds, ttlSeconds = Some seconds → (later ≤ now + seconds)%Z) →
  let c' := cache_after_all (CacheSet c key value ttlSeconds now) calls in
  CacheGet c' key defaultValue later = (c', value).
Proof.
  intros Hcalls Hfresh c'.
  destruct (cache_after_all_other (CacheSet c key value ttlSeconds now) calls key
              Hcalls) as [Hdata Httl].
  fold c' in Hdata, Httl. cbn in Hdata, Httl. rewrite lookup_insert_eq in Hdata.
  unfold CacheGet. rewrite Hdata, Httl.
  destruct ttlSeconds as [seconds|].
  - rewrite lookup_insert_eq.
    specialize (Hfresh seconds eq_refl).
    destruct (Z.ltb_spec (now + seconds) later); [lia | done].
  - by rewrite lookup_delete_eq.
Qed.

(** X11. An entry set with a time to live is stale from the second after
    [now + seconds]: reading it then returns the default and evicts
    the entry, after which every read returns the default and a deletion
    reports that there was nothing to delete. *)
Theorem cache_entry_expires c (key : string) (value : V) (seconds now : Z)
    (calls : list (cache_call V)) (defaultValue : V) (later : Z) :
  Forall (on_other_key key) calls →
  (now + seconds < later)%Z →
  let c' := cache_after_all (CacheSet c key value (Some seconds) now) calls in
  let evicted := (CacheGet c' key defaultValue later).1 in
  (CacheGet c' key defaultValue later).2 = defaultValue
  ∧ cacheData evicted !! key = None ∧ ttl evicted !! key = None
  ∧ (∀ d t, CacheGet evicted key d t = (evicted, d))
  ∧ CacheDelete evicted key = (evicted, false).
Proof.
  intros Hcalls Hlate c' evicted.
  destruct (cache_after_all_other (CacheSet c key value (Some seconds) now) calls
              key Hcalls) as [Hdata Httl].
  fold c' in Hdata, Httl. cbn in Hdata, Httl.
  rewrite lookup_insert_eq in Hdata. rewrite lookup_insert_eq in Httl.
  assert (Hget : CacheGet c' key defaultValue later
                 = ({| cacheData := delete key (cacheData c');
                       ttl := delete key (ttl c') |}, defaultValue)).
  { unfold CacheGet. rewrite Httl.
    destruct (Z.ltb_spec (now + seconds) later); [done | lia]. }
  subst evicted. rewrite Hget. cbn. rewrite !lookup_delete_eq.
  repeat split.
  - intros d t. unfold CacheGet. cbn. by rewrite !lookup_delete_eq.
  - unfold CacheDelete. cbn. by rewrite lookup_delete_eq.
Qed.

(** X12. [Delete] looks at the value only, not at the expiry: it reports
    true exactly when the key has a value (a stale entry not yet evicted
    included), and after it the key has neither value nor expiry, every
    read of it returns the default and a second deletion reports
    false. *)
Theorem cache_delete c (key : string) :
  let c' := (CacheDelete c key).1 in
  ((CacheDelete c key).2 = true ↔ is_Some (cacheData c !! key))
  ∧ cacheData c' !! key = None
  ∧ (∀ d t, (CacheGet c' key d t).2 = d)
  ∧ (CacheDelete c' key).2 = false.
Proof.
  intros c'. subst c'. unfold CacheDelete.
  destruct (cacheData c !! key) as [v|] eqn:Hk; cbn.
  - split; [by eauto|]. rewrite lookup_delete_eq. split; [done|]. split.
    + intros d t. unfold CacheGet. cbn. by rewrite !lookup_delete_eq.
    + done.
  - split; [split; [done | by intros [? ?]]|]. split; [done|]. split.
    + intros d t. unfold CacheGet. rewrite Hk.
      by destruct (ttl c !! key) as [e|]; [destruct (e <? t)%Z|].
    + by rewrite Hk.
Qed.

End WithValue.

Lemma cache_expiry_has_value_witness :
  is_Some (cacheData
             (cache_after_all NewCache
                [DoSet "a" 1 (Some 30%Z) 100%Z; DoSet "b" 2 None 100%Z;
                 DoGet "b" 0 200%Z]) !! "a").
Proof.
  apply (cache_expiry_has_value
           [DoSet "a" 1 (Some 30%Z) 100%Z; DoSet "b" 2 None 100%Z;
            DoGet "b" 0 200%Z] "a").
  eexists. reflexivity.
Defined.

Lemma cache_set_then_get_witness :
  let c' := cache_after_all (CacheSet NewCache "a" 1 (Some 30%Z) 100%Z)
              [DoSet "b" 2 None 101%Z; DoDelete "b"] in
  CacheGet c' "a" 0 130%Z = (c', 1).
Proof.
  apply (cache_set_then_get NewCache "a" 1 (Some 30%Z) 100%Z
           [DoSet "b" 2 None 101%Z; DoDelete "b"] 0 130%Z).
  - repeat constructor; discriminate.
  - intros seconds [= <-]. vm_compute. discriminate.
Defined.

Lemma cache_entry_expires_witness :
  let c' := cache_after_all (CacheSet NewCache "a" 1 (Some 30%Z) 100%Z)
              [DoSet "b" 2 None 101%Z] in
  let evicted := (CacheGet c' "a" 0 131%Z).1 in
  (CacheGet c' "a" 0 131%Z).2 = 0
  ∧ cacheData evicted !! "a" = None ∧ ttl evicted !! "a" = None
  ∧ (∀ d t, CacheGet evicted "a" d t = (evicted, d))
  ∧ CacheDelete evicted "a" = (evicted, false).
Proof.
  apply (cache_entry_expires NewCache "a" 1 30%Z 100%Z
           [DoSet "b" 2 None 101%Z] 0 131%Z).
  - repeat constructor; discriminate.
  - reflexivity.
Defined.

End CacheFacts.

(** * Properties of output-mode matching *)
Module ModalitiesFacts.
Import Modalities.

Lemma elem_of_server_modes (serverOutputModes : list string) (acc : gset string) mode :
  mode ∈ foldl (λ (modes : gset string) m, {[m]} ∪ modes) acc serverOutputModes
  ↔ mode ∈ serverOutputModes ∨ mode ∈ acc.
Proof.
  revert acc. induction serverOutputModes as [|m rest IH]; intros acc; cbn.
  - rewrite elem_of_nil. tauto.
  - rewrite IH, elem_of_cons, elem_of_union, elem_of_singleton. tauto.
Qed.

Lemma any_mode_in_spec (serverModes : gset string) clientOutputModes :
  any_mode_in serverModes clientOutputModes = true
  ↔ ∃ mode, mode ∈ clientOutputModes ∧ mode ∈ serverModes.
Proof.
  induction clientOutputModes as [|m rest IH]; cbn.
  - split; [done|]. intros (mode & Hin & _). by apply elem_of_nil in Hin.
  - case_decide as Hm.
    + split; [|done]. intros _. exists m. split; [by left | done].
    + rewrite IH. split.
      * intros (mode & Hin & Hs). exists mode. split; [by right | done].
      * intros (mode & [-> | Hin]%elem_of_cons & Hs); [done|]. by exists mode.
Qed.

(** X13. [AreModalitiesCompatible] answers true exactly when one of the
    two lists is empty or some mode occurs in both; so it does not
    depend on which side is the server and which the client. *)
Theorem modalities_compatible_iff (serverOutputModes clientOutputModes : list string) :
  (AreModalitiesCompatible serverOutputModes clientOutputModes = true
   ↔ clientOutputModes = [] ∨ serverOutputModes = []
     ∨ ∃ mode, mode ∈ serverOutputModes ∧ mode ∈ clientOutputModes)
  ∧ AreModalitiesCompatible serverOutputModes clientOutputModes
    = AreModalitiesCompatible clientOutputModes serverOutputModes.
Proof.
  assert (Hiff : ∀ s c, AreModalitiesCompatible s c = true
            ↔ c = [] ∨ s = [] ∨ ∃ mode, mode ∈ s ∧ mode ∈ c).
  { intros s c. unfold AreModalitiesCompatible.
    destruct c as [|c0 c]; cbn [length]; [rewrite decide_True by done; tauto|].
    rewrite decide_False by done.
    destruct s as [|s0 s]; cbn [length]; [rewrite decide_True by done; tauto|].
    rewrite decide_False by done.
    rewrite any_mode_in_spec. split.
    - intros (mode & Hc & Hs). right. right. exists mode.
      apply elem_of_server_modes in Hs as [Hs | Hs]; [done|].
      by apply elem_of_empty in Hs.
    - intros [? | [? | (mode & Hs & Hc)]]; [done | done |].
      exists mode. split; [done|]. apply elem_of_server_modes. by left. }
  split; [apply Hiff|].
  apply eq_true_iff_eq. rewrite !Hiff.
  split; (intros [? | [? | (mode & ? & ?)]];
          [by right; left | by left | right; right; by exists mode]).
Qed.

End ModalitiesFacts.

(** * Properties of the JSON-RPC endpoint *)
Module ServerFacts.
Import Server.

Local Open Scope Z_scope.

Section WithJSON.
Context {J : Type} (decode_request : string → option (string * J * string * J)).

Lemma then_respond_Return {S A} (call : PushAuth.outcome (S * A))
    (respond : A → Response J) st' resp :
  then_respond J call respond = PushAuth.Return (st', resp) →
  ∃ a, call = PushAuth.Return (st', a) ∧ resp = respond a.
Proof.
  destruct call as [[st a]|]; cbn; [|done]. intros ?; simplify_eq. by exists a.
Qed.

(** X14. Through [processRequest] no request gets a successful answer,
    whatever the task manager behind it: a request that returns at all is
    answered 405 (not a POST), 400 (a JSON-RPC error: the body does not
    decode, the method is unknown, or the manager returned an error) or
    500 "Internal server error", because the results of the task-manager
    methods are none of the types [createResponse] knows how to write. *)
Theorem processRequest_never_succeeds {S : Type} (taskManager : TaskManager J S)
    (st : S) (r : PushAuth.Request) (st' : S) (resp : Response J) :
  processRequest J decode_request taskManager st r = PushAuth.Return (st', resp) →
  resp = http_Error J "Method not allowed" 405
  ∨ (StatusCode J resp = 400
     ∧ ∃ err, resp = handleError J err
         ∧ (Types.Code err = (-32700)%Z ∨ Types.Code err = (-32601)%Z
            ∨ Types.Code err = (-32603)%Z))
  ∨ resp = http_Error J "Internal server error" 500.
Proof.
  unfold processRequest.
  destruct (negb _); [intros ?; simplify_eq; by left|].
  destruct (decode_request _) as [[[[version id] method] params]|];
    [|intros ?; simplify_eq; right; left; split; [reflexivity|];
      eexists; split; [reflexivity|]; by left].
  assert (Hstream : ∀ res, respond_or_error J res = resp →
            (StatusCode J resp = 400
             ∧ ∃ err, resp = handleError J err
                 ∧ (Types.Code err = (-32700)%Z ∨ Types.Code err = (-32601)%Z
                    ∨ Types.Code err = (-32603)%Z))
            ∨ resp = http_Error J "Internal server error" 500).
  { intros [res [err|]] <-; cbn; [left | by right].
    split; [reflexivity|]. eexists. split; [reflexivity|]. cbn. by right; right. }
  repeat (destruct (String.eqb method _);
          [intros (a & _ & ->)%then_respond_Return;
           first [right; right; reflexivity
                 | right; apply (Hstream a); reflexivity] |]).
  intros ?; simplify_eq. right. left. split; [reflexivity|].
  eexists. split; [reflexivity|]. cbn. by right; left.
Qed.

(** X15. Requests that arrive over HTTP at a server backed by
    [InMemoryTaskManager]: for [get_task], [cancel_task],
    [set_task_push_notification] and [get_task_push_notification] the
    handler panics, because the decoded parameters are never of the
    pointer type the manager asserts; [send_task] is answered 500;
    [send_task_streaming] and [resubscribe_to_task] are answered with the
    JSON-RPC error -32603 "not implemented"; and no request changes the
    manager's tables. *)
Theorem in_memory_manager_over_http (st : Manager.manager) (r : PushAuth.Request)
    (version : string) (id : J) (method : string) (params : J) :
  PushAuth.Method r = "POST" →
  decode_request (PushAuth.Body r) = Some (version, id, method, params) →
  (method ∈ ["get_task"; "cancel_task"; "set_task_push_notification";
             "get_task_push_notification"] →
     processRequest J decode_request (InMemory J) st r = PushAuth.Panic)
  ∧ (method = "send_task" →
       processRequest J decode_request (InMemory J) st r
       = PushAuth.Return (st, http_Error J "Internal server error" 500))
  ∧ (method ∈ ["send_task_streaming"; "resubscribe_to_task"] →
       processRequest J decode_request (InMemory J) st r
       = PushAuth.Return
           (st, handleError J {| Types.Code := -32603;
                                 Types.ErrMessage := "not implemented" |}))
  ∧ (∀ st' resp,
       processRequest J decode_request (InMemory J) st r
       = PushAuth.Return (st', resp) → st' = st).
Proof.
  intros Hm Hdec. unfold processRequest.
  rewrite Hm, Hdec, String.eqb_refl. cbn [negb].
  split; [|split; [|split]].
  - intros Hin. repeat (apply elem_of_cons in Hin as [-> | Hin]); try reflexivity.
    by apply elem_of_nil in Hin.
  - intros ->. reflexivity.
  - intros Hin. repeat (apply elem_of_cons in Hin as [-> | Hin]); try reflexivity.
    by apply elem_of_nil in Hin.
  - intros st' resp.
    repeat (destruct (String.eqb method _); [cbn; intros ?; by simplify_eq |]).
    intros ?; by simplify_eq.
Qed.

End WithJSON.

Lemma processRequest_never_succeeds_witness :
  http_Error unit "Internal server error" 500 = http_Error unit "Method not allowed" 405
  ∨ (StatusCode unit (http_Error unit "Internal server error" 500) = 400
     ∧ ∃ err, http_Error unit "Internal server error" 500 = handleError unit err
         ∧ (Types.Code err = (-32700)%Z ∨ Types.Code err = (-32601)%Z
            ∨ Types.Code err = (-32603)%Z))
  ∨ http_Error unit "Internal server error" 500
    = http_Error unit "Internal server error" 500.
Proof.
  apply (processRequest_never_succeeds sample_decode (InMemory unit)
           Manager.manager1 (post "send_task") Manager.manager1).
  reflexivity.
Defined.

Lemma in_memory_manager_over_http_witness :
  processRequest unit sample_decode (InMemory unit) Manager.manager1 (post "get_task")
  = PushAuth.Panic
  ∧ processRequest unit sample_decode (InMemory unit) Manager.manager1
      (post "send_task")
    = PushAuth.Return (Manager.manager1, http_Error unit "Internal server error" 500)
  ∧ processRequest unit sample_decode (InMemory unit) Manager.manager1
      (post "resubscribe_to_task")
    = PushAuth.Return
        (Manager.manager1,
         handleError unit {| Types.Code := -32603;
                             Types.ErrMessage := "not implemented" |}).
Proof.
  split; [|split].
  - apply (proj1 (in_memory_manager_over_http sample_decode Manager.manager1
                    (post "get_task") "2.0" tt "get_task" tt eq_refl eq_refl)).
    by left.
  - apply (proj1 (proj2 (in_memory_manager_over_http sample_decode
                           Manager.manager1 (post "send_task") "2.0" tt
                           "send_task" tt eq_refl eq_refl))).
    reflexivity.
  - apply (proj1 (proj2 (proj2 (in_memory_manager_over_http sample_decode
                                  Manager.manager1 (post "resubscribe_to_task")
                                  "2.0" tt "resubscribe_to_task" tt
                                  eq_refl eq_refl)))).
    right. by left.
Defined.

End ServerFacts.

(** * More properties of push-notification authentication *)
Module PushAuthMoreFacts.
Import PushAuth.

Local Open Scope Z_scope.

Section WithLib.
Context {L : Lib}.

(** X16. The two verifiers agree on the token, and
    [VerifyPushNotification] adds only the digest check: on a request
    with a Bearer credential, it panics when [VerifyToken] panics on the
    token, fails with the same error when [VerifyToken] fails, and when
    [VerifyToken] accepts the token it either accepts the request or
    fails with "digest mismatch". *)
Theorem verifiers_agree_on_token (r : PushNotificationReceiverAuth) (now : Z)
    (req : Request) :
  HasPrefix (HeaderGet (Header req) "Authorization") AuthHeaderPrefix = true →
  match VerifyToken r now
          (TrimPrefix (HeaderGet (Header req) "Authorization") AuthHeaderPrefix) with
  | Panic => VerifyPushNotification r now req = Panic
  | Return (Some err) => VerifyPushNotification r now req = Return (false, Some err)
  | Return None =>
      VerifyPushNotification r now req = Return (true, None)
      ∨ VerifyPushNotification r now req = Return (false, Some "digest mismatch")
  end.
Proof.
  intros Hp. unfold VerifyToken, VerifyPushNotification. rewrite Hp. cbn [negb].
  destruct (jwt_parse _ _ _) as [err|claims]; [done|].
  destruct (iat_expired claims now) as [[|]|]; [done | | done].
  case_decide; [by left | by right].
Qed.

(** X17. [handleNotification] answers 200 only to a POST with a Bearer
    credential whose token [VerifyToken] accepts and whose body decodes
    as JSON. *)
Theorem handleNotification_accepts_only (auth : PushNotificationReceiverAuth)
    (now : Z) (r : Request) (resp : Response) :
  handleNotification auth now r = Return resp →
  StatusCode resp = StatusOK →
  Method r = "POST"
  ∧ HasPrefix (HeaderGet (Header r) "Authorization") "Bearer " = true
  ∧ VerifyToken auth now (TrimPrefix (HeaderGet (Header r) "Authorization") "Bearer ")
    = Return None
  ∧ ∃ notification, json_decode (Body r) = inr notification.
Proof.
  unfold handleNotification.
  destruct (String.eqb_spec (Method r) "POST") as [Hm|]; cbn [negb];
    [|intros [= <-]; done].
  destruct (HasPrefix _ _); cbn [negb]; [|intros [= <-]; done].
  destruct (VerifyToken _ _ _) as [[err|]|]; [intros [= <-]; done | | done].
  destruct (json_decode _) as [err|notification]; [intros [= <-]; done|].
  intros _ _. by eauto.
Qed.

(** X18. The expiry test of [VerifyToken] at a reading of the wall
    clock, for a token whose [iat] is a number with an integer part [s]
    that fits an int64 (a fraction is discarded).  As long as
    [time.Unix(s, 0)] does not wrap around, that is for [s] below
    2^63 - 62135596800, the token counts as expired exactly when more
    than five minutes, to the nanosecond, have passed since the start of
    second [s]; so a token from the future is accepted.  From
    2^63 - 62135596800 on the sum wraps around to a time far in the past
    and the token counts as expired. *)
Theorem token_expiry_boundary (r : PushNotificationReceiverAuth) (now : Z)
    (tok : string) (claims : gmap string claim) (f : float64) (s : Z) :
  wall_clock now →
  jwt_parse (keyfunc r) now tok = inr claims →
  claims !! "iat" = Some (CNumber f) →
  float64_int64 f = Some s →
  (s + unixToInternal < 2 ^ 63 →
     (VerifyToken r now tok = Return None ↔ now ≤ s * Second + 5 * Minute)
     ∧ (VerifyToken r now tok = Return (Some "token expired")
        ↔ s * Second + 5 * Minute < now)
     ∧ (now ≤ s * Second → VerifyToken r now tok = Return None))
  ∧ (2 ^ 63 ≤ s + unixToInternal →
       VerifyToken r now tok = Return (Some "token expired")).
Proof.
  intros Hnow Hparse Hiat Hf.
  destruct (PushAuthFacts.int64_of_float64_fits f s Hf) as [Hconv Hs].
  rewrite (PushAuthFacts.VerifyToken_parsed _ _ _ _ _ Hparse Hiat), Hconv.
  split.
  - intros Hfit.
    assert (Hfits : - 2 ^ 63 ≤ s + unixToInternal < 2 ^ 63)
      by (unfold unixToInternal in *; lia).
    destruct (5 * Minute <? Since now s) eqn:Hexp.
    + apply (PushAuthFacts.expired_iff now s Hnow Hfits) in Hexp.
      split; [split; [done | lia]|]. split; [split; [lia | done]|].
      unfold Minute, Second in *. lia.
    + apply (PushAuthFacts.fresh_iff now s Hnow Hfits) in Hexp.
      split; [split; [lia | done]|]. split; [split; [done | lia]|]. done.
  - intros Hwrap. rewrite (PushAuthFacts.Since_wraps now s Hnow Hwrap) by lia.
    reflexivity.
Qed.

(** X19. A token that parses but carries no [iat], or an [iat] that is
    not a number, is not rejected: [VerifyToken] panics, and so do
    [VerifyPushNotification] and [handleNotification] on a request that
    carries it. *)
Theorem missing_iat_panics (r : PushNotificationReceiverAuth) (now : Z)
    (req : Request) (tok : string) (claims : gmap string claim) :
  HeaderGet (Header req) "Authorization" = ("Bearer " ++ tok)%string →
  jwt_parse (keyfunc r) now tok = inr claims →
  (∀ n, claims !! "iat" ≠ Some (CNumber n)) →
  VerifyToken r now tok = Panic
  ∧ VerifyPushNotification r now req = Panic
  ∧ (Method req = "POST" → handleNotification r now req = Panic).
Proof.
  intros Hh Hparse Hiat.
  assert (Hexp : iat_expired claims now = Panic).
  { unfold iat_expired. destruct (claims !! "iat") as [[z|n| |]|] eqn:Hc; try done.
    by destruct (Hiat n). }
  assert (Htok : VerifyToken r now tok = Panic).
  { unfold VerifyToken. by rewrite Hparse, Hexp. }
  split; [done|]. split.
  - unfold VerifyPushNotification, AuthHeaderPrefix. rewrite Hh.
    destruct (PushAuthFacts.bearer_prefix tok) as [-> ->]. cbn [negb].
    by rewrite Hparse, Hexp.
  - intros Hm. unfold handleNotification. rewrite Hm, Hh, String.eqb_refl.
    destruct (PushAuthFacts.bearer_prefix tok) as [-> ->]. cbn [negb].
    by rewrite Htok.
Qed.

(** X20. What [SendPushNotification] does: it returns the signing
    error when the token cannot be made; otherwise it panics when the
    URL does not parse (the error of [http.NewRequest] is dropped and the
    nil request is used); otherwise it sends a POST to the URL with the
    token as Bearer credential, and returns the transport error when the
    request cannot be delivered and nil as soon as any response comes
    back, whatever its status. *)
Theorem SendPushNotification_reports (s : PushNotificationSenderAuth) (now : Z)
    (url : string) (data : Payload) (http_Do : Request → error + Response) :
  (∀ err, GenerateJWT s now data = inl err →
     Sender.SendPushNotification s now url data http_Do = Return (Some err))
  ∧ (∀ tok, GenerateJWT s now data = inr tok →
       (∀ e, url_parse_error url = Some e →
          Sender.SendPushNotification s now url data http_Do = Panic)
       ∧ (url_parse_error url = None →
          ∃ req, SendPushNotification_request s now url data = Return (inr req)
            ∧ Method req = "POST" ∧ URL req = url
            ∧ HeaderGet (Header req) "Authorization" = ("Bearer " ++ tok)%string
            ∧ (∀ err, http_Do req = inl err →
                 Sender.SendPushNotification s now url data http_Do
                 = Return (Some err))
            ∧ (∀ resp, http_Do req = inr resp →
                 Sender.SendPushNotification s now url data http_Do
                 = Return None))).
Proof.
  unfold Sender.SendPushNotification, SendPushNotification_request. split.
  - by intros err ->.
  - intros tok ->. split.
    + by intros e ->.
    + intros ->. eexists. split; [reflexivity|].
      split; [done|]. split; [done|]. split; [done|].
      split; [by intros err -> | by intros resp ->].
Qed.

Context {LL : LibLaws L}.

(** X21. Sender and listener end to end: the request that
    [SendPushNotification] builds for a payload is answered 200 by
    [handleNotification] of a listener that holds the sender's public
    key, when it arrives at most five minutes after the second it was
    signed in and its body decodes (signing and arrival at readings of
    the wall clock). *)
Theorem sent_notification_accepted (s : PushNotificationSenderAuth)
    (auth : PushNotificationReceiverAuth) (t_sign t_arrive : Z) (url : string)
    (data : Payload) (req : Request) (notification : Payload) :
  publicKey auth = public_of (privateKey s) →
  wall_clock t_sign → wall_clock t_arrive →
  SendPushNotification_request s t_sign url data = Return (inr req) →
  t_arrive ≤ Unix t_sign * Second + 5 * Minute →
  json_decode (Body req) = inr notification →
  handleNotification auth t_arrive req
  = Return {| StatusCode := StatusOK; RespHeader := ∅; RespBody := EmptyString |}.
Proof.
  intros Hkey Hsign Harrive Hreq Hfresh Hdec.
  unfold SendPushNotification_request in Hreq.
  destruct (GenerateJWT s t_sign data) as [err|tok] eqn:Hgen; [done|].
  destruct (url_parse_error url); [done|].
  injection Hreq as <-. cbn in Hdec.
  destruct (PushAuthFacts.sender_token_parsed s auth t_sign t_arrive data tok
              Hkey Hgen) as (buf & Henc & Hparse).
  destruct (PushAuthFacts.Unix_bounds t_sign Hsign) as [Hsmall Hfits].
  destruct (PushAuthFacts.nearest_float64_small _ Hsmall) as [_ Hint].
  destruct (PushAuthFacts.int64_of_float64_fits _ _ Hint) as [Hconv _].
  unfold handleNotification. cbn [Method Header Body].
  change (HeaderGet _ "Authorization") with ("Bearer " ++ tok)%string.
  rewrite String.eqb_refl.
  destruct (PushAuthFacts.bearer_prefix tok) as [-> ->]. cbn [negb].
  rewrite (PushAuthFacts.VerifyToken_parsed _ _ _ _ _ Hparse eq_refl), Hconv.
  assert (Hf : (5 * Minute <? Since t_arrive (Unix t_sign)) = false)
    by (apply (PushAuthFacts.fresh_iff _ _ Harrive Hfits); lia).
  by rewrite Hf, Hdec.
Qed.

End WithLib.

(** X22. [handleValidationCheck] answers 200 exactly to a GET that
    carries a non-empty [Validation-Token] header, and then the body is
    that header's value, byte for byte; every other request is answered
    405 or 400. *)
Theorem handleValidationCheck_answers (r : Request) :
  (StatusCode (handleValidationCheck r) = StatusOK
   ↔ Method r = "GET" ∧ HeaderGet (Header r) "Validation-Token" ≠ EmptyString)
  ∧ (StatusCode (handleValidationCheck r) = StatusOK →
     RespBody (handleValidationCheck r) = HeaderGet (Header r) "Validation-Token")
  ∧ (StatusCode (handleValidationCheck r) = StatusOK
     ∨ StatusCode (handleValidationCheck r) = StatusMethodNotAllowed
     ∨ StatusCode (handleValidationCheck r) = StatusBadRequest).
Proof.
  unfold handleValidationCheck.
  destruct (String.eqb_spec (Method r) "GET") as [Hm|Hm]; cbn [negb].
  - destruct (String.eqb_spec (HeaderGet (Header r) "Validation-Token") EmptyString)
      as [He|He]; cbn.
    + split; [split; [done | by intros [_ ?]]|]. split; [done | by right; right].
    + split; [done|]. split; [done | by left].
  - cbn. split; [split; [done | by intros [? _]]|]. split; [done | by right; left].
Qed.

Import Scenario Scenario2.

Lemma verifiers_agree_on_token_witness :
  VerifyPushNotification receiver (t_sign + 60 * Second)
    (bearer_request other_object) = Return (true, None)
  ∨ VerifyPushNotification receiver (t_sign + 60 * Second)
      (bearer_request other_object) = Return (false, Some "digest mismatch").
Proof.
  apply (verifiers_agree_on_token receiver (t_sign + 60 * Second)
           (bearer_request other_object)).
  reflexivity.
Defined.

Lemma handleNotification_accepts_only_witness :
  Method (bearer_request other_object) = "POST"
  ∧ HasPrefix (HeaderGet (Header (bearer_request other_object)) "Authorization")
      "Bearer " = true
  ∧ VerifyToken receiver (t_sign + 60 * Second)
      (TrimPrefix (HeaderGet (Header (bearer_request other_object)) "Authorization")
         "Bearer ") = Return None
  ∧ ∃ notification,
      json_decode (Body (bearer_request other_object)) = inr notification.
Proof.
  apply (handleNotification_accepts_only receiver (t_sign + 60 * Second)
           (bearer_request other_object)
           {| StatusCode := StatusOK; RespHeader := ∅; RespBody := EmptyString |}).
  - reflexivity.
  - reflexivity.
Defined.

Lemma token_expiry_boundary_witness :
  (1700000000 + unixToInternal < 2 ^ 63 →
     (VerifyToken receiver (1700000300 * Second) issued_token = Return None
      ↔ 1700000300 * Second ≤ 1700000000 * Second + 5 * Minute)
     ∧ (VerifyToken receiver (1700000300 * Second) issued_token
        = Return (Some "token expired")
        ↔ 1700000000 * Second + 5 * Minute < 1700000300 * Second)
     ∧ (1700000300 * Second ≤ 1700000000 * Second →
        VerifyToken receiver (1700000300 * Second) issued_token = Return None))
  ∧ (2 ^ 63 ≤ 1700000000 + unixToInternal →
       VerifyToken receiver (1700000300 * Second) issued_token
       = Return (Some "token expired")).
Proof.
  apply (token_expiry_boundary receiver (1700000300 * Second) issued_token
           parsed_claims (Finite 1700000000 0) 1700000000).
  - vm_compute. split; [discriminate | reflexivity].
  - vm_compute. reflexivity.
  - vm_compute. reflexivity.
  - vm_compute. reflexivity.
Defined.

Lemma missing_iat_panics_witness :
  VerifyToken bare_receiver t_sign issued_token = Panic
  ∧ VerifyPushNotification bare_receiver t_sign
      (bearer_request empty_object) = Panic
  ∧ (Method (bearer_request empty_object) = "POST" →
     handleNotification bare_receiver t_sign
       (bearer_request empty_object) = Panic).
Proof.
  apply (missing_iat_panics (L := bare_lib) bare_receiver t_sign
           (bearer_request empty_object) issued_token bare_claims).
  - reflexivity.
  - reflexivity.
  - intros n. discriminate.
Defined.

Lemma SendPushNotification_reports_witness :
  (∀ e, url_parse_error "http://localhost:5000/notify" = Some e →
     Sender.SendPushNotification sender t_sign "http://localhost:5000/notify"
       empty_payload refusing_receiver = Panic)
  ∧ (url_parse_error "http://localhost:5000/notify" = None →
     ∃ req,
       SendPushNotification_request sender t_sign "http://localhost:5000/notify"
         empty_payload = Return (inr req)
       ∧ Method req = "POST" ∧ URL req = "http://localhost:5000/notify"
       ∧ HeaderGet (Header req) "Authorization" = ("Bearer " ++ issued_token)%string
       ∧ (∀ err, refusing_receiver req = inl err →
            Sender.SendPushNotification sender t_sign "http://localhost:5000/notify"
              empty_payload refusing_receiver = Return (Some err))
       ∧ (∀ resp, refusing_receiver req = inr resp →
            Sender.SendPushNotification sender t_sign "http://localhost:5000/notify"
              empty_payload refusing_receiver = Return None)).
Proof.
  apply (proj2 (SendPushNotification_reports sender t_sign
                  "http://localhost:5000/notify" empty_payload refusing_receiver)).
  vm_compute. reflexivity.
Defined.

(** A URL that does not parse: the call panics instead of returning an
    error. *)
Example SendPushNotification_bad_url :
  Sender.SendPushNotification sender t_sign ":" empty_payload refusing_receiver
  = Panic.
Proof. vm_compute. reflexivity. Qed.

(** A token whose [iat] is the float64 2^63 - 1024, far in the future,
    is reported expired: [time.Unix] wraps around. *)
Example far_future_iat_expired :
  float64_int64 (Finite (2 ^ 53 - 1) 10) = Some (2 ^ 63 - 1024)
  ∧ iat_expired (L := lib) {[ "iat" := CNumber (Finite (2 ^ 53 - 1) 10) ]}
      (1700000000 * Second) = Return true.
Proof. split; vm_compute; reflexivity. Qed.

Lemma sent_notification_accepted_witness :
  handleNotification receiver (t_sign + 60 * Second) sent_request
  = Return {| StatusCode := StatusOK; RespHeader := ∅; RespBody := EmptyString |}.
Proof.
  apply (sent_notification_accepted sender receiver t_sign (t_sign + 60 * Second)
           "http://localhost:5000/notify" empty_payload sent_request empty_payload).
  - reflexivity.
  - vm_compute. split; [discriminate | reflexivity].
  - vm_compute. split; [discriminate | reflexivity].
  - vm_compute. reflexivity.
  - vm_compute. discriminate.
  - reflexivity.
Defined.

End PushAuthMoreFacts.

(** * More properties of the SSE machine *)
Module SSEMoreFacts.
Import Types SSE Publication.

Section WithGrowth.
Variable growcap : nat → nat → nat.

(** X23. [setupSSEConsumer] in a state the machine reaches: a
    resubscription to a task that has no subscriber list fails and
    changes nothing; every other call returns a channel that was
    registered nowhere before and registers it as the last subscriber of
    the task, leaving the subscribers of the other tasks as they
    were. *)
Theorem setupSSEConsumer_registers (sched : list action) (st : state)
    (taskID : string) (isResubscribe : bool) :
  run growcap sched init = Some st →
  let r := setupSSEConsumer growcap st taskID isResubscribe in
  (subscribers_of st taskID = None ∧ isResubscribe = true
   ∧ r = (st, inl "task not found for resubscription"))
  ∨ (∃ q, r.2 = inr q
       ∧ (∀ t, ¬ registered st t q)
       ∧ subscribers_of r.1 taskID
           = Some (default [] (subscribers_of st taskID) ++ [q])
       ∧ ∀ t2, t2 ≠ taskID → subscribers_of r.1 t2 = subscribers_of st t2).
Proof.
  intros Hrun r.
  assert (HI : Inv st) by (apply (SSEFacts.reachable_Inv growcap); by exists sched).
  destruct (SSEFacts.setupSSEConsumer_spec growcap st taskID isResubscribe HI)
    as [? | (Hq & _ & _ & Hv & Hframe)]; [by left | right].
  exists (next_chan st). split; [done|]. split; [|done].
  intros t (v & Hsome & Hin). unfold subscribers_of in Hsome.
  destruct (taskSSESubscribers st !! t) as [s|] eqn:Hs; [|done].
  injection Hsome as <-.
  destruct (inv_view _ HI _ _ Hs) as [_ Hb]. specialize (Hb _ Hin). lia.
Qed.

(** X24. In every state the machine reaches, no channel is registered
    twice for a task. *)
Theorem registry_has_no_duplicates (sched : list action) (st : state)
    (taskID : string) (v : list chan) :
  run growcap sched init = Some st →
  subscribers_of st taskID = Some v →
  NoDup v.
Proof.
  intros Hrun Hsome.
  assert (HI : Inv st) by (apply (SSEFacts.reachable_Inv growcap); by exists sched).
  unfold subscribers_of in Hsome.
  destruct (taskSSESubscribers st !! taskID) as [s|] eqn:Hs; [|done].
  injection Hsome as <-. by destruct (inv_view _ HI _ _ Hs).
Qed.

(** X25. An error event ends a subscription as a final status update
    does.  In a state the machine reaches, let a publisher hand a
    [JSONRPCError] to a goroutine of [dequeueEventsForSSE].  The hand-off
    happens, and in every state reached from there nothing can be handed
    to the goroutine, and either it is blocked sending the error response
    (with no result) on an open [responseChan], where the reader can
    take it; or the reader has taken it as the last response and the
    goroutine has left its loop, its deferred functions still to run or
    having closed the stream and removed the queue from the registry. *)
Theorem error_event_ends_subscription (sched : list action) (st : state)
    (p g : nat) (pub : publisher) (gr : goroutine) (err : JSONRPCError)
    (subscribers : slice) (i : nat) :
  run growcap sched init = Some st →
  publishers st !! p = Some pub →
  goroutines st !! g = Some gr →
  pub_at pub = PubSend subscribers i (g_queue gr) →
  g_queue gr ≠ nil_chan →
  g_at gr = Receiving →
  pub_event pub = RPCError err →
  let failure := {| Result := None; Error := Some err;
                    RespID := g_requestID gr |} in
  ∃ st1,
    step growcap (Handoff p g) st = Some st1
    ∧ ∀ sched' st2, run growcap sched' st1 = Some st2 →
        (∀ p', step growcap (Handoff p' g) st2 = None)
        ∧ ((blocked_sending g (g_queue gr) (g_taskID gr) (responses gr) failure st2
            ∧ ∃ st3, step growcap (Read g) st2 = Some st3
                ∧ finished g (g_queue gr) (g_taskID gr)
                    (responses gr ++ [failure]) st3)
           ∨ finished g (g_queue gr) (g_taskID gr) (responses gr ++ [failure]) st2).
Proof.
  intros Hrun Hp Hg Hpub Hnil Hrecv Hev failure.
  destruct (SSEFacts.handoff_breaking growcap sched st p g pub gr subscribers i
              failure Hrun Hp Hg Hpub Hnil Hrecv) as (st1 & Hstep & HI1 & Hbl).
  { by rewrite Hev. }
  exists st1. split; [exact Hstep|].
  intros sched' st2 Hrun'.
  assert (HI2 : Inv st2) by (by eapply SSEFacts.run_Inv).
  assert (Hend : ending g (g_queue gr) (g_taskID gr) (responses gr) failure st2)
    by (eapply SSEFacts.run_ending; [exact HI1 | by left | exact Hrun']).
  split; [apply (SSEFacts.ending_spec growcap _ _ _ _ _ _ HI2 Hend)|].
  destruct Hend as [Hbl2 | Hfin]; [left | by right].
  split; [exact Hbl2|].
  destruct Hbl2 as (gr2 & Hg2 & Hq & Ht & Hat & Hrs & Hcl).
  destruct (SSEFacts.responseChan_receive_spec growcap st2 g gr2 failure true Hg2 Hat)
    as (st3 & gr3 & Hstep3 & Hg3 & Hq3 & Ht3 & Hat3 & Hrs3 & _).
  exists st3. split; [exact Hstep3|].
  exists gr3. repeat split; try congruence. by left.
Qed.

(** *** Channels in the registry are never nil *)

Lemma registered_same st st' :
  taskSSESubscribers st' = taskSSESubscribers st → arrays st' = arrays st →
  ∀ t c, registered st' t c ↔ registered st t c.
Proof.
  intros Hr Ha t c. unfold registered, subscribers_of. by rewrite Hr, Ha.
Qed.

(** A step registers at most the channel it has just made. *)
Lemma step_registered a st st' :
  Inv st → step growcap a st = Some st' →
  next_chan st ≤ next_chan st'
  ∧ ∀ t c, registered st' t c → registered st t c ∨ c = next_chan st.
Proof.
  intros HI Hstep.
  assert (Hkeep : next_chan st' = next_chan st →
            taskSSESubscribers st' = taskSSESubscribers st →
            arrays st' = arrays st →
            next_chan st ≤ next_chan st'
            ∧ ∀ t c, registered st' t c → registered st t c ∨ c = next_chan st).
  { intros -> Hr Ha. split; [done|]. intros t c Hreg. left.
    by apply (registered_same st st' Hr Ha). }
  destruct a as [t r | rid t q' | t ev | p | p g' | g' | g']; cbn in Hstep.
  - injection Hstep as <-.
    destruct (SSEFacts.setupSSEConsumer_spec growcap st t r HI)
      as [(_ & _ & Heq) | (_ & _ & Hnc & Hv & Hframe)].
    + rewrite Heq. cbn. split; [done|]. by left.
    + rewrite Hnc. split; [lia|]. intros t' c (v & Hsome & Hin).
      destruct (decide (t' = t)) as [-> | Hne].
      * rewrite Hv in Hsome. injection Hsome as <-.
        apply elem_of_app in Hin as [Hin | Hin%list_elem_of_singleton]; [|by right].
        left. destruct (subscribers_of st t) as [v|] eqn:Hst;
          [|by apply elem_of_nil in Hin].
        exists v. by split.
      * rewrite Hframe in Hsome by done. left. by exists v.
  - case_decide; [|done]. injection Hstep as <-. by apply Hkeep.
  - injection Hstep as <-. by apply Hkeep.
  - unfold enqueueEventsForSSE_step in Hstep.
    destruct (publishers st !! p) as [pub|]; cbn in Hstep; [|done].
    destruct (pub_at pub) as [|s i|s i c|]; try done.
    + destruct (taskSSESubscribers st !! pub_task pub);
        injection Hstep as <-; by apply Hkeep.
    + case_decide.
      * destruct (arrays st !! arr s) as [a|]; cbn in Hstep; [|done].
        destruct (a !! i); cbn in Hstep; [|done].
        injection Hstep as <-. by apply Hkeep.
      * injection Hstep as <-. by apply Hkeep.
  - unfold handoff in Hstep.
    destruct (publishers st !! p) as [pub|]; cbn in Hstep; [|done].
    destruct (goroutines st !! g') as [gr'|]; cbn in Hstep; [|done].
    destruct (pub_at pub) as [|s i|s i c|]; try done.
    destruct (g_at gr'); try done. case_decide; [|done].
    destruct (dequeueEventsForSSE_iteration _ _) as [resp brk].
    injection Hstep as <-. by apply Hkeep.
  - unfold responseChan_receive in Hstep.
    destruct (goroutines st !! g') as [gr'|]; cbn in Hstep; [|done].
    destruct (g_at gr'); try done.
    injection Hstep as <-. by apply Hkeep.
  - unfold dequeueEventsForSSE_deferred in Hstep.
    destruct (goroutines st !! g') as [gr'|] eqn:Hg'; cbn in Hstep; [|done].
    destruct (g_at gr'); try done.
    destruct (remove_subscriber _ _ _ _) as [[reg' h'] next'] eqn:Hrm.
    injection Hstep as <-. cbn. split; [done|].
    destruct (SSEFacts.remove_subscriber_spec growcap st (g_taskID gr')
                (g_queue gr') (goroutines st) (publishers st) HI
                (inv_queue _ HI) _ _ _ Hrm) as (_ & Hv & Hframe).
    intros t c (v & Hsome & Hin). left.
    unfold registered, subscribers_of in *. cbn in *.
    destruct (decide (t = g_taskID gr')) as [-> | Hne].
    + rewrite Hv in Hsome.
      destruct (taskSSESubscribers st !! g_taskID gr') as [s|]; [|done].
      cbn in *. injection Hsome as <-. eexists. split; [done|].
      eapply elem_of_sublist; [exact Hin | apply SSEFacts.remove_first_sublist].
    + rewrite Hframe in Hsome by done. by exists v.
Qed.

Lemma reachable_not_nil sched st :
  run growcap sched init = Some st →
  ∀ t c, registered st t c → c ≠ nil_chan.
Proof.
  intros Hrun.
  assert (Hgen : ∀ sched st0 st1,
            Inv st0 → 1 ≤ next_chan st0 →
            (∀ t c, registered st0 t c → c ≠ nil_chan) →
            run growcap sched st0 = Some st1 →
            ∀ t c, registered st1 t c → c ≠ nil_chan).
  { clear. induction sched as [|a sched IH]; intros st0 st1 HI Hnc Hreg; cbn.
    - by intros [= <-].
    - destruct (step growcap a st0) as [st'|] eqn:Hstep; cbn; [|done].
      destruct (step_registered a st0 st' HI Hstep) as [Hle Hnew].
      apply IH; [by eapply SSEFacts.step_Inv | lia |].
      intros t c [Hold | ->]%Hnew; [by eapply Hreg|].
      unfold nil_chan. lia. }
  apply (Hgen sched init st); [apply SSEFacts.Inv_init | done | | done].
  intros t c (v & Hsome & _). unfold subscribers_of in Hsome. cbn in Hsome.
  by rewrite lookup_empty in Hsome.
Qed.

(** *** One publication without interference *)

Lemma run_app l1 l2 st :
  run growcap (l1 ++ l2) st = run growcap l1 st ≫= run growcap l2.
Proof.
  revert st. induction l1 as [|a l1 IH]; intros st; cbn; [done|].
  destruct (step growcap a st); cbn; [apply IH | done].
Qed.

Lemma at_pc_at_pc pub pc1 pc2 : at_pc (at_pc pub pc1) pc2 = at_pc pub pc2.
Proof. reflexivity. Qed.

(** The loop of [enqueueEventsForSSE] from index [k] on, when the cells
    from [k] on hold the queues of goroutines that are receiving. *)
Lemma quiet_loop p pub s a gs : ∀ k st,
  publishers st !! p = Some (at_pc pub (PubRange s k)) →
  arrays st !! arr s = Some a →
  length gs + k = len s →
  (∀ j g, gs !! j = Some g →
     ∃ q, a !! (k + j) = Some q ∧ q ≠ nil_chan ∧ receives_on st g q) →
  NoDup gs →
  ∃ st',
    run growcap (flat_map (λ g, [PubStep p; Handoff p g]) gs ++ [PubStep p]) st
    = Some st'
    ∧ publishers st' !! p = Some (at_pc pub PubReturned)
    ∧ taskSSESubscribers st' = taskSSESubscribers st
    ∧ arrays st' = arrays st
    ∧ (∀ g, g ∉ gs → goroutines st' !! g = goroutines st !! g)
    ∧ (∀ g, g ∈ gs →
         ∃ gr gr', goroutines st !! g = Some gr ∧ goroutines st' !! g = Some gr'
           ∧ g_at gr' = Sending (forwarded (g_requestID gr) (pub_event pub))
                          (breaks (g_requestID gr) (pub_event pub))
           ∧ responses gr' = responses gr).
Proof.
  induction gs as [|g gs IH]; intros k st Hp Ha Hlen Hcells Hnd.
  - cbn. unfold enqueueEventsForSSE_step. rewrite Hp. cbn.
    rewrite decide_False by (cbn in Hlen; lia).
    eexists. split; [reflexivity|]. cbn.
    split; [rewrite list_lookup_insert_eq by (by eapply lookup_lt_Some); done|].
    repeat split; try done. intros g Hg. by apply elem_of_nil in Hg.
  - destruct (Hcells 0 g eq_refl) as (q & Hq & Hnil & gr & Hg & Hgq & Hat).
    rewrite Nat.add_0_r in Hq.
    apply NoDup_cons in Hnd as [Hnotin Hnd].
    assert (Hplt : p < length (publishers st)) by (by eapply lookup_lt_Some).
    assert (Hglt : g < length (goroutines st)) by (by eapply lookup_lt_Some).
    set (gr' := {| g_requestID := g_requestID gr; g_taskID := g_taskID gr;
                   g_queue := g_queue gr;
                   g_at := Sending (forwarded (g_requestID gr) (pub_event pub))
                             (breaks (g_requestID gr) (pub_event pub));
                   responses := responses gr;
                   closed := closed gr |}).
    set (st2 := {| taskSSESubscribers := taskSSESubscribers st;
                   arrays := arrays st; next_array := next_array st;
                   next_chan := next_chan st;
                   goroutines := <[g := gr']> (goroutines st);
                   publishers :=
                     <[p := at_pc pub (PubRange s (S k))]>
                       (<[p := at_pc pub (PubSend s k q)]> (publishers st)) |}).
    assert (Hsteps : run growcap [PubStep p; Handoff p g] st = Some st2).
    { cbn. unfold enqueueEventsForSSE_step. rewrite Hp. cbn.
      rewrite decide_True by (cbn in Hlen; lia).
      rewrite Ha. cbn. rewrite Hq. cbn.
      unfold handoff. cbn. rewrite list_lookup_insert_eq by done. cbn.
      rewrite Hg. cbn. rewrite Hat.
      rewrite decide_True by (split; [by rewrite Hgq | done]).
      subst st2 gr'. unfold forwarded, breaks.
      destruct (dequeueEventsForSSE_iteration _ _) as [resp brk].
      cbn. reflexivity. }
    destruct (IH (S k) st2) as (st' & Hrun & Hp' & Hr' & Ha' & Hout & Hin).
    + cbn. rewrite list_lookup_insert_eq; [done|]. by rewrite length_insert.
    + done.
    + cbn in Hlen. lia.
    + intros j g0 Hj. destruct (Hcells (S j) g0 Hj) as (q0 & Hq0 & Hn0 & gr0 & Hg0 & ? & ?).
      exists q0. replace (S k + j) with (k + S j) by lia.
      split; [done|]. split; [done|]. exists gr0. cbn.
      rewrite list_lookup_insert_ne; [done|].
      intros ->. apply Hnotin. by eapply list_elem_of_lookup_2.
    + done.
    + exists st'. split.
      { change (flat_map _ (g :: gs) ++ [PubStep p])
          with ([PubStep p; Handoff p g]
                ++ (flat_map (λ g, [PubStep p; Handoff p g]) gs ++ [PubStep p])).
        rewrite run_app, Hsteps. exact Hrun. }
      split; [done|]. split; [done|]. split; [done|]. split.
      * intros g0 Hg0. apply not_elem_of_cons in Hg0 as [Hne Hg0].
        rewrite Hout by done. cbn. by rewrite list_lookup_insert_ne.
      * intros g0 [-> | Hg0]%elem_of_cons.
        -- exists gr, gr'. split; [done|]. split; [|done].
           rewrite Hout by done. cbn. by rewrite list_lookup_insert_eq.
        -- destruct (Hin g0 Hg0) as (gr0 & gr0' & Hgr0 & Hgr0' & Hresp).
           exists gr0, gr0'. split; [|done].
           cbn in Hgr0. rewrite list_lookup_insert_ne in Hgr0; [done|].
           intros ->. done.
Qed.

(** The readers of goroutines that are blocked in their sends take one
    response each. *)
Lemma read_all gs : ∀ st,
  NoDup gs →
  (∀ g, g ∈ gs → ∃ gr resp brk,
     goroutines st !! g = Some gr ∧ g_at gr = Sending resp brk) →
  ∃ st',
    run growcap (read_each gs) st = Some st'
    ∧ publishers st' = publishers st
    ∧ taskSSESubscribers st' = taskSSESubscribers st
    ∧ arrays st' = arrays st
    ∧ (∀ g, g ∉ gs → goroutines st' !! g = goroutines st !! g)
    ∧ (∀ g gr resp brk, g ∈ gs →
         goroutines st !! g = Some gr → g_at gr = Sending resp brk →
         ∃ gr', goroutines st' !! g = Some gr'
           ∧ responses gr' = responses gr ++ [resp]
           ∧ g_at gr' = (if brk then Deferred else Receiving)).
Proof.
  induction gs as [|g gs IH]; intros st Hnd Hall.
  - exists st. split; [done|]. repeat split; try done.
    intros g gr resp brk Hg. by apply elem_of_nil in Hg.
  - apply NoDup_cons in Hnd as [Hnotin Hnd].
    destruct (Hall g) as (gr & resp & brk & Hg & Hat); [by left|].
    set (gr1 := {| g_requestID := g_requestID gr; g_taskID := g_taskID gr;
                   g_queue := g_queue gr;
                   g_at := if brk then Deferred else Receiving;
                   responses := responses gr ++ [resp];
                   closed := closed gr |}).
    set (st1 := {| taskSSESubscribers := taskSSESubscribers st;
                   arrays := arrays st; next_array := next_array st;
                   next_chan := next_chan st;
                   goroutines := <[g := gr1]> (goroutines st);
                   publishers := publishers st |}).
    assert (Hstep : step growcap (Read g) st = Some st1).
    { cbn. unfold responseChan_receive. rewrite Hg. cbn. by rewrite Hat. }
    destruct (IH st1 Hnd) as (st' & Hrun & Hp & Hr & Ha & Hout & Hin).
    { intros g0 Hg0. destruct (Hall g0) as (gr0 & resp0 & brk0 & Hg0' & Hat0);
        [by right|].
      exists gr0, resp0, brk0. split; [|done]. cbn.
      rewrite list_lookup_insert_ne; [done|]. intros ->. done. }
    exists st'. split.
    { unfold read_each. cbn [fmap list_fmap run]. rewrite Hstep. exact Hrun. }
    split; [done|]. split; [done|]. split; [done|]. split.
    + intros g0 Hg0. apply not_elem_of_cons in Hg0 as [Hne Hg0].
      rewrite Hout by done. cbn. by rewrite list_lookup_insert_ne.
    + intros g0 gr0 resp0 brk0 [-> | Hg0]%elem_of_cons Hgr0 Hat0.
      * rewrite Hg in Hgr0. injection Hgr0 as <-.
        rewrite Hat in Hat0. injection Hat0 as <- <-.
        exists gr1. split; [|done]. rewrite Hout by done. cbn.
        apply list_lookup_insert_eq. by eapply lookup_lt_Some.
      * apply (Hin g0 gr0 resp0 brk0 Hg0); [|done]. cbn.
        rewrite list_lookup_insert_ne; [done|]. intros ->. done.
Qed.

(** X26. One publication without interference reaches every subscriber
    whose reader is reading.  In a state the machine reaches, let
    publisher [p] be about to start [enqueueEventsForSSE] for a task whose
    registered queues are [qs], each with a goroutine blocked receiving on
    it.  If the publisher runs to its return and no other thread moves in
    between, it returns, the registry is as before, each of those
    goroutines is blocked sending the event's response on its
    [responseChan], its reader having received nothing new, and no other
    goroutine has changed.  When the readers then take one response
    each, each has received the event as exactly one more response. *)
Theorem quiet_publish_reaches_all (sched : list action) (st : state)
    (p : nat) (pub : publisher) (qs : list chan) (gs : list nat) :
  run growcap sched init = Some st →
  publishers st !! p = Some pub →
  pub_at pub = PubLock →
  subscribers_of st (pub_task pub) = Some qs →
  Forall2 (receives_on st) gs qs →
  ∃ st' st'',
    run growcap (quiet_publish p gs) st = Some st'
    ∧ pub_at <$> publishers st' !! p = Some PubReturned
    ∧ (∀ t, subscribers_of st' t = subscribers_of st t)
    ∧ (∀ g, g ∈ gs →
         ∃ gr gr', goroutines st !! g = Some gr ∧ goroutines st' !! g = Some gr'
           ∧ g_at gr' = Sending (forwarded (g_requestID gr) (pub_event pub))
                          (breaks (g_requestID gr) (pub_event pub))
           ∧ responses gr' = responses gr)
    ∧ (∀ g, g ∉ gs → goroutines st' !! g = goroutines st !! g)
    ∧ run growcap (read_each gs) st' = Some st''
    ∧ (∀ t, subscribers_of st'' t = subscribers_of st t)
    ∧ (∀ g, g ∈ gs →
         ∃ gr gr'', goroutines st !! g = Some gr ∧ goroutines st'' !! g = Some gr''
           ∧ responses gr''
             = responses gr ++ [forwarded (g_requestID gr) (pub_event pub)])
    ∧ (∀ g, g ∉ gs → goroutines st'' !! g = goroutines st !! g).
Proof.
  intros Hrun Hp Hat Hsubs Hrecv.
  assert (HI : Inv st) by (apply (SSEFacts.reachable_Inv growcap); by exists sched).
  pose proof (reachable_not_nil sched st Hrun) as Hnotnil.
  unfold subscribers_of in Hsubs.
  destruct (taskSSESubscribers st !! pub_task pub) as [s|] eqn:Hs; [|done].
  injection Hsubs as <-.
  destruct (inv_arr _ HI _ _ Hs) as [_ Hfit].
  destruct (inv_view _ HI _ _ Hs) as [Hnd _].
  assert (Hplt : p < length (publishers st)) by (by eapply lookup_lt_Some).
  set (st0 := set_publisher st p (at_pc pub (PubRange s 0))).
  assert (Hfirst : step growcap (PubStep p) st = Some st0).
  { cbn. unfold enqueueEventsForSSE_step. rewrite Hp. cbn. by rewrite Hat, Hs. }
  assert (Hlen : length gs = len s).
  { apply Forall2_length in Hrecv. rewrite Hrecv. unfold view.
    rewrite length_take. lia. }
  assert (Hgs : NoDup gs).
  { apply NoDup_alt. intros i j g Hi Hj.
    destruct (Forall2_lookup_l _ _ _ _ _ Hrecv Hi) as (qi & Hqi & gri & Hgi & Hqgi & _).
    destruct (Forall2_lookup_l _ _ _ _ _ Hrecv Hj) as (qj & Hqj & grj & Hgj & Hqgj & _).
    rewrite Hgi in Hgj. injection Hgj as <-. subst.
    by eapply (proj1 (NoDup_alt _) Hnd). }
  assert (Hpublish : ∃ st',
            run growcap (quiet_publish p gs) st = Some st'
            ∧ publishers st' !! p = Some (at_pc pub PubReturned)
            ∧ taskSSESubscribers st' = taskSSESubscribers st
            ∧ arrays st' = arrays st
            ∧ (∀ g, g ∉ gs → goroutines st' !! g = goroutines st !! g)
            ∧ (∀ g, g ∈ gs →
                 ∃ gr gr', goroutines st !! g = Some gr
                   ∧ goroutines st' !! g = Some gr'
                   ∧ g_at gr' = Sending (forwarded (g_requestID gr) (pub_event pub))
                                  (breaks (g_requestID gr) (pub_event pub))
                   ∧ responses gr' = responses gr)).
  { destruct (decide (len s = 0)) as [Hz | Hnz].
    - assert (gs = []) as -> by (apply length_zero_iff_nil; lia).
      exists (set_publisher st0 p (at_pc pub PubReturned)). split.
      { unfold quiet_publish. cbn [flat_map app run]. rewrite Hfirst. cbn.
        unfold enqueueEventsForSSE_step. cbn.
        rewrite list_lookup_insert_eq by done. cbn.
        by rewrite decide_False by lia. }
      cbn. rewrite list_lookup_insert_eq by (by rewrite length_insert).
      repeat split; try done. intros g Hg. by apply elem_of_nil in Hg.
    - destruct (arrays st !! arr s) as [a|] eqn:Ha; [|cbn in Hfit; lia].
      cbn in Hfit.
      destruct (quiet_loop p pub s a gs 0 st0)
        as (st' & Hloop & Hp' & Hr' & Ha' & Hout & Hin).
      + cbn. by rewrite list_lookup_insert_eq.
      + done.
      + lia.
      + intros j g Hj.
        destruct (Forall2_lookup_l _ _ _ _ _ Hrecv Hj) as (q & Hq & Hrq).
        exists q. split; [|split].
        * unfold view in Hq. rewrite Ha in Hq. cbn in Hq.
          by apply lookup_take_Some in Hq as [? _].
        * apply (Hnotnil (pub_task pub)). exists (view (arrays st) s).
          unfold subscribers_of. rewrite Hs. split; [done|].
          by eapply list_elem_of_lookup_2.
        * exact Hrq.
      + done.
      + exists st'. split.
        { unfold quiet_publish. cbn [run]. rewrite Hfirst. exact Hloop. }
        done. }
  destruct Hpublish as (st' & Hquiet & Hp' & Hr' & Ha' & Hout & Hin).
  destruct (read_all gs st' Hgs) as (st'' & Hread & _ & Hr'' & Ha'' & Hout'' & Hin'').
  { intros g Hg. destruct (Hin g Hg) as (gr & gr' & _ & Hg' & Hat' & _).
    by exists gr', (forwarded (g_requestID gr) (pub_event pub)),
              (breaks (g_requestID gr) (pub_event pub)). }
  exists st', st''. split; [exact Hquiet|].
  split; [by rewrite Hp'|]. split.
  { intros t. unfold subscribers_of. by rewrite Hr', Ha'. }
  split; [exact Hin|]. split; [exact Hout|]. split; [exact Hread|]. split.
  { intros t. unfold subscribers_of. by rewrite Hr'', Ha'', Hr', Ha'. }
  split.
  - intros g Hg. destruct (Hin g Hg) as (gr & gr' & Hgr & Hgr' & Hat' & Hrs').
    destruct (Hin'' g gr' _ _ Hg Hgr' Hat') as (gr'' & Hgr'' & Hrs'' & _).
    exists gr, gr''. split; [done|]. split; [done|]. by rewrite Hrs'', Hrs'.
  - intros g Hg. by rewrite Hout'', Hout.
Qed.

End WithGrowth.

Lemma quiet_publish_reaches_all_witness :
  ∃ st' st'',
    run growslice (quiet_publish 0 [0; 1; 2]) three_subscribers_state = Some st'
    ∧ pub_at <$> publishers st' !! 0 = Some PubReturned
    ∧ (∀ t, subscribers_of st' t = subscribers_of three_subscribers_state t)
    ∧ (∀ g, g ∈ [0; 1; 2] →
         ∃ gr gr', goroutines three_subscribers_state !! g = Some gr
           ∧ goroutines st' !! g = Some gr'
           ∧ g_at gr' = Sending (forwarded (g_requestID gr) final_event)
                          (breaks (g_requestID gr) final_event)
           ∧ responses gr' = responses gr)
    ∧ (∀ g, g ∉ [0; 1; 2] →
         goroutines st' !! g = goroutines three_subscribers_state !! g)
    ∧ run growslice (read_each [0; 1; 2]) st' = Some st''
    ∧ (∀ t, subscribers_of st'' t = subscribers_of three_subscribers_state t)
    ∧ (∀ g, g ∈ [0; 1; 2] →
         ∃ gr gr'', goroutines three_subscribers_state !! g = Some gr
           ∧ goroutines st'' !! g = Some gr''
           ∧ responses gr''
             = responses gr ++ [forwarded (g_requestID gr) final_event])
    ∧ (∀ g, g ∉ [0; 1; 2] →
         goroutines st'' !! g = goroutines three_subscribers_state !! g).
Proof.
  apply (quiet_publish_reaches_all growslice three_subscribers
           three_subscribers_state 0
           {| pub_task := "t1"; pub_event := final_event; pub_at := PubLock |}
           [1; 2; 3] [0; 1; 2]).
  - vm_compute. reflexivity.
  - reflexivity.
  - reflexivity.
  - reflexivity.
  - repeat constructor; eexists; (split; [reflexivity|]); split; reflexivity.
Defined.

Lemma setupSSEConsumer_registers_witness :
  let r := setupSSEConsumer growslice one_subscriber_state "t1" true in
  (subscribers_of one_subscriber_state "t1" = None ∧ true = true
   ∧ r = (one_subscriber_state, inl "task not found for resubscription"))
  ∨ (∃ q, r.2 = inr q
       ∧ (∀ t, ¬ registered one_subscriber_state t q)
       ∧ subscribers_of r.1 "t1"
           = Some (default [] (subscribers_of one_subscriber_state "t1") ++ [q])
       ∧ ∀ t2, t2 ≠ "t1" →
           subscribers_of r.1 t2 = subscribers_of one_subscriber_state t2).
Proof.
  apply (setupSSEConsumer_registers growslice one_subscriber_schedule
           one_subscriber_state "t1" true).
  vm_compute. reflexivity.
Defined.

Lemma registry_has_no_duplicates_witness : NoDup [1; 2; 3].
Proof.
  apply (registry_has_no_duplicates growslice three_subscribers
           three_subscribers_state "t1" [1; 2; 3]).
  - vm_compute. reflexivity.
  - reflexivity.
Defined.

Lemma error_event_ends_subscription_witness :
  let failure := {| Result := None; Error := Some rpc_error; RespID := "r1" |} in
  ∃ st1,
    step growslice (Handoff 0 0) error_state = Some st1
    ∧ ∀ sched' st2, run growslice sched' st1 = Some st2 →
        (∀ p', step growslice (Handoff p' 0) st2 = None)
        ∧ ((blocked_sending 0 1 "t1" [] failure st2
            ∧ ∃ st3, step growslice (Read 0) st2 = Some st3
                ∧ finished 0 1 "t1" ([] ++ [failure]) st3)
           ∨ finished 0 1 "t1" ([] ++ [failure]) st2).
Proof.
  apply (error_event_ends_subscription growslice error_schedule error_state 0 0
           error_publisher receiving_goroutine rpc_error
           {| arr := 1; len := 1; cap := 1 |} 0).
  - vm_compute. reflexivity.
  - reflexivity.
  - reflexivity.
  - reflexivity.
  - discriminate.
  - reflexivity.
  - reflexivity.
Defined.

End SSEMoreFacts.

(** * Properties of the metadata merging of package [hosts] *)
Module HostsFacts.
Import Hosts.

Section WithValue.
Context {V : Type}.
Variable string_value : string → V.
Variable range : gmap string V → list (string * V).

(** Storing key after key, each key once, gives the listed value for a
    listed key and leaves the others. *)
Lemma foldl_insert_lookup (l : list (string * V)) : ∀ (t : gmap string V) k,
  NoDup l.*1 →
  foldl (λ m kv, <[kv.1 := kv.2]> m) t l !! k
  = match (list_to_map l : gmap string V) !! k with
    | Some v => Some v
    | None => t !! k
    end.
Proof.
  induction l as [|[k0 v0] l IH]; intros t k Hnd; cbn.
  - by rewrite lookup_empty.
  - apply NoDup_cons in Hnd as [Hnotin Hnd]. rewrite IH by done.
    destruct (decide (k = k0)) as [-> | Hne].
    + rewrite !lookup_insert_eq.
      by rewrite (not_elem_of_list_to_map_1 _ _ Hnotin).
    + by rewrite !lookup_insert_ne.
Qed.

Lemma merge_maps_union (target source : MetadataMap V) :
  (∀ m, range m ≡ₚ map_to_list m) →
  merge_maps range target source
  = Some (default ∅ source ∪ default ∅ target).
Proof.
  intros Hrange. unfold merge_maps.
  destruct source as [s|]; cbn.
  - f_equal. apply map_eq. intros k.
    rewrite foldl_insert_lookup.
    + rewrite (list_to_map_proper (range s) (map_to_list s)).
      * rewrite list_to_map_to_list, lookup_union.
        destruct target as [t|]; cbn; rewrite ?lookup_empty;
          destruct (s !! k); cbn; try done; by destruct (t !! k).
      * rewrite Hrange. apply NoDup_fst_map_to_list.
      * apply Hrange.
    + rewrite Hrange. apply NoDup_fst_map_to_list.
  - by rewrite (left_id_L ∅ (∪)).
Qed.

(** X27. The merge does not depend on the order of the loop.  Whatever
    order [range] visits the source map in, [mergeMetadata] of a task
    pointer with a pointer to send parameters, and of a message pointer
    with a message pointer, leaves the target with a metadata map that is
    not nil and is the source's map laid over the target's: a key of the
    source has the source's value, any other key is as it was. *)
Theorem mergeMetadata_is_union (t : Task V) (p : TaskSendParams V)
    (tm sm : Message V) :
  (∀ m, range m ≡ₚ map_to_list m) →
  mergeMetadata range (TaskPtr t) (TaskSendParamsPtr p)
  = TaskPtr (with_task_metadata t
               (Some (default ∅ (SendMetadata p) ∪ default ∅ (TaskMetadata t))))
  ∧ mergeMetadata range (MessagePtr tm) (MessagePtr sm)
    = MessagePtr (with_metadata tm
                    (Some (default ∅ (Metadata sm) ∪ default ∅ (Metadata tm)))).
Proof.
  intros Hrange. cbn. by rewrite !merge_maps_union.
Qed.

(** X28. The metadata of the request's message never reaches the status
    message.  [SendTask] calls [mergeMetadata] with the message of the
    request by value, which neither type assertion on the source
    accepts, so when the received task has a status message, the message
    afterwards keeps its role and parts, and its metadata is what it had,
    except that "message_id" is the new identifier and, if there was a
    "message_id" before, "last_message_id" is that old one. *)
Theorem status_message_keeps_own_metadata (result : Task V)
    (request : TaskSendParams V) (uuid : string) (msg : Message V) :
  StatusMessage (Status result) = Some msg →
  ∃ msg' md',
    StatusMessage (Status (SendTask_merge string_value range result request uuid))
    = Some msg'
    ∧ Role msg' = Role msg ∧ Parts msg' = Parts msg
    ∧ Metadata msg' = Some md'
    ∧ md' !! "message_id" = Some (string_value uuid)
    ∧ md' !! "last_message_id"
      = match default ∅ (Metadata msg) !! "message_id" with
        | Some old => Some old
        | None => default ∅ (Metadata msg) !! "last_message_id"
        end
    ∧ ∀ k, k ≠ "message_id" → k ≠ "last_message_id" →
        md' !! k = default ∅ (Metadata msg) !! k.
Proof.
  intros Hmsg. unfold SendTask_merge. cbn. rewrite Hmsg. cbn.
  eexists _, _. split; [reflexivity|]. cbn.
  split; [done|]. split; [done|]. split; [reflexivity|].
  split; [by rewrite lookup_insert_eq|].
  change (match Metadata msg with Some m => m | None => ∅ end)
    with (default ∅ (Metadata msg)).
  set (old := default ∅ (Metadata msg)).
  split.
  - rewrite lookup_insert_ne by done.
    destruct (old !! "message_id") as [id|]; [|done].
    by rewrite lookup_insert_eq.
  - intros k Hk1 Hk2. rewrite lookup_insert_ne by done.
    destruct (old !! "message_id") as [id|]; [|done].
    by rewrite lookup_insert_ne.
Qed.

End WithValue.

Lemma mergeMetadata_is_union_witness :
  mergeMetadata sorted_range (TaskPtr received) (TaskSendParamsPtr sent)
  = TaskPtr (with_task_metadata received
               (Some (default ∅ (SendMetadata sent)
                      ∪ default ∅ (TaskMetadata received))))
  ∧ mergeMetadata sorted_range (MessagePtr reply) (MessagePtr question)
    = MessagePtr (with_metadata reply
                    (Some (default ∅ (Metadata question)
                           ∪ default ∅ (Metadata reply)))).
Proof.
  apply (mergeMetadata_is_union sorted_range received sent reply question).
  reflexivity.
Defined.

Lemma status_message_keeps_own_metadata_witness :
  ∃ msg' md',
    StatusMessage (Status (SendTask_merge id sorted_range received sent "m-2"))
    = Some msg'
    ∧ Role msg' = Role reply ∧ Parts msg' = Parts reply
    ∧ Metadata msg' = Some md'
    ∧ md' !! "message_id" = Some "m-2"
    ∧ md' !! "last_message_id"
      = match default ∅ (Metadata reply) !! "message_id" with
        | Some old => Some old
        | None => default ∅ (Metadata reply) !! "last_message_id"
        end
    ∧ ∀ k, k ≠ "message_id" → k ≠ "last_message_id" →
        md' !! k = default ∅ (Metadata reply) !! k.
Proof.
  apply (status_message_keeps_own_metadata id sorted_range received sent "m-2" reply).
  reflexivity.
Defined.

End HostsFacts.
